(** * Cloudflare scraping agent: crawler and RSS scoring

    A shallow embedding of [src/modules/crawler.js], [src/modules/rss_handler.js]
    and the helpers they use from [src/utils/helpers.js], with the properties
    of the crawl engine and of the feed scoring engine proved about it.

    Conventions of the embedding.
    - A JavaScript string is a [string]; one [ascii] stands for one code unit
      below 256 (the Latin-1 range).  Code units above 255 are outside the
      model.
    - A JavaScript number that counts something is a [nat]; a depth or a
      time in milliseconds is a [Z]; a score, weight or threshold is a
      rational [Q] (the rounding of IEEE doubles is outside the model, [NaN]
      and the infinities do not exist in it).  The one product of doubles
      that decides a branch, [maxLength * 0.7] in [generateSummary], is
      rounded as the source rounds it.
    - Regular expressions of the source are written as terms of [regex] and
      run by a backtracking matcher that follows the ECMAScript matching
      order (greedy and lazy repetition, alternation left to right, negative
      lookahead, word boundaries, one capture group).
    - Effects (the clock, the KV cache, the network, the queue, storage) are
      threaded through a state-and-exception monad over [World]. *)

From stdpp Require Import gmap strings list pretty.
From Stdlib Require Import Ascii ZArith QArith Qround Wellfounded Relation_Operators Lexicographic_Product.

#[local] Open Scope string_scope.
#[local] Open Scope list_scope.
#[local] Open Scope Z_scope.

(* ================================================================== *)
(** * Characters and strings *)
(* ================================================================== *)

Module Js.

Definition code (c : ascii) : N := N_of_ascii c.

Definition in_range (lo hi : N) (c : ascii) : bool :=
  ((lo <=? code c) && (code c <=? hi))%N.

(** [\w] without the unicode flag: [A-Za-z0-9_]. *)
Definition is_word_char (c : ascii) : bool :=
  in_range 65 90 c || in_range 97 122 c || in_range 48 57 c || (code c =? 95)%N.

(** [\s] and the characters [trim] strips, below code 256:
    TAB, LF, VT, FF, CR, SPACE and NO-BREAK SPACE. *)
Definition is_space (c : ascii) : bool :=
  in_range 9 13 c || (code c =? 32)%N || (code c =? 160)%N.

(** Line terminators, which [.] does not match. *)
Definition is_line_terminator (c : ascii) : bool :=
  (code c =? 10)%N || (code c =? 13)%N.

(** [String.prototype.toLowerCase] on one code unit. *)
Definition lower_char (c : ascii) : ascii :=
  if in_range 65 90 c || (in_range 192 222 c && negb (code c =? 215)%N)
  then ascii_of_N (code c + 32) else c.

(** Canonicalisation under the [i] flag (no [u] flag): the upper-case
    mapping, except where it leaves the range or is not a single unit.
    Below 256 the units that match each other are a letter and its
    capital.  The letters from 256 on that the source folds together
    though they are distinct in lower case (the two small sigmas, the
    micro sign and the small mu) are outside the model: what is proved
    from two lowered units not matching is stated for ASCII patterns,
    which the source matches with ASCII units only. *)
Definition canon_char (c : ascii) : ascii :=
  if in_range 97 122 c || (in_range 224 254 c && negb (code c =? 247)%N)
  then ascii_of_N (code c - 32) else c.

Fixpoint toLowerCase (s : string) : string :=
  match s with
  | EmptyString => EmptyString
  | String c s' => String (lower_char c) (toLowerCase s')
  end.

Fixpoint drop_spaces (s : string) : string :=
  match s with
  | String c s' => if is_space c then drop_spaces s' else s
  | EmptyString => EmptyString
  end.

Fixpoint rev_string (acc s : string) : string :=
  match s with
  | EmptyString => acc
  | String c s' => rev_string (String c acc) s'
  end.

(** [String.prototype.trim] *)
Definition trim (s : string) : string :=
  rev_string "" (drop_spaces (rev_string "" (drop_spaces s))).

(** [s.substring(0, n)] *)
Fixpoint take (n : nat) (s : string) : string :=
  match n, s with
  | S n', String c s' => String c (take n' s')
  | _, _ => EmptyString
  end.

(** [s.includes(sub)] *)
Fixpoint includes (s sub : string) : bool :=
  String.prefix sub s ||
  match s with
  | EmptyString => false
  | String _ s' => includes s' sub
  end.

(** Truthiness of a string: the empty string is the only falsy one. *)
Definition truthy (s : string) : bool :=
  match s with EmptyString => false | _ => true end.

End Js.

(* ================================================================== *)
(** * Regular expressions *)
(* ================================================================== *)

Module Re.

(** The constructs the source's regular expressions use.  Every regular
    expression of the source has at most one capturing group, so [Group]
    is group 1. *)
Inductive regex : Type :=
| Eps
| Chr (c : ascii)
| Cls (p : ascii -> bool)
| Seq (r1 r2 : regex)
| Alt (r1 r2 : regex)
| Star (greedy : bool) (r : regex)
| Group (r : regex)
| NotAhead (r : regex)
| WordB.

(** The end of a match: the code unit before the end position, the rest
    of the input, and the text of group 1. *)
Definition MatchEnd : Type := option ascii * string * option string.
Definition Cont : Type := option ascii -> string -> option string -> option MatchEnd.

Definition same_char (icase : bool) (c a : ascii) : bool :=
  if icase then Ascii.eqb (Js.canon_char c) (Js.canon_char a) else Ascii.eqb c a.

Definition is_word (o : option ascii) : bool :=
  match o with Some c => Js.is_word_char c | None => false end.

Definition first_char (s : string) : option ascii :=
  match s with String c _ => Some c | EmptyString => None end.

Definition or_else (a : option MatchEnd) (b : unit -> option MatchEnd) : option MatchEnd :=
  match a with Some e => Some e | None => b tt end.

(** The backtracking matcher, in continuation-passing style.  [prev] is
    the code unit before the current position ([None] at the start of the
    input), [s] the input from the current position on.  A repetition
    gives up an iteration that consumes nothing, so it runs at most
    [length s] iterations. *)
Fixpoint run (icase : bool) (r : regex) (prev : option ascii) (s : string)
    (cap : option string) (k : Cont) {struct r} : option MatchEnd :=
  match r with
  | Eps => k prev s cap
  | Chr c =>
      match s with
      | String a s' => if same_char icase c a then k (Some a) s' cap else None
      | EmptyString => None
      end
  | Cls p =>
      match s with
      | String a s' => if p a then k (Some a) s' cap else None
      | EmptyString => None
      end
  | Seq r1 r2 => run icase r1 prev s cap (fun p' s' c' => run icase r2 p' s' c' k)
  | Alt r1 r2 => or_else (run icase r1 prev s cap k) (fun _ => run icase r2 prev s cap k)
  | Star greedy r1 =>
      (fix iter (fuel : nat) (prev : option ascii) (s : string) (cap : option string)
         {struct fuel} : option MatchEnd :=
         let more (_ : unit) :=
           match fuel with
           | O => None
           | S fuel' =>
               run icase r1 prev s cap (fun p' s' c' =>
                 if (String.length s' <? String.length s)%nat
                 then iter fuel' p' s' c' else None)
           end in
         if greedy then or_else (more tt) (fun _ => k prev s cap)
         else or_else (k prev s cap) more)
        (S (String.length s)) prev s cap
  | Group r1 =>
      run icase r1 prev s cap (fun p' s' _ =>
        k p' s' (Some (Js.take (String.length s - String.length s') s)))
  | NotAhead r1 =>
      match run icase r1 prev s cap (fun p' s' c' => Some (p', s', c')) with
      | Some _ => None
      | None => k prev s cap
      end
  | WordB =>
      if xorb (is_word prev) (is_word (first_char s)) then k prev s cap else None
  end.

(** One match: the text skipped since the search started, the matched
    text, group 1, and where the match ended. *)
Record Match : Type := {
  skipped : string;
  text : string;
  group1 : option string;
  last : option ascii;
  rest : string
}.

Definition skip_more (a : ascii) (m : Match) : Match :=
  {| skipped := String a (skipped m); text := text m; group1 := group1 m;
     last := last m; rest := rest m |}.

(** [RegExp.prototype.exec]: the leftmost position from which the
    pattern matches. *)
Fixpoint exec (icase : bool) (r : regex) (prev : option ascii) (s : string) : option Match :=
  match run icase r prev s None (fun p' s' c' => Some (p', s', c')) with
  | Some (p', s', c') =>
      Some {| skipped := ""; text := Js.take (String.length s - String.length s') s;
              group1 := c'; last := p'; rest := s' |}
  | None =>
      match s with
      | EmptyString => None
      | String a s1 => skip_more a <$> exec icase r (Some a) s1
      end
  end.

(** All matches of a global regular expression, left to right, and the
    text after the last one.  After an empty match the search resumes one
    code unit further. *)
Fixpoint scan (fuel : nat) (icase : bool) (r : regex) (prev : option ascii) (s : string)
    : list Match * string :=
  match fuel with
  | O => ([], s)
  | S fuel' =>
      match exec icase r prev s with
      | None => ([], s)
      | Some m =>
          match text m with
          | EmptyString =>
              match rest m with
              | EmptyString => ([m], "")
              | String a s1 =>
                  match scan fuel' icase r (Some a) s1 with
                  | ([], tl) => ([m], String a tl)
                  | (m' :: ms, tl) => (m :: skip_more a m' :: ms, tl)
                  end
              end
          | _ =>
              let '(ms, tl) := scan fuel' icase r (last m) (rest m) in (m :: ms, tl)
          end
      end
  end.

(** [s.match(re)] for a regular expression without the [g] flag. *)
Definition str_match (icase : bool) (r : regex) (s : string) : option Match :=
  exec icase r None s.

(** [s.matchAll(re)], and [s.match(re)] for a regular expression with
    the [g] flag ([null] is the empty list). *)
Definition matchAll (icase : bool) (r : regex) (s : string) : list Match :=
  fst (scan (S (String.length s)) icase r None s).

(** [s.replace(re, by)] for a global [re] and a replacement text without
    [$] patterns. *)
Definition replaceAll (icase : bool) (r : regex) (by_ : string) (s : string) : string :=
  let '(ms, tl) := scan (S (String.length s)) icase r None s in
  foldr (fun m acc => skipped m +:+ by_ +:+ acc) tl ms.

(** Builders for the notation of the source. *)
Fixpoint lit (s : string) : regex :=
  match s with
  | EmptyString => Eps
  | String c s' => Seq (Chr c) (lit s')
  end.

Definition cat (rs : list regex) : regex := foldr Seq Eps rs.
Definition plus (r : regex) : regex := Seq r (Star true r).
Definition opt (r : regex) : regex := Alt r Eps.
Definition alts (rs : list regex) : regex :=
  match rs with
  | [] => Eps
  | r :: rs' => fold_left Alt rs' r
  end.
Definition none_of (cs : string) : regex :=
  Cls (fun a => negb (existsb (Ascii.eqb a) (String.list_ascii_of_string cs))).
Definition one_of (cs : string) : regex :=
  Cls (fun a => existsb (Ascii.eqb a) (String.list_ascii_of_string cs)).
Definition any : regex := Cls (fun _ => true).
Definition dot : regex := Cls (fun a => negb (Js.is_line_terminator a)).
Definition space : regex := Cls Js.is_space.

End Re.

(* ================================================================== *)
(** * Data *)
(* ================================================================== *)

(** [config.json] is read through the global [CONFIG]; the file is not
    part of the sources, so its value is a parameter of the development.
    Only the fields the crawler and the RSS handler read are listed. *)
Module Config.
Record KeywordWeights : Type := { high : Q; medium : Q }.
Record Scoring : Type := {
  prophecy_keywords : list string;
  high_priority_keywords : list string;
  keyword_weights : KeywordWeights
}.
Record Scraper : Type := {
  max_retries : nat;
  max_pages_per_domain : nat;
  delay_between_requests_ms : Z
}.
Record Feed : Type := { name : string; url : string; enabled : bool }.
Record t : Type := {
  rss_feeds : list Feed;
  scoring : Scoring;
  scraper : Scraper
}.
End Config.

(** An item of a parsed feed, and the same item with its score. *)
Module Item.
Record t : Type := {
  title : string;
  link : string;
  description : string;
  pubDate : string;
  content : string
}.
End Item.

Module Scored.
Record t : Type := { item : Item.t; score : Q }.
End Scored.

Module Feed.
Record t : Type := { title : string; items : list Item.t }.
End Feed.

(** What a scraping strategy returns, and the document [scrapeSingleUrl]
    builds from it.  [scraped_at] is the instant [new Date()] in
    milliseconds; [toISOString] and [new Date(...).getTime()] are inverse
    on it. *)
Module Metadata.
Record t : Type := { contentType : string; contentLength : nat }.
End Metadata.

Module Page.
Record t : Type := {
  title : string;
  content : string;
  links : list string;
  metadata : Metadata.t
}.
End Page.

Module Doc.
Record t : Type := {
  url : string;
  title : string;
  content : string;
  content_md : string;
  links : list string;
  metadata : Metadata.t;
  scraped_at : Z;
  method : string
}.
End Doc.

(** The message [checkRSSFeeds] sends to [env.SCRAPE_QUEUE]. *)
Module Job.
Record t : Type := {
  id : string;
  url : string;
  mode : string;
  source : string;
  feed_name : string;
  score : Q;
  title : string;
  timestamp : Z
}.
End Job.

(* ================================================================== *)
(** * The RSS handler: parsing and scoring *)
(* ================================================================== *)

Module Rss.
Import Re.

Definition dquote : ascii := ascii_of_N 34.
Definition quote : regex := Cls (fun a => Ascii.eqb a dquote || Ascii.eqb a "'"%char).
Definition not_quote : regex := Cls (fun a => negb (Ascii.eqb a dquote || Ascii.eqb a "'"%char)).

(** Text of group 1 of a match. *)
Definition capture (m : Match) : string := default "" (group1 m).

(** [/<title[^>]*>(?:<!\[CDATA\[)?(.*?)(?:\]\]>)?<\/title>/i] *)
Definition title_re : regex :=
  cat [lit "<title"; Star true (none_of ">"); Chr ">"; opt (lit "<![CDATA[");
       Group (Star false dot); opt (lit "]]>"); lit "</title>"].

(** [/<(?:item|entry)[^>]*>([\s\S]*?)<\/(?:item|entry)>/gi] *)
Definition item_re : regex :=
  cat [Chr "<"; alts [lit "item"; lit "entry"]; Star true (none_of ">"); Chr ">";
       Group (Star false any); lit "</"; alts [lit "item"; lit "entry"]; Chr ">"].

(** [/<link[^>]*>(?:<!\[CDATA\[)?(.*?)(?:\]\]>)?<\/link>/i] *)
Definition link_re : regex :=
  cat [lit "<link"; Star true (none_of ">"); Chr ">"; opt (lit "<![CDATA[");
       Group (Star false dot); opt (lit "]]>"); lit "</link>"].

(** [/<link[^>]+href=[Q']([^Q']+)[Q']/i], where [Q] stands for the
    double quote. *)
Definition link_href_re : regex :=
  cat [lit "<link"; plus (none_of ">"); lit "href="; quote; Group (plus not_quote); quote].

(** [/<(?:description|summary|content)[^>]*>(?:<!\[CDATA\[)?([\s\S]*?)(?:\]\]>)?<\/(?:description|summary|content)>/i] *)
Definition desc_re : regex :=
  cat [Chr "<"; alts [lit "description"; lit "summary"; lit "content"];
       Star true (none_of ">"); Chr ">"; opt (lit "<![CDATA[");
       Group (Star false any); opt (lit "]]>");
       lit "</"; alts [lit "description"; lit "summary"; lit "content"]; Chr ">"].

(** [/<(?:pubDate|published|updated)[^>]*>([^<]+)<\/(?:pubDate|published|updated)>/i] *)
Definition date_re : regex :=
  cat [Chr "<"; alts [lit "pubDate"; lit "published"; lit "updated"];
       Star true (none_of ">"); Chr ">"; Group (plus (none_of "<"));
       lit "</"; alts [lit "pubDate"; lit "published"; lit "updated"]; Chr ">"].

(** [/<[^>]+>/g] *)
Definition tag_re : regex := cat [Chr "<"; plus (none_of ">"); Chr ">"].

(** [/\s+/g] *)
Definition spaces_re : regex := plus space.

(** [cleanText]: tags removed, six entities decoded, white space
    collapsed, trimmed. *)
Definition cleanText (text : string) : string :=
  Js.trim
    (replaceAll false spaces_re " "
    (replaceAll false (lit "&nbsp;") " "
    (replaceAll false (lit "&#39;") "'"
    (replaceAll false (lit "&quot;") (String dquote "")
    (replaceAll false (lit "&amp;") "&"
    (replaceAll false (lit "&gt;") ">"
    (replaceAll false (lit "&lt;") "<"
    (replaceAll false tag_re "" text)))))))).

(** The body of the loop over the item blocks: the fields of one block,
    and the item it pushes, if any. *)
Definition item_title (itemXml : string) : string :=
  match str_match true title_re itemXml with
  | Some m => cleanText (capture m)
  | None => ""
  end.

Definition item_link (itemXml : string) : string :=
  match
    match str_match true link_re itemXml with
    | Some m => Some m
    | None => str_match true link_href_re itemXml
    end
  with
  | Some m => cleanText (capture m)
  | None => ""
  end.

Definition item_description (itemXml : string) : string :=
  match str_match true desc_re itemXml with
  | Some m => cleanText (capture m)
  | None => ""
  end.

Definition item_pubDate (itemXml : string) : string :=
  match str_match true date_re itemXml with
  | Some m => Js.trim (capture m)
  | None => ""
  end.

Definition parseItem (itemXml : string) : option Item.t :=
  let title := item_title itemXml in
  let link := item_link itemXml in
  let description := item_description itemXml in
  let pubDate := item_pubDate itemXml in
  if Js.truthy title && Js.truthy link then
    Some {| Item.title := title; Item.link := link;
            Item.description := description; Item.pubDate := pubDate;
            Item.content := title +:+ " " +:+ description |}
  else None.

(** The item blocks of a feed: group 1 of every match of [item_re]. *)
Definition item_blocks (xmlText : string) : list string :=
  capture <$> matchAll true item_re xmlText.

Definition parseRSSFeed (xmlText : string) : Feed.t :=
  let feedTitle :=
    match str_match true title_re xmlText with
    | Some m => cleanText (capture m)
    | None => "Untitled Feed"
    end in
  {| Feed.title := feedTitle;
     Feed.items := omap parseItem (item_blocks xmlText) |}.

(** [escapeRegex] puts a backslash before each of [.*+?^${}()|[\]\], so
    [new RegExp(`\\b${escapeRegex(k)}\\b`, 'gi')] matches the code units
    of [k] literally between two word boundaries. *)
Definition keyword_re (keywordLower : string) : regex :=
  cat [WordB; lit keywordLower; WordB].

(** [parseFloat(x.toFixed(2))]: the nearest multiple of 1/100, the larger
    one on a tie; the sign is set aside first. *)
Definition round2 (x : Q) : Q := (Qfloor (x * 100 + (1 # 2)) # 100)%Q.
Definition toFixed2 (x : Q) : Q :=
  if Qle_bool 0 x then round2 x else Qopp (round2 (Qopp x)).

Section Scorer.
Variable CONFIG : Config.t.

(** The first loop of [calculateProphecyScore], one keyword. *)
Definition add_keyword (text : string) (score : Q) (keyword : string) : Q :=
  let keywordLower := Js.toLowerCase keyword in
  match matchAll true (keyword_re keywordLower) text with
  | [] => score
  | matches =>
      let count := length matches in
      let isHighPriority :=
        existsb (fun hp => String.eqb (Js.toLowerCase hp) keywordLower)
                (Config.high_priority_keywords (Config.scoring CONFIG)) in
      let weight :=
        if isHighPriority
        then Config.high (Config.keyword_weights (Config.scoring CONFIG))
        else Config.medium (Config.keyword_weights (Config.scoring CONFIG)) in
      (score + inject_Z (Z.of_nat count) * weight)%Q
  end.

(** The second loop, one high-priority keyword. *)
Definition add_title_bonus (titleText : string) (score : Q) (keyword : string) : Q :=
  if Js.includes titleText (Js.toLowerCase keyword) then (score + 1)%Q else score.

Definition calculateProphecyScore (item : Item.t) : Q :=
  let text := Js.toLowerCase (Item.title item +:+ " " +:+ Item.description item) in
  let score :=
    fold_left (add_keyword text)
              (Config.prophecy_keywords (Config.scoring CONFIG)) 0%Q in
  let titleText := Js.toLowerCase (Item.title item) in
  let score :=
    fold_left (add_title_bonus titleText)
              (Config.high_priority_keywords (Config.scoring CONFIG)) score in
  toFixed2 score.

(** The two array passes of [checkSingleFeed]. *)
Definition score_items (items : list Item.t) : list Scored.t :=
  (fun item => {| Scored.item := item; Scored.score := calculateProphecyScore item |})
    <$> items.

Definition high_scoring (threshold : Q) (scoredItems : list Scored.t) : list Scored.t :=
  List.filter (fun item => Qle_bool threshold (Scored.score item)) scoredItems.
End Scorer.

End Rss.

(* ================================================================== *)
(** * The platform: clock, KV cache, network, queue, storage *)
(* ================================================================== *)

(** A thrown value: an [Error] object with its message, or [undefined]
    (what [throw lastError] throws when no error was recorded). *)
Inductive Thrown : Type :=
| Error (message : string)
| Undefined.

Inductive Completion (A : Type) : Type :=
| Return (a : A)
| Throw (e : Thrown).
Arguments Return {A} a.
Arguments Throw {A} e.

Module Response.
Record t : Type := {
  status : Z;
  statusText : string;
  content_type : option string;
  body : string
}.
Definition ok (r : t) : bool := (200 <=? status r) && (status r <=? 299).
End Response.

(** What [fetch] does with a request: it rejects, or resolves with a
    response. *)
Inductive FetchOutcome : Type :=
| Rejected (message : string)
| Resolved (r : Response.t).

(** An entry of the KV namespace [env.CACHE]: the JSON text written by
    [put], read back by [get(key, {type: 'json'})] (a [Doc.t] survives
    [JSON.stringify] and [JSON.parse] unchanged, so the entry holds the
    document itself), and the instant after which the namespace no longer
    returns it. *)
Module Kv.
Record entry : Type := { value : Doc.t; expiration : Z }.
Definition get (cache : gmap string entry) (key : string) (now : Z) : option Doc.t :=
  match cache !! key with
  | Some e => if now <? expiration e then Some (value e) else None
  | None => None
  end.
Definition put (cache : gmap string entry) (key : string) (v : Doc.t)
    (expirationTtl : Z) (now : Z) : gmap string entry :=
  <[key := {| value := v; expiration := now + expirationTtl * 1000 |}]> cache.
End Kv.

(** The data of a recursive crawl and the summary of a scheduled feed
    check, as handed to storage. *)
Module CrawlData.
Record t : Type := {
  start_url : string;
  pages_crawled : nat;
  pages : list Doc.t;
  max_depth : Z
}.
End CrawlData.

Module FeedError.
Record t : Type := { feed : string; error : string }.
End FeedError.

Module Summary.
Record t : Type := {
  feeds_checked : nat;
  high_score_items : list Scored.t;
  scrapes_triggered : nat;
  errors : list FeedError.t
}.
End Summary.

Inductive Stored : Type :=
| StoredDoc (d : Doc.t)
| StoredCrawl (c : CrawlData.t)
| StoredRssCheck (timestamp : Z) (summary : Summary.t).

(** The result object of [storeResult]; the keys of the backends are left
    out. *)
Module StorageReport.
Record t : Type := { success : bool; error : option string }.
End StorageReport.

(** The state the handlers act on.  [now] is [Date.now()]; it advances
    with [sleep] only.  [CACHE] is the binding [env.CACHE] ([None] when
    the worker has no KV namespace).  [SCRAPE_QUEUE] lists the messages
    the queue accepted, [stored] the values handed to [storeResult], and
    [draws] counts the calls of [Math.random]. *)
Record World : Type := {
  now : Z;
  CACHE : option (gmap string Kv.entry);
  SCRAPE_QUEUE : list Job.t;
  stored : list Stored;
  draws : nat
}.

(** What lies outside the sources: the configuration file, the URL
    parser of the runtime ([hostname s] is [new URL(s).hostname], [None]
    when the constructor throws), the network, the failures of the queue,
    the random part of a job id, the outcome of the storage backends, the
    Markdown rendering and the environment variable with the threshold. *)
Module Platform.
Record t : Type := {
  CONFIG : Config.t;
  hostname : string -> option string;
  network : Z -> string -> FetchOutcome;
  queue_error : Job.t -> option string;
  random_id : nat -> string;
  storage_report : Stored -> StorageReport.t;
  convertToMarkdown : Page.t -> string;
  RSS_SCORE_THRESHOLD : option Q
}.
End Platform.

(** ** The monad of asynchronous functions *)

Definition M (A : Type) : Type := World -> World * Completion A.

Definition ret {A} (a : A) : M A := fun w => (w, Return a).
Definition throw {A} (e : Thrown) : M A := fun w => (w, Throw e).
Definition bind {A B} (c : M A) (f : A -> M B) : M B :=
  fun w =>
    match c w with
    | (w', Return a) => f a w'
    | (w', Throw e) => (w', Throw e)
    end.
Definition try_catch {A} (c : M A) (handler : Thrown -> M A) : M A :=
  fun w =>
    match c w with
    | (w', Return a) => (w', Return a)
    | (w', Throw e) => handler e w'
    end.

Notation "'let*' x ':=' c 'in' f" := (bind c (fun x => f))
  (at level 10, x binder, c at level 100, f at level 200).

(** [error.message]: reading a property of [undefined] throws. *)
Definition message_of {A} (e : Thrown) (k : string -> M A) : M A :=
  match e with
  | Error m => k m
  | Undefined => throw (Error "Cannot read properties of undefined (reading 'message')")
  end.

(** A read of a [const] binding before its initialisation. *)
Definition uninitialized {A} (name : string) : M A :=
  throw (Error ("Cannot access '" +:+ name +:+ "' before initialization")).

Definition Date_now : M Z := fun w => (w, Return (now w)).

Definition set_now (t : Z) (w : World) : World :=
  {| now := t; CACHE := CACHE w; SCRAPE_QUEUE := SCRAPE_QUEUE w;
     stored := stored w; draws := draws w |}.

Definition set_CACHE (c : option (gmap string Kv.entry)) (w : World) : World :=
  {| now := now w; CACHE := c; SCRAPE_QUEUE := SCRAPE_QUEUE w;
     stored := stored w; draws := draws w |}.

(** [sleep(ms)] *)
Definition sleep (ms : Z) : M unit :=
  fun w => (set_now (now w + Z.max 0 ms) w, Return tt).

Section Helpers.
Variable P : Platform.t.

(** [extractDomain] and [isValidUrl] of [helpers.js] *)
Definition extractDomain (url : string) : option string := Platform.hostname P url.
Definition isValidUrl (s : string) : bool :=
  match Platform.hostname P s with Some _ => true | None => false end.

(** [generateJobId] *)
Definition generateJobId : M string :=
  fun w =>
    ({| now := now w; CACHE := CACHE w; SCRAPE_QUEUE := SCRAPE_QUEUE w;
        stored := stored w; draws := S (draws w) |},
     Return ("job_" +:+ pretty (now w) +:+ "_" +:+ Platform.random_id P (draws w))).

(** [fetch(url, ...)] *)
Definition fetch (url : string) : M Response.t :=
  fun w =>
    match Platform.network P (now w) url with
    | Rejected m => (w, Throw (Error m))
    | Resolved r => (w, Return r)
    end.

(** [storeResult]: its body is one [try] whose [catch] returns a result
    object, so it never throws. *)
Definition storeResult (data : Stored) : M StorageReport.t :=
  fun w =>
    ({| now := now w; CACHE := CACHE w; SCRAPE_QUEUE := SCRAPE_QUEUE w;
        stored := stored w ++ [data]; draws := draws w |},
     Return (Platform.storage_report P data)).

(** [env.SCRAPE_QUEUE.send] *)
Definition queue_send (job : Job.t) : M unit :=
  fun w =>
    match Platform.queue_error P job with
    | Some m => (w, Throw (Error m))
    | None =>
        ({| now := now w; CACHE := CACHE w; SCRAPE_QUEUE := SCRAPE_QUEUE w ++ [job];
            stored := stored w; draws := draws w |}, Return tt)
    end.

(** [retry] of [helpers.js], called with [maxRetries] only:
    [initialDelay = 1000], [maxDelay = 10000], [backoffFactor = 2].
    [attempts] is [maxRetries - i]. *)
Fixpoint retry_loop {A} (fn : M A) (attempts : nat) (delay : Z) (lastError : Thrown) : M A :=
  match attempts with
  | O => throw lastError
  | S attempts' =>
      try_catch fn (fun error =>
        message_of error (fun _ =>
          match attempts' with
          | O => retry_loop fn attempts' delay error
          | S _ =>
              let* _ := sleep delay in
              retry_loop fn attempts' (Z.min (delay * 2) 10000) error
          end))
  end.

Definition retry {A} (fn : M A) (maxRetries : nat) : M A :=
  retry_loop fn maxRetries 1000 Undefined.
End Helpers.

(* ================================================================== *)
(** * The crawler *)
(* ================================================================== *)

Module Crawler.
Import Re.

(** [/<title[^>]*>([^<]+)<\/title>/i] *)
Definition title_re : regex :=
  cat [lit "<title"; Star true (none_of ">"); Chr ">"; Group (plus (none_of "<"));
       lit "</title>"].

(** The pattern that removes [script] elements, and the same with
    [style]: [<script], a word boundary, [[^<]*], then any number of
    groups made of a [<] that does not start [</script>] followed by
    [[^<]*], then [</script>]; flags [gi]. *)
Definition element_re (tag : string) : regex :=
  cat [lit ("<" +:+ tag); WordB; Star true (none_of "<");
       Star true (cat [NotAhead (lit ("</" +:+ tag +:+ ">")); Chr "<"; Star true (none_of "<")]);
       lit ("</" +:+ tag +:+ ">")].

(** [/<a[^>]+href=[Q']([^Q']+)[Q']/gi], where [Q] stands for the double
    quote. *)
Definition anchor_re : regex :=
  cat [lit "<a"; plus (none_of ">"); lit "href="; Rss.quote;
       Group (plus Rss.not_quote); Rss.quote].

(** The value of every [href] the anchor pattern finds, in the order of
    the matches. *)
Definition hrefs (html : string) : list string :=
  Rss.capture <$> matchAll true anchor_re html.

(** What [parseHTML] returns. *)
Module Parsed.
Record t : Type := { title : string; content : string; links : list string }.
End Parsed.

(** What [scrapeSingleUrl] and [crawlRecursive] return. *)
Module ScrapeResult.
Record t : Type := { success : bool; cached : bool; data : Doc.t }.
End ScrapeResult.

Module CrawlResult.
Record t : Type := { success : bool; data : CrawlData.t }.
End CrawlResult.

(** A scraping strategy of [scrapeSingleUrl]. *)
Module Strategy.
Record t : Type := { name : string; fn : string -> M Page.t }.
End Strategy.

(** The state of the loop of [crawlRecursive].  [visited] is the [Set],
    in insertion order.  The last two fields are not in the source: they
    record, for the statements below, the (url, depth) pairs handed to
    [scrapeSingleUrl] and those whose document was pushed to [results]. *)
Module Traversal.
Record t : Type := {
  visited : list string;
  results : list Doc.t;
  queue : list (string * Z);
  scraped : list (string * Z);
  origins : list (string * Z)
}.
End Traversal.

(** The object [handleCrawl] returns. *)
Inductive Crawled : Type :=
| Single (r : ScrapeResult.t) (storage : option StorageReport.t)
| Recursive (r : CrawlResult.t) (storage : option StorageReport.t).

Module Reply.
Record t : Type := {
  success : bool;
  job_id : option string;
  mode : option string;
  source : option string;
  result : option Crawled;
  error : option string
}.
End Reply.

(** The request parameters; [mode], [depth] and [source] may be absent. *)
Module Params.
Record t : Type := {
  url : string;
  mode : option string;
  depth : option Z;
  source : option string
}.
End Params.

Section WithPlatform.
Variable P : Platform.t.

Definition parseHTML (html : string) : Parsed.t :=
  let title :=
    match str_match true title_re html with
    | Some m => Js.trim (Rss.capture m)
    | None => "Untitled"
    end in
  let cleanHtml :=
    replaceAll true (element_re "style") ""
      (replaceAll true (element_re "script") "" html) in
  let content :=
    Js.trim (replaceAll false Rss.spaces_re " " (replaceAll false Rss.tag_re " " cleanHtml)) in
  let links := firstn 50 (List.filter (isValidUrl P) (hrefs html)) in
  {| Parsed.title := title;
     Parsed.content := Js.take (Z.to_nat 50000) content;
     Parsed.links := links |}.

(** [24 * 60 * 60 * 1000] *)
Definition maxAge : Z := 24 * 60 * 60 * 1000.

Definition checkCache (url : string) : M (option Doc.t) :=
  fun w =>
    match CACHE w with
    | None => (w, Return None)
    | Some cache =>
        let key := "scrape:" +:+ url in
        match Kv.get cache key (now w) with
        | Some cached =>
            let age := now w - Doc.scraped_at cached in
            if age <? maxAge then (w, Return (Some cached)) else (w, Return None)
        | None => (w, Return None)
        end
    end.

Definition cacheResult (url : string) (data : Doc.t) : M unit :=
  fun w =>
    match CACHE w with
    | None => (w, Return tt)
    | Some cache =>
        let key := "scrape:" +:+ url in
        (set_CACHE (Some (Kv.put cache key data (24 * 60 * 60) (now w))) w, Return tt)
    end.

(** The callback [scrapeWithFetch] hands to [retry].  Its test reads
    [response], the [const] that the enclosing [await retry(...)] has
    yet to initialise, not [res]: the read throws a [ReferenceError]
    whenever [fetch] has resolved. *)
Definition fetch_attempt (url : string) : M Response.t :=
  let* res := fetch P url in
  let* response := uninitialized "response" in
  if negb (Response.ok response)
  then throw (Error ("HTTP " +:+ pretty (Response.status response) +:+ ": "
                      +:+ Response.statusText response))
  else ret res.

Definition scrapeWithFetch (url : string) : M Page.t :=
  let* response :=
    retry (fetch_attempt url) (Config.max_retries (Config.scraper (Platform.CONFIG P))) in
  let html := Response.body response in
  let contentType := default "" (Response.content_type response) in
  if negb (Js.includes contentType "text/html")
  then throw (Error ("Unexpected content type: " +:+ contentType))
  else
    let parsed := parseHTML html in
    ret {| Page.title := Parsed.title parsed;
           Page.content := Parsed.content parsed;
           Page.links := Parsed.links parsed;
           Page.metadata := {| Metadata.contentType := contentType;
                               Metadata.contentLength := String.length html |} |}.

Definition scrapeWithBrowser (url : string) : M Page.t :=
  throw (Error "Browser rendering not configured").

Definition scrapeWithAPI (url : string) : M Page.t :=
  throw (Error "API scraping not configured").

Definition strategies : list Strategy.t :=
  [ {| Strategy.name := "fetch"; Strategy.fn := scrapeWithFetch |};
    {| Strategy.name := "puppeteer"; Strategy.fn := scrapeWithBrowser |};
    {| Strategy.name := "api"; Strategy.fn := scrapeWithAPI |} ].

(** [lastError?.message] inside the template literal *)
Definition last_message (lastError : option Thrown) : string :=
  match lastError with
  | Some (Error m) => m
  | _ => "undefined"
  end.

(** The loop of [scrapeSingleUrl] over the strategies that are left. *)
Fixpoint try_strategies (url : string) (todo : list Strategy.t)
    (lastError : option Thrown) : M ScrapeResult.t :=
  match todo with
  | [] =>
      throw (Error ("All scraping strategies failed. Last error: "
                      +:+ last_message lastError))
  | strategy :: todo' =>
      fun w =>
        match Strategy.fn strategy url w with
        | (w1, Return result) =>
            if Js.truthy (Page.content result) then
              let markdown := Platform.convertToMarkdown P result in
              let data :=
                {| Doc.url := url;
                   Doc.title := Page.title result;
                   Doc.content := Page.content result;
                   Doc.content_md := markdown;
                   Doc.links := Page.links result;
                   Doc.metadata := Page.metadata result;
                   Doc.scraped_at := now w1;
                   Doc.method := Strategy.name strategy |} in
              (let* _ := cacheResult url data in
               ret {| ScrapeResult.success := true; ScrapeResult.cached := false;
                      ScrapeResult.data := data |}) w1
            else try_strategies url todo' lastError w1
        | (w1, Throw error) =>
            message_of error (fun _ => try_strategies url todo' (Some error)) w1
        end
  end.

Definition scrapeSingleUrl_with (chain : list Strategy.t) (url : string) : M ScrapeResult.t :=
  let* cached := checkCache url in
  match cached with
  | Some doc =>
      ret {| ScrapeResult.success := true; ScrapeResult.cached := true;
             ScrapeResult.data := doc |}
  | None => try_strategies url chain None
  end.

Definition scrapeSingleUrl (url : string) : M ScrapeResult.t :=
  scrapeSingleUrl_with strategies url.

(** ** The loop of [crawlRecursive] *)

(** [queue.length > 0 && results.length < CONFIG.scraper.max_pages_per_domain] *)
Definition loop_cond (st : Traversal.t) : bool :=
  negb (length (Traversal.queue st) =? 0)%nat
  && (length (Traversal.results st)
        <? Config.max_pages_per_domain (Config.scraper (Platform.CONFIG P)))%nat.

(** The entries the inner [for] loop pushes for the links of a page. *)
Definition same_domain_links (domain : option string) (visited : list string)
    (depth : Z) (links : list string) : list (string * Z) :=
  (fun link => (link, depth + 1)) <$>
    List.filter (fun link =>
      bool_decide (extractDomain P link = domain) && negb (bool_decide (link ∈ visited)))
      links.

(** One iteration of the [while] loop.  Under the loop condition the
    queue is not empty; on an empty queue the destructuring of
    [queue.shift()] would throw a [TypeError]. *)
Definition crawl_step (domain : option string) (maxDepth : Z) (st : Traversal.t)
    : M Traversal.t :=
  match Traversal.queue st with
  | [] => throw (Error "Cannot destructure property 'url' of 'queue.shift(...)' as it is undefined.")
  | (url, depth) :: queue =>
      if bool_decide (url ∈ Traversal.visited st) || (maxDepth <? depth) then
        ret {| Traversal.visited := Traversal.visited st;
               Traversal.results := Traversal.results st;
               Traversal.queue := queue;
               Traversal.scraped := Traversal.scraped st;
               Traversal.origins := Traversal.origins st |}
      else
        let visited := Traversal.visited st ++ [url] in
        let scraped := Traversal.scraped st ++ [(url, depth)] in
        try_catch
          (let* result := scrapeSingleUrl url in
           let st' :=
             if ScrapeResult.success result then
               {| Traversal.visited := visited;
                  Traversal.results := Traversal.results st ++ [ScrapeResult.data result];
                  Traversal.queue :=
                    if depth <? maxDepth
                    then queue ++ same_domain_links domain visited depth
                                    (Doc.links (ScrapeResult.data result))
                    else queue;
                  Traversal.scraped := scraped;
                  Traversal.origins := Traversal.origins st ++ [(url, depth)] |}
             else
               {| Traversal.visited := visited;
                  Traversal.results := Traversal.results st;
                  Traversal.queue := queue;
                  Traversal.scraped := scraped;
                  Traversal.origins := Traversal.origins st |} in
           let* _ :=
             sleep (Config.delay_between_requests_ms (Config.scraper (Platform.CONFIG P))) in
           ret st')
          (fun error =>
             message_of error (fun _ =>
               ret {| Traversal.visited := visited;
                      Traversal.results := Traversal.results st;
                      Traversal.queue := queue;
                      Traversal.scraped := scraped;
                      Traversal.origins := Traversal.origins st |}))
  end.

(** ** One iteration of the loop, case by case *)

Definition skip_entry (st : Traversal.t) (queue : list (string * Z)) : Traversal.t :=
  {| Traversal.visited := Traversal.visited st;
     Traversal.results := Traversal.results st;
     Traversal.queue := queue;
     Traversal.scraped := Traversal.scraped st;
     Traversal.origins := Traversal.origins st |}.

Definition after_failure (st : Traversal.t) (url : string) (depth : Z)
    (queue : list (string * Z)) : Traversal.t :=
  {| Traversal.visited := Traversal.visited st ++ [url];
     Traversal.results := Traversal.results st;
     Traversal.queue := queue;
     Traversal.scraped := Traversal.scraped st ++ [(url, depth)];
     Traversal.origins := Traversal.origins st |}.

Definition after_success (domain : option string) (maxDepth : Z) (st : Traversal.t)
    (url : string) (depth : Z) (queue : list (string * Z)) (data : Doc.t) : Traversal.t :=
  {| Traversal.visited := Traversal.visited st ++ [url];
     Traversal.results := Traversal.results st ++ [data];
     Traversal.queue :=
       if depth <? maxDepth
       then queue ++ same_domain_links domain (Traversal.visited st ++ [url]) depth
                       (Doc.links data)
       else queue;
     Traversal.scraped := Traversal.scraped st ++ [(url, depth)];
     Traversal.origins := Traversal.origins st ++ [(url, depth)] |}.

(** What one iteration does to the world and to the state, when the
    queue starts with [(url, depth)]: the entry is skipped, or its scrape
    throws, or its scrape returns. *)
Inductive step_case (domain : option string) (maxDepth : Z) (st : Traversal.t) (w : World)
    (url : string) (depth : Z) (queue : list (string * Z))
    : World -> Traversal.t -> Prop :=
| step_skip :
    url ∈ Traversal.visited st \/ maxDepth < depth ->
    step_case domain maxDepth st w url depth queue w (skip_entry st queue)
| step_failure w' m :
    url ∉ Traversal.visited st -> depth <= maxDepth ->
    scrapeSingleUrl url w = (w', Throw (Error m)) ->
    step_case domain maxDepth st w url depth queue w' (after_failure st url depth queue)
| step_success w1 result :
    url ∉ Traversal.visited st -> depth <= maxDepth ->
    scrapeSingleUrl url w = (w1, Return result) ->
    step_case domain maxDepth st w url depth queue
      (set_now (now w1 + Z.max 0 (Config.delay_between_requests_ms
                                     (Config.scraper (Platform.CONFIG P)))) w1)
      (after_success domain maxDepth st url depth queue (ScrapeResult.data result)).

(** ** The invariant of the traversal *)

Record crawl_inv (startUrl : string) (maxDepth : Z) (st : Traversal.t) : Prop := {
  inv_visited : Traversal.visited st = (Traversal.scraped st).*1;
  inv_nodup : NoDup (Traversal.visited st);
  inv_cap :
    (length (Traversal.results st)
       <= Config.max_pages_per_domain (Config.scraper (Platform.CONFIG P)))%nat;
  inv_origins : sublist (Traversal.origins st) (Traversal.scraped st);
  inv_results :
    Forall2 (fun doc o =>
               exists w w1 r, scrapeSingleUrl o.1 w = (w1, Return r)
                              /\ ScrapeResult.data r = doc)
            (Traversal.results st) (Traversal.origins st);
  inv_scraped_depth : Forall (fun e => 0 <= e.2 <= maxDepth) (Traversal.scraped st);
  inv_queue_depth : Forall (fun e => 0 <= e.2 <= Z.max 0 maxDepth) (Traversal.queue st);
  inv_domain :
    Forall (fun e => extractDomain P e.1 = extractDomain P startUrl)
           (Traversal.queue st ++ Traversal.scraped st)
}.

(** The loop ends: an iteration either adds a page to [results], which
    the page cap bounds, or leaves [results] alone and shortens the
    queue. *)
Definition measure (st : Traversal.t) : nat * nat :=
  ((Config.max_pages_per_domain (Config.scraper (Platform.CONFIG P))
      - length (Traversal.results st))%nat,
   length (Traversal.queue st)).

Definition before (a b : Traversal.t * World) : Prop :=
  slexprod nat nat lt lt (measure (fst a)) (measure (fst b)).

Lemma before_wf : well_founded before.
Proof.
  unfold before.
  apply (wf_inverse_image _ _ _ (fun x : Traversal.t * World => measure (fst x))).
  apply wf_slexprod; apply lt_wf.
Qed.

Lemma crawl_step_before domain maxDepth st w st' w' :
  loop_cond st = true ->
  crawl_step domain maxDepth st w = (w', Return st') ->
  before (st', w') (st, w).
Proof.
  unfold loop_cond, before, measure, crawl_step; cbn [fst].
  intros Hc. apply andb_true_iff in Hc as [_ Hlt]. apply Nat.ltb_lt in Hlt.
  destruct (Traversal.queue st) as [|[url depth] queue] eqn:Hq; [discriminate|].
  destruct (bool_decide _ || _).
  - intros [= <- <-]; cbn. apply right_slex. lia.
  - unfold try_catch, bind, message_of, sleep, ret, throw.
    destruct (scrapeSingleUrl url w) as [w1 [result|[m|]]]; cbn.
    + intros [= <- <-]. destruct (ScrapeResult.success result); cbn.
      * apply left_slex. rewrite length_app; cbn. lia.
      * apply right_slex. lia.
    + intros [= <- <-]; cbn. apply right_slex. lia.
    + discriminate.
Qed.

(** A value together with the proof that it is the value of the term. *)
Definition inspect {A : Type} (a : A) : {b : A | a = b} := exist _ a eq_refl.

Definition crawl_loop_F (domain : option string) (maxDepth : Z) (x : Traversal.t * World)
    (continue : forall y, before y x -> World * Completion Traversal.t)
    : World * Completion Traversal.t :=
  match inspect (loop_cond (fst x)) with
  | exist _ false _ => (snd x, Return (fst x))
  | exist _ true Hc =>
      match inspect (crawl_step domain maxDepth (fst x) (snd x)) with
      | exist _ (w', Return st') Hs =>
          continue (st', w')
            (crawl_step_before domain maxDepth (fst x) (snd x) st' w' Hc Hs)
      | exist _ (w', Throw e) _ => (w', Throw e)
      end
  end.

(** The [while] loop, by recursion on [before]. *)
Definition crawl_loop (domain : option string) (maxDepth : Z) (st : Traversal.t) : M Traversal.t :=
  fun w =>
    Fix (Acc_intro_generator 64 before_wf) (fun _ => (World * Completion Traversal.t)%type)
        (crawl_loop_F domain maxDepth) (st, w).

(** The state before the first iteration. *)
Definition initial_state (startUrl : string) : Traversal.t :=
  {| Traversal.visited := []; Traversal.results := [];
     Traversal.queue := [(startUrl, 0)];
     Traversal.scraped := []; Traversal.origins := [] |}.

Definition crawlRecursive (startUrl : string) (maxDepth : Z) : M CrawlResult.t :=
  let domain := extractDomain P startUrl in
  let* st := crawl_loop domain maxDepth (initial_state startUrl) in
  ret {| CrawlResult.success := true;
         CrawlResult.data :=
           {| CrawlData.start_url := startUrl;
              CrawlData.pages_crawled := length (Traversal.results st);
              CrawlData.pages := Traversal.results st;
              CrawlData.max_depth := maxDepth |} |}.

(** [handleCrawl]; [ctx] is only passed on to storage. *)
Definition handleCrawl (params : Params.t) : M Reply.t :=
  let url := Params.url params in
  let mode := default "manual" (Params.mode params) in
  let depth := default 1 (Params.depth params) in
  let source := default "manual" (Params.source params) in
  if negb (Js.truthy url) || negb (isValidUrl P url) then
    ret {| Reply.success := false; Reply.job_id := None; Reply.mode := None;
           Reply.source := None; Reply.result := None;
           Reply.error := Some "Invalid URL provided" |}
  else
    let* jobId := generateJobId P in
    try_catch
      (if String.eqb mode "manual" then
         let* result := scrapeSingleUrl url in
         let* storage :=
           if ScrapeResult.success result
           then let* r := storeResult P (StoredDoc (ScrapeResult.data result)) in ret (Some r)
           else ret None in
         ret {| Reply.success := true; Reply.job_id := Some jobId; Reply.mode := Some mode;
                Reply.source := Some source; Reply.result := Some (Single result storage);
                Reply.error := None |}
       else if String.eqb mode "auto" then
         let* result := crawlRecursive url depth in
         let* storage :=
           if CrawlResult.success result
           then let* r := storeResult P (StoredCrawl (CrawlResult.data result)) in ret (Some r)
           else ret None in
         ret {| Reply.success := true; Reply.job_id := Some jobId; Reply.mode := Some mode;
                Reply.source := Some source; Reply.result := Some (Recursive result storage);
                Reply.error := None |}
       else
         ret {| Reply.success := false; Reply.job_id := None; Reply.mode := None;
                Reply.source := None; Reply.result := None;
                Reply.error := Some ("Unknown mode: " +:+ mode) |})
      (fun error =>
         message_of error (fun message =>
           ret {| Reply.success := false; Reply.job_id := Some jobId; Reply.mode := None;
                  Reply.source := None; Reply.result := None;
                  Reply.error := Some message |})).

End WithPlatform.

End Crawler.

(* ================================================================== *)
(** * The RSS handler: checking feeds *)
(* ================================================================== *)

Module RssHandler.

(** What [checkSingleFeed] returns. *)
Module FeedCheck.
Record t : Type := {
  feed_url : string;
  feed_title : string;
  total_items : nat;
  high_score_items : list Scored.t;
  threshold : Q;
  checked_at : Z
}.
End FeedCheck.

Section WithPlatform.
Variable P : Platform.t.

Definition checkSingleFeed (feedUrl : string) (threshold : Q) : M FeedCheck.t :=
  let* response := fetch P feedUrl in
  if negb (Response.ok response) then
    throw (Error ("Failed to fetch feed: HTTP " +:+ pretty (Response.status response)))
  else
    let xmlText := Response.body response in
    let feed := Rss.parseRSSFeed xmlText in
    let scoredItems := Rss.score_items (Platform.CONFIG P) (Feed.items feed) in
    let highScoreItems := Rss.high_scoring threshold scoredItems in
    let* checked := Date_now in
    ret {| FeedCheck.feed_url := feedUrl;
           FeedCheck.feed_title := Feed.title feed;
           FeedCheck.total_items := length (Feed.items feed);
           FeedCheck.high_score_items := highScoreItems;
           FeedCheck.threshold := threshold;
           FeedCheck.checked_at := checked |}.

(** The message built for one item. *)
Definition job_for (feed : Config.Feed) (item : Scored.t) : M Job.t :=
  let* id := generateJobId P in
  let* timestamp := Date_now in
  ret {| Job.id := id;
         Job.url := Item.link (Scored.item item);
         Job.mode := "manual";
         Job.source := "rss";
         Job.feed_name := Config.name feed;
         Job.score := Scored.score item;
         Job.title := Item.title (Scored.item item);
         Job.timestamp := timestamp |}.

(** The inner loop of [checkRSSFeeds] over the high-scoring items of one
    feed.  [results] is updated in place, so what was counted before a
    throw stays counted: the loop returns the summary together with the
    value thrown, if any. *)
Fixpoint dispatch_items (feed : Config.Feed) (items : list Scored.t) (results : Summary.t)
    (w : World) : World * (Summary.t * option Thrown) :=
  match items with
  | [] => (w, (results, None))
  | item :: items' =>
      match (let* job := job_for feed item in queue_send P job) w with
      | (w', Return _) =>
          dispatch_items feed items'
            {| Summary.feeds_checked := Summary.feeds_checked results;
               Summary.high_score_items := Summary.high_score_items results ++ [item];
               Summary.scrapes_triggered := S (Summary.scrapes_triggered results);
               Summary.errors := Summary.errors results |} w'
      | (w', Throw e) => (w', (results, Some e))
      end
  end.

(** The [catch] of the outer loop. *)
Definition record_error (feed : Config.Feed) (results : Summary.t) (error : Thrown)
    : M Summary.t :=
  message_of error (fun message =>
    ret {| Summary.feeds_checked := Summary.feeds_checked results;
           Summary.high_score_items := Summary.high_score_items results;
           Summary.scrapes_triggered := Summary.scrapes_triggered results;
           Summary.errors :=
             Summary.errors results
               ++ [{| FeedError.feed := Config.name feed; FeedError.error := message |}] |}).

(** One iteration of the outer loop: the [try] around one feed. *)
Definition check_feed (threshold : Q) (feed : Config.Feed) (results : Summary.t)
    : M Summary.t :=
  fun w =>
    match checkSingleFeed (Config.url feed) threshold w with
    | (w1, Return feedResult) =>
        let results1 :=
          {| Summary.feeds_checked := S (Summary.feeds_checked results);
             Summary.high_score_items := Summary.high_score_items results;
             Summary.scrapes_triggered := Summary.scrapes_triggered results;
             Summary.errors := Summary.errors results |} in
        match dispatch_items feed (FeedCheck.high_score_items feedResult) results1 w1 with
        | (w2, (results2, None)) => (w2, Return results2)
        | (w2, (results2, Some error)) => record_error feed results2 error w2
        end
    | (w1, Throw error) => record_error feed results error w1
    end.

Fixpoint check_feeds (threshold : Q) (feeds : list Config.Feed) (results : Summary.t)
    : M Summary.t :=
  match feeds with
  | [] => ret results
  | feed :: feeds' =>
      let* results' := check_feed threshold feed results in
      check_feeds threshold feeds' results'
  end.

(** [checkRSSFeeds], the scheduled check.  The threshold is
    [parseFloat(env.RSS_SCORE_THRESHOLD || '5.0')]. *)
Definition checkRSSFeeds : M Summary.t :=
  let feeds := List.filter Config.enabled (Config.rss_feeds (Platform.CONFIG P)) in
  let threshold := default 5%Q (Platform.RSS_SCORE_THRESHOLD P) in
  let* results :=
    check_feeds threshold feeds
      {| Summary.feeds_checked := 0; Summary.high_score_items := [];
         Summary.scrapes_triggered := 0; Summary.errors := [] |} in
  let* timestamp := Date_now in
  let* _ := storeResult P (StoredRssCheck timestamp results) in
  ret results.

End WithPlatform.

End RssHandler.

(* ================================================================== *)
(** * A concrete platform for the examples *)
(* ================================================================== *)

Module Demo.

Fixpoint host_chars (s : string) : string :=
  match s with
  | String c s' =>
      if existsb (Ascii.eqb c) (String.list_ascii_of_string "/?#:") then ""
      else String c (host_chars s')
  | EmptyString => ""
  end.

Fixpoint drop (n : nat) (s : string) : string :=
  match n, s with
  | S n', String _ s' => drop n' s'
  | _, _ => s
  end.

(** A reading of [new URL(s).hostname] that is enough for the URLs of the
    examples: [http://] or [https://], then a host that is not empty and
    ends before the first of [/ ? # :]. *)
Definition hostname (s : string) : option string :=
  let after :=
    if String.prefix "https://" s then Some (drop 8 s)
    else if String.prefix "http://" s then Some (drop 7 s)
    else None in
  match after with
  | Some r =>
      match host_chars r with
      | EmptyString => None
      | h => Some (Js.toLowerCase h)
      end
  | None => None
  end.

Definition config : Config.t :=
  {| Config.rss_feeds :=
       [{| Config.name := "Prophecy News"; Config.url := "https://feeds.example.org/rss";
           Config.enabled := true |}];
     Config.scoring :=
       {| Config.prophecy_keywords := ["biblical"; "prophecy"; "end times"];
          Config.high_priority_keywords := ["prophecy"; "end times"];
          Config.keyword_weights := {| Config.high := 2; Config.medium := 1 |} |};
     Config.scraper :=
       {| Config.max_retries := 3; Config.max_pages_per_domain := 10;
          Config.delay_between_requests_ms := 1000 |} |}.

Definition response (status : Z) (contentType body : string) : FetchOutcome :=
  Resolved {| Response.status := status; Response.statusText := "";
              Response.content_type := Some contentType; Response.body := body |}.

(** A platform whose network answers every request with [answer]. *)
Definition platform (answer : string -> FetchOutcome) (queue_error : Job.t -> option string)
    : Platform.t :=
  {| Platform.CONFIG := config;
     Platform.hostname := hostname;
     Platform.network := fun _ url => answer url;
     Platform.queue_error := queue_error;
     Platform.random_id := fun n => pretty n;
     Platform.storage_report := fun _ => {| StorageReport.success := true; StorageReport.error := None |};
     Platform.convertToMarkdown := fun page => Page.content page;
     Platform.RSS_SCORE_THRESHOLD := None |}.

(** Every request answered with HTTP 500. *)
Definition failing : Platform.t :=
  platform (fun _ => response 500 "text/html" "Internal Server Error") (fun _ => None).

Definition world (cache : option (gmap string Kv.entry)) : World :=
  {| now := 1700000000000; CACHE := cache; SCRAPE_QUEUE := []; stored := []; draws := 0 |}.

Definition doc (url : string) (links : list string) (scraped_at : Z) : Doc.t :=
  {| Doc.url := url; Doc.title := "Page"; Doc.content := "text"; Doc.content_md := "text";
     Doc.links := links;
     Doc.metadata := {| Metadata.contentType := "text/html"; Metadata.contentLength := 4 |};
     Doc.scraped_at := scraped_at; Doc.method := "fetch" |}.

Definition cached (d : Doc.t) : string * Kv.entry :=
  ("scrape:" +:+ Doc.url d,
   {| Kv.value := d; Kv.expiration := Doc.scraped_at d + 86400000 |}).

(** A start page that links to three pages of its own host and to two
    pages of other hosts, all six in the cache and fresh. *)
Definition site_links : list string :=
  ["https://example.com/a"; "https://other.org/x"; "https://example.com/b";
   "https://elsewhere.net/y"; "https://example.com/c"].

Definition site_cache : gmap string Kv.entry :=
  list_to_map
    (cached (doc "https://example.com/" site_links 1699999000000)
     :: ((fun u => cached (doc u [] 1699999000000)) <$> site_links)).

End Demo.

(* ================================================================== *)
(** * The scenarios *)
(* ================================================================== *)

Module Scenario.

(** The entry of the scoring scenario. *)
Definition entry (link description pubDate content : string) : Item.t :=
  {| Item.title := "Biblical prophecy about end times reveals...";
     Item.link := link; Item.description := description;
     Item.pubDate := pubDate; Item.content := content |}.

(** A feed of three entries, scoring 5, 4 and 7 with [Demo.config]. *)
Definition feed_xml : string :=
  "<rss version='2.0'><channel><title>Prophecy News</title>"
  +:+ "<item><title>Prophecy prophecy</title><link>https://news.example.org/1</link></item>"
  +:+ "<item><title>Biblical prophecy</title><link>https://news.example.org/2</link></item>"
  +:+ "<item><title>Biblical prophecy about end times reveals...</title>"
  +:+ "<link>https://news.example.org/3</link><description>A report.</description></item>"
  +:+ "</channel></rss>".

(** The network serves the feed; the queue refuses the job of the entry
    titled "Prophecy prophecy" and accepts every other job. *)
Definition feeds : Platform.t :=
  Demo.platform (fun _ => Demo.response 200 "application/rss+xml" feed_xml)
    (fun job => if String.eqb (Job.title job) "Prophecy prophecy"
                then Some "Queue unavailable" else None).

(** A start page whose only link goes to the [www] host of the same
    site; both pages are in the cache and fresh. *)
Definition www_cache : gmap string Kv.entry :=
  list_to_map
    [Demo.cached (Demo.doc "https://example.com/" ["https://www.example.com/about"]
                    1699999000000);
     Demo.cached (Demo.doc "https://www.example.com/about" [] 1699999000000)].

(** Two pages that link to each other and to themselves, both in the
    cache and fresh. *)
Definition cyclic_cache : gmap string Kv.entry :=
  list_to_map
    [Demo.cached (Demo.doc "https://example.com/a"
                    ["https://example.com/b"; "https://example.com/a"] 1699999000000);
     Demo.cached (Demo.doc "https://example.com/b"
                    ["https://example.com/a"; "https://example.com/b"] 1699999000000)].

(** A strategy that succeeds, to run the chain of [scrapeSingleUrl] to
    its successful end. *)
Definition working : Crawler.Strategy.t :=
  {| Crawler.Strategy.name := "fetch";
     Crawler.Strategy.fn := fun _ =>
       ret {| Page.title := "Fresh"; Page.content := "fresh text"; Page.links := [];
              Page.metadata := {| Metadata.contentType := "text/html";
                                  Metadata.contentLength := 10 |} |} |}.

(** [s.endsWith(suffix)] *)
Definition endsWith (s suffix : string) : bool :=
  String.prefix (Js.rev_string "" suffix) (Js.rev_string "" s).

(** The scope test in the words of the specification: the host of the
    link and the host of the start URL match by suffix. *)
Definition host_suffix_match (link start : option string) : bool :=
  match link, start with
  | Some l, Some s => endsWith l s || endsWith s l
  | _, _ => false
  end.

(** The enqueue rule in the words of the specification: a link of a
    fetched page is enqueued exactly when the depth of the page is below
    [maxDepth] and the hosts match by suffix. *)
Definition enqueued_by_specification (P : Platform.t) (startUrl : string) (maxDepth depth : Z)
    (link : string) : bool :=
  (depth <? maxDepth)
  && host_suffix_match (extractDomain P link) (extractDomain P startUrl).

End Scenario.

(* ================================================================== *)
(** * Further parts of the worker *)
(* ================================================================== *)

(** What a scrape that finds no page may change in the world: the clock,
    forward by [elapsed] milliseconds. *)
Definition only_clock (elapsed : Z) (w w' : World) : Prop :=
  now w' = now w + elapsed
  /\ CACHE w' = CACHE w
  /\ SCRAPE_QUEUE w' = SCRAPE_QUEUE w
  /\ stored w' = stored w
  /\ draws w' = draws w.

(** The time [retry] sleeps before it gives up when it sleeps [sleeps]
    times, the first time for [delay] milliseconds. *)
Fixpoint backoff (sleeps : nat) (delay : Z) : Z :=
  match sleeps with
  | O => 0
  | S sleeps' => Z.max 0 delay + backoff sleeps' (Z.min (delay * 2) 10000)
  end.

Section Costs.
Variable P : Platform.t.

(** The time a scrape that finds no page has slept: the waits of [retry]
    in [scrapeWithFetch]. *)
Definition failure_cost : Z :=
  backoff (Config.max_retries (Config.scraper (Platform.CONFIG P)) - 1) 1000.

(** The time a crawl has slept in a state of its loop: the delay after
    each page, the waits of [retry] for each scrape that failed. *)
Definition crawl_cost (st : Crawler.Traversal.t) : Z :=
  Z.max 0 (Config.delay_between_requests_ms (Config.scraper (Platform.CONFIG P)))
    * Z.of_nat (length (Crawler.Traversal.results st))
  + failure_cost
    * (Z.of_nat (length (Crawler.Traversal.scraped st))
       - Z.of_nat (length (Crawler.Traversal.origins st))).

End Costs.

(** [handleRSS] of [rss_handler.js], the check of one feed on request. *)
Module RssRequest.

(** The request parameters; [threshold] may be absent. *)
Module Params.
Record t : Type := { feed_url : string; threshold : option Q }.
End Params.

(** The object [handleRSS] returns. *)
Module Reply.
Record t : Type := {
  success : bool;
  result : option RssHandler.FeedCheck.t;
  error : option string
}.
End Reply.

Section WithPlatform.
Variable P : Platform.t.

(** [threshold || parseFloat(env.RSS_SCORE_THRESHOLD || '5.0')]: a
    threshold of 0 is falsy, like an absent one. *)
Definition scoreThreshold (threshold : option Q) : Q :=
  match threshold with
  | Some t => if Qeq_bool t 0 then default 5%Q (Platform.RSS_SCORE_THRESHOLD P) else t
  | None => default 5%Q (Platform.RSS_SCORE_THRESHOLD P)
  end.

Definition handleRSS (params : Params.t) : M Reply.t :=
  let feed_url := Params.feed_url params in
  if negb (Js.truthy feed_url) || negb (isValidUrl P feed_url) then
    ret {| Reply.success := false; Reply.result := None;
           Reply.error := Some "Invalid feed URL provided" |}
  else
    try_catch
      (let* result :=
         RssHandler.checkSingleFeed P feed_url (scoreThreshold (Params.threshold params)) in
       ret {| Reply.success := true; Reply.result := Some result; Reply.error := None |})
      (fun error =>
         message_of error (fun message =>
           ret {| Reply.success := false; Reply.result := None;
                  Reply.error := Some message |})).

End WithPlatform.

End RssRequest.

(** The message [checkRSSFeeds] builds for an entry of a feed, field by
    field. *)
Definition job_of (feed : Config.Feed) (job : Job.t) (item : Scored.t) : Prop :=
  Job.url job = Item.link (Scored.item item)
  /\ Job.title job = Item.title (Scored.item item)
  /\ Job.score job = Scored.score item
  /\ Job.mode job = "manual"
  /\ Job.source job = "rss"
  /\ Job.feed_name job = Config.name feed.

(** The [queue] handler of the worker's entry point ([src/index.js]).
    The messages of a batch are the jobs [checkRSSFeeds] has sent, the
    only sender in the sources; such a job has no [depth], so
    [job.depth || 2] is 2. *)
Module Worker.

(** What the handler does with a message: [message.ack()] or
    [message.retry()]. *)
Inductive Disposition : Type :=
| Ack
| Retry.

Section WithPlatform.
Variable P : Platform.t.

(** The parameters of the call of [handleCrawl] for one job. *)
Definition job_params (job : Job.t) : Crawler.Params.t :=
  {| Crawler.Params.url := Job.url job;
     Crawler.Params.mode := Some (if Js.truthy (Job.mode job) then Job.mode job else "auto");
     Crawler.Params.depth := Some 2;
     Crawler.Params.source :=
       Some (if Js.truthy (Job.source job) then Job.source job else "queue") |}.

(** The body of the loop over the messages. *)
Definition process (job : Job.t) : M Disposition :=
  try_catch
    (let* result := Crawler.handleCrawl P (job_params job) in
     if Crawler.Reply.success result then ret Ack else ret Retry)
    (fun _ => ret Retry).

Fixpoint queue (messages : list Job.t) : M (list Disposition) :=
  match messages with
  | [] => ret []
  | message :: messages' =>
      let* d := process message in
      let* ds := queue messages' in
      ret (d :: ds)
  end.

End WithPlatform.

End Worker.

(** The class [RateLimiter] of [src/utils/rate_limiter.js].  The KV
    namespace it is built with holds, under [rate_limit:<client>], the
    JSON text of a counter; [None] stands for a namespace that is not
    bound ([this.kv] is [undefined]). *)
Module RateLimiter.

Record Counter : Type := { count : Z; reset_at : Z }.

(** An entry of the namespace: the counter and the instant after which
    the namespace no longer returns it. *)
Record entry : Type := { value : Counter; expiration : Z }.

Record Verdict : Type := { allowed : bool; remaining : Z; reset_in : Z }.

(** The operations on the namespace; either may be refused by the
    platform, and then throws. *)
Inductive Op : Type :=
| Get (key : string)
| Put (key : string) (expirationTtl : Z).

(** [kv.get(key, {type: 'json'})] and [kv.put(key, text, {expirationTtl})],
    with the time to live in seconds. *)
Definition get (kv : gmap string entry) (key : string) (now : Z) : option Counter :=
  match kv !! key with
  | Some e => if now <? expiration e then Some (value e) else None
  | None => None
  end.

Definition put (kv : gmap string entry) (key : string) (data : Counter)
    (expirationTtl : Z) (now : Z) : gmap string entry :=
  <[key := {| value := data; expiration := now + expirationTtl * 1000 |}]> kv.

(** [Math.ceil(ms / 1000)] *)
Definition ceil_seconds (ms : Z) : Z := - ((- ms) / 1000).

Section WithNamespace.
Variable refused : Op -> bool.

(** The answer of the [catch]: the limiter fails open. *)
Definition fail_open (limit window : Z) : Verdict :=
  {| allowed := true; remaining := limit; reset_in := window |}.

(** The first request of a window, and the request after a window has
    expired. *)
Definition start_window (kv : gmap string entry) (key : string) (now limit window : Z)
    : option (gmap string entry) * Verdict :=
  if refused (Put key window) then (Some kv, fail_open limit window)
  else
    (Some (put kv key {| count := 1; reset_at := now + window * 1000 |} window now),
     {| allowed := true; remaining := limit - 1; reset_in := window |}).

(** [checkLimit(clientId, {limit, window})] at the instant [now]; it
    returns the namespace as it leaves it, and its verdict. *)
Definition checkLimit (store : option (gmap string entry)) (now : Z) (clientId : string)
    (limit window : Z) : option (gmap string entry) * Verdict :=
  let key := "rate_limit:" +:+ clientId in
  match store with
  | None => (store, fail_open limit window)
  | Some kv =>
      if refused (Get key) then (store, fail_open limit window)
      else
        match get kv key now with
        | None => start_window kv key now limit window
        | Some data =>
            if reset_at data <=? now then start_window kv key now limit window
            else if limit <=? count data then
              (store, {| allowed := false; remaining := 0;
                         reset_in := ceil_seconds (reset_at data - now) |})
            else
              let data' := {| count := count data + 1; reset_at := reset_at data |} in
              if refused (Put key (ceil_seconds (reset_at data - now)))
              then (store, fail_open limit window)
              else
                (Some (put kv key data' (ceil_seconds (reset_at data - now)) now),
                 {| allowed := true; remaining := limit - count data';
                    reset_in := ceil_seconds (reset_at data - now) |})
        end
  end.

(** The verdicts for the requests of one client at the instants [times],
    one after the other. *)
Fixpoint serve (store : option (gmap string entry)) (clientId : string) (limit window : Z)
    (times : list Z) : list Verdict :=
  match times with
  | [] => []
  | now :: times' =>
      let '(store', verdict) := checkLimit store now clientId limit window in
      verdict :: serve store' clientId limit window times'
  end.

End WithNamespace.

End RateLimiter.

(** The pure helpers of [src/utils/helpers.js]. *)
Module Util.
Import Re.

(** [truncate(text, maxLength)]; [substring] reads a negative end as 0. *)
Definition truncate (text : string) (maxLength : Z) : string :=
  if Z.of_nat (String.length text) <=? maxLength then text
  else Js.take (Z.to_nat (maxLength - 3)) text +:+ "...".

(** [s.split(re)] for a pattern that matches no empty text: the texts
    between the matches, and the text after the last one. *)
Definition split (icase : bool) (r : regex) (s : string) : list string :=
  let '(ms, tl) := scan (S (String.length s)) icase r None s in
  (skipped <$> ms) ++ [tl].

(** [new Set(text.toLowerCase().split(/\s+/))] *)
Definition words (text : string) : gset string :=
  list_to_set (split false Rss.spaces_re (Js.toLowerCase text)).

(** [calculateSimilarity]: the intersection keeps the members of [set1]
    that [set2] has. *)
Definition calculateSimilarity (text1 text2 : string) : Q :=
  let set1 := words text1 in
  let set2 := words text2 in
  let intersection := filter (fun x => x ∈ set2) set1 in
  let union := set1 ∪ set2 in
  (inject_Z (Z.of_nat (size intersection)) / inject_Z (Z.of_nat (size union)))%Q.

(** The code units of the class [[a-z0-9-_]]. *)
Definition filename_units : string := "abcdefghijklmnopqrstuvwxyz0123456789-_".

(** [/[^a-z0-9-_]/gi]: under the [i] flag a code unit is in the negated
    class when no member of the class has its canonical form. *)
Definition unsafe_unit (a : ascii) : bool :=
  negb (existsb (fun member => same_char true member a)
          (String.list_ascii_of_string filename_units)).

Definition unsafe_re : regex := Cls unsafe_unit.

(** [/_+/g] *)
Definition underscores_re : regex := plus (Chr "_").

(** [sanitizeFilename] *)
Definition sanitizeFilename (name : string) : string :=
  Js.toLowerCase
    (replaceAll false underscores_re "_"
       (replaceAll true unsafe_re "_" name)).

(** [extractText] *)
Definition extractText (html : string) : string :=
  Js.trim
    (replaceAll false Rss.spaces_re " "
       (replaceAll false Rss.tag_re " "
          (replaceAll true (Crawler.element_re "style") ""
             (replaceAll true (Crawler.element_re "script") "" html)))).

End Util.

(** [generateSummary] of [src/modules/markdown_converter.js]. *)
Module Markdown.

(** [s.lastIndexOf(c)] for a single code unit [c]: the index of its last
    occurrence, [-1] when there is none. *)
Fixpoint lastIndexOf_from (i : Z) (found : Z) (c : ascii) (s : string) : Z :=
  match s with
  | EmptyString => found
  | String a s' => lastIndexOf_from (i + 1) (if Ascii.eqb a c then i else found) c s'
  end.

Definition lastIndexOf (s : string) (c : ascii) : Z := lastIndexOf_from 0 (-1) c s.

(** [Math.max(lastPeriod, lastExclamation, lastQuestion)] *)
Definition breakPoint (summary : string) : Z :=
  let lastPeriod := lastIndexOf summary "." in
  let lastExclamation := lastIndexOf summary "!" in
  let lastQuestion := lastIndexOf summary "?" in
  Z.max (Z.max lastPeriod lastExclamation) lastQuestion.

(** The literal [0.7] is the double [6305039478318694 / 2 ^ 53]. *)
Definition seven_tenths : Z := 6305039478318694.

(** The rounding of a product of doubles: of the numbers with at most 53
    significant bits the nearest one to [p], the even one on a tie. *)
Definition round53 (p : Z) : Z :=
  let shift := Z.log2 p - 52 in
  if shift <=? 0 then p
  else
    let q := Z.shiftr p shift in
    let rest := p - Z.shiftl q shift in
    let half := Z.shiftl 1 (shift - 1) in
    let up := (half <? rest) || ((half =? rest) && Z.odd q) in
    Z.shiftl (if up then q + 1 else q) shift.

(** [breakPoint > maxLength * 0.7], the three numbers counted in units
    of [2 ^ -53]: [maxLength] is an integer that a double holds exactly,
    the product is the rounded one, [breakPoint] is an integer. *)
Definition above_seven_tenths (breakPoint : Z) (maxLength : nat) : bool :=
  round53 (Z.of_nat maxLength * seven_tenths) <? breakPoint * 2 ^ 53.

Definition generateSummary (content : string) (maxLength : nat) : string :=
  if negb (Js.truthy content) || (String.length content <=? maxLength)%nat then content
  else
    let summary := Js.take maxLength content in
    let breakPoint := breakPoint summary in
    let summary :=
      if above_seven_tenths breakPoint maxLength
      then Js.take (Z.to_nat (breakPoint + 1)) content
      else Js.take maxLength content +:+ "..." in
    Js.trim summary.

End Markdown.

(** What the matcher computes on the patterns made of one class of code
    units: reference functions on strings. *)
Module Units.
Import Re.

(** The loop of [run] at a repetition, under a name. *)
Definition star_iter (icase greedy : bool) (r1 : regex) (k : Cont)
    : nat -> option ascii -> string -> option string -> option MatchEnd :=
  fix iter (fuel : nat) (prev : option ascii) (s : string) (cap : option string)
      {struct fuel} : option MatchEnd :=
    let more (_ : unit) :=
      match fuel with
      | O => None
      | S fuel' =>
          run icase r1 prev s cap (fun p' s' c' =>
            if (String.length s' <? String.length s)%nat
            then iter fuel' p' s' c' else None)
      end in
    if greedy then or_else (more tt) (fun _ => k prev s cap)
    else or_else (k prev s cap) more.

(** The continuation that accepts. *)
Definition accept : Cont := fun p' s' c' => Some (p', s', c').

(** [r] matches exactly one code unit, any that satisfies [p]. *)
Definition one_unit (icase : bool) (r : regex) (p : ascii -> bool) : Prop :=
  forall prev s cap k,
    run icase r prev s cap k =
    match s with
    | String a s' => if p a then k (Some a) s' cap else None
    | EmptyString => None
    end.

(** The text after the longest prefix of units that satisfy [p], and
    the last unit of that prefix. *)
Fixpoint drop_while (p : ascii -> bool) (s : string) : string :=
  match s with
  | String a s' => if p a then drop_while p s' else s
  | EmptyString => EmptyString
  end.

Fixpoint last_of_run (p : ascii -> bool) (prev : option ascii) (s : string) : option ascii :=
  match s with
  | String a s' => if p a then last_of_run p (Some a) s' else prev
  | EmptyString => prev
  end.

(** A greedy repetition of a class: the continuation is tried after the
    longest run first, then after each shorter one. *)
Fixpoint backtrack (p : ascii -> bool) (k : Cont) (prev : option ascii) (s : string)
    (cap : option string) : option MatchEnd :=
  match s with
  | String a s' =>
      if p a then or_else (backtrack p k (Some a) s' cap) (fun _ => k prev s cap)
      else k prev s cap
  | EmptyString => k prev s cap
  end.

(** The first unit that satisfies [p], with the text before and after it. *)
Fixpoint find (p : ascii -> bool) (s : string) : option (string * ascii * string) :=
  match s with
  | EmptyString => None
  | String a s' =>
      if p a then Some ("", a, s')
      else
        match find p s' with
        | Some (pre, b, rest) => Some (String a pre, b, rest)
        | None => None
        end
  end.

(** Each unit that satisfies [p] replaced by [by_]; each run of such
    units replaced by [by_] ([inrun] tells that the unit before was one). *)
Fixpoint replace_each (p : ascii -> bool) (by_ : string) (s : string) : string :=
  match s with
  | EmptyString => EmptyString
  | String a s' =>
      if p a then by_ +:+ replace_each p by_ s' else String a (replace_each p by_ s')
  end.

Fixpoint replace_runs (p : ascii -> bool) (by_ : string) (inrun : bool) (s : string) : string :=
  match s with
  | EmptyString => EmptyString
  | String a s' =>
      if p a then
        if inrun then replace_runs p by_ true s' else by_ +:+ replace_runs p by_ true s'
      else String a (replace_runs p by_ false s')
  end.

(** Every unit of [s] satisfies [q]; two units in a row satisfy [p]. *)
Fixpoint every (q : ascii -> bool) (s : string) : bool :=
  match s with
  | EmptyString => true
  | String a s' => q a && every q s'
  end.

Fixpoint adjacent (p : ascii -> bool) (s : string) : bool :=
  match s with
  | String a s' =>
      (p a && match s' with String b _ => p b | EmptyString => false end) || adjacent p s'
  | EmptyString => false
  end.

(** The units a sanitized name is made of. *)
Definition name_unit (c : ascii) : bool :=
  Js.in_range 97 122 c || Js.in_range 48 57 c || Ascii.eqb c "-" || Ascii.eqb c "_".

(** A lowered unit: [toLowerCase] leaves it as it is. *)
Definition lowered (c : ascii) : bool := Ascii.eqb (Js.lower_char c) c.

(** A code unit of ASCII. *)
Definition ascii_unit (c : ascii) : bool := Js.in_range 0 127 c.

End Units.

(** Where the pattern [/<[^>]+>/] matches: reference functions. *)
Module Tags.
Import Units.

(** A code unit other than [>]: the class [[^>]]. *)
Definition not_gt (a : ascii) : bool :=
  negb (existsb (Ascii.eqb a) (String.list_ascii_of_string ">")).

(** The text after the tag that starts at the head of [s], if one does:
    a [<], at least one unit other than [>], and the first [>]. *)
Definition tag_end (s : string) : option string :=
  match s with
  | String a (String b s2) =>
      if Ascii.eqb "<" a && not_gt b then
        match drop_while not_gt s2 with
        | String c s3 => Some s3
        | EmptyString => None
        end
      else None
  | _ => None
  end.

(** The first tag of [s]: the text before it and the text after it. *)
Fixpoint first_tag (s : string) : option (string * string) :=
  match tag_end s with
  | Some rest => Some ("", rest)
  | None =>
      match s with
      | EmptyString => None
      | String a s' =>
          match first_tag s' with
          | Some (pre, rest) => Some (String a pre, rest)
          | None => None
          end
      end
  end.

(** What may follow a [<] in a text without tags: a [>] at once, or no
    [>] at all. *)
Definition open_ok (s : string) : bool :=
  match s with
  | EmptyString => true
  | String b s2 => negb (not_gt b) || every not_gt s2
  end.

Fixpoint tagless (s : string) : bool :=
  match s with
  | EmptyString => true
  | String a s' => (negb (Ascii.eqb "<" a) || open_ok s') && tagless s'
  end.

(** Every [<] of [s] is followed by a [>] at once. *)
Fixpoint closed (s : string) : bool :=
  match s with
  | EmptyString => true
  | String a s' =>
      (negb (Ascii.eqb "<" a)
       || match s' with String b _ => negb (not_gt b) | EmptyString => false end)
      && closed s'
  end.

End Tags.

(** [extractKeyPoints] of [src/modules/markdown_converter.js]. *)
Module KeyPoints.
Import Re.

(** [/[^.!?]+[.!?]+/g] *)
Definition sentence_re : regex := Seq (plus (none_of ".!?")) (plus (one_of ".!?")).

(** [/\d+/] *)
Definition digits_re : regex := plus (Cls (Js.in_range 48 57)).

Record Scored : Type := { sentence : string; score : nat }.

(** [sentences.indexOf(sentence)]; [None] stands for -1. *)
Fixpoint indexOf (sentence : string) (sentences : list string) : option nat :=
  match sentences with
  | [] => None
  | s :: sentences' =>
      if String.eqb s sentence then Some O else S <$> indexOf sentence sentences'
  end.

(** The callback of [sentences.map]. *)
Definition score_sentence (sentences : list string) (sentence : string) : Scored :=
  let score := O in
  let score :=
    if (50 <? String.length sentence)%nat && (String.length sentence <? 200)%nat
    then S score else score in
  let score :=
    if bool_decide (is_Some (str_match false digits_re sentence)) then S score else score in
  let score :=
    match indexOf sentence sentences with
    | Some index => if (index <? 3)%nat then S score else score
    | None => S score
    end in
  {| sentence := Js.trim sentence; score := score |}.

(** [sort((a, b) => b.score - a.score)]: the sort is stable, the higher
    score first. *)
Fixpoint insert (x : Scored) (sorted : list Scored) : list Scored :=
  match sorted with
  | [] => [x]
  | y :: sorted' => if (score x <? score y)%nat then y :: insert x sorted' else x :: sorted
  end.

Definition sort (l : list Scored) : list Scored := foldr insert [] l.

Definition extractKeyPoints (content : string) (maxPoints : nat) : list string :=
  let sentences := text <$> matchAll false sentence_re content in
  let scored := score_sentence sentences <$> sentences in
  sentence <$> firstn maxPoints (sort scored).

End KeyPoints.

(** [handleSummary] of [src/modules/summarizer.js]. *)
Module Summarizer.

(** The part [ai_summarization] of [config.json]. *)
Record AiConfig : Type := {
  enabled : bool;
  max_summary_length : nat;
  include_key_points : bool
}.

(** The summary object; the AI services give no [key_points], the
    extractive summary of [handleSummary] no [method], and only the AI
    services a [model]. *)
Module Digest.
Record t : Type := {
  summary : string;
  key_points : option (list string);
  method : option string;
  model : option string
}.
End Digest.

Module Meta.
Record t : Type := { url : option string; title : option string; source : string }.
End Meta.

(** The request parameters; an absent [url] or [text] is the empty
    string, which is as falsy. *)
Module Params.
Record t : Type := { url : string; text : string; mode : option string }.
End Params.

Module Reply.
Record t : Type := {
  success : bool;
  summary : option Digest.t;
  metadata : option Meta.t;
  generated_at : option Z;
  error : option string
}.
End Reply.

Section WithPlatform.
Variable P : Platform.t.
Variable ai_summarization : AiConfig.

(** The AI service the environment configures ([env.AI], or else
    [env.OPENAI_API_KEY]), if any: its calls leave the sources. *)
Variable service : option (string -> M Digest.t).

Definition generateAISummary (content : string) : M Digest.t :=
  match service with
  | Some generate => generate content
  | None =>
      ret {| Digest.summary := Markdown.generateSummary content 500;
             Digest.key_points := Some (KeyPoints.extractKeyPoints content 5);
             Digest.method := Some "extractive";
             Digest.model := None |}
  end.

(** The summary of [handleSummary] when it does not ask the AI. *)
Definition extractive (content : string) : Digest.t :=
  {| Digest.summary := Markdown.generateSummary content (max_summary_length ai_summarization);
     Digest.key_points :=
       Some (if include_key_points ai_summarization
             then KeyPoints.extractKeyPoints content 5 else []);
     Digest.method := None;
     Digest.model := None |}.

Definition handleSummary (params : Params.t) : M Reply.t :=
  let url := Params.url params in
  let text := Params.text params in
  let mode := default "auto" (Params.mode params) in
  try_catch
    (let* source :=
       if Js.truthy url && isValidUrl P url then
         let* scrapeResult := Crawler.scrapeSingleUrl P url in
         if negb (Crawler.ScrapeResult.success scrapeResult)
         then throw (Error "Failed to scrape URL")
         else
           ret (Doc.content (Crawler.ScrapeResult.data scrapeResult),
                {| Meta.url := Some url;
                   Meta.title := Some (Doc.title (Crawler.ScrapeResult.data scrapeResult));
                   Meta.source := "url" |})
       else if Js.truthy text then
         ret (text, {| Meta.url := None; Meta.title := None; Meta.source := "text" |})
       else throw (Error "Either url or text must be provided") in
     let '(content, metadata) := source in
     let* summary :=
       if String.eqb mode "ai" && enabled ai_summarization then generateAISummary content
       else ret (extractive content) in
     let* generated_at := Date_now in
     ret {| Reply.success := true; Reply.summary := Some summary;
            Reply.metadata := Some metadata; Reply.generated_at := Some generated_at;
            Reply.error := None |})
    (fun error =>
       message_of error (fun message =>
         ret {| Reply.success := false; Reply.summary := None; Reply.metadata := None;
                Reply.generated_at := None; Reply.error := Some message |})).

End WithPlatform.

End Summarizer.

(** [escapeYaml] of [src/modules/markdown_converter.js], which prepares
    the title for the front matter, and the reading of the text between
    the quotes of a YAML scalar. *)
Module Yaml.
Import Re.

Definition backslash : ascii := "\"%char.
Definition quote : ascii := "034"%char.
Definition line_feed : ascii := "010"%char.

(** [escapeYaml]: the backslashes doubled, then a backslash before each
    quote, then a space for each line feed. *)
Definition escapeYaml (text : string) : string :=
  replaceAll false (Chr line_feed) " "
    (replaceAll false (Chr quote) (String backslash (String quote ""))
       (replaceAll false (Chr backslash) (String backslash (String backslash "")) text)).

(** What a reader of YAML finds between the quotes: a backslash with
    the backslash or the quote after it stands for the latter; [None]
    when a quote without a backslash ends the scalar before the end of
    the text, or a backslash is followed by something else. *)
Fixpoint read_quoted (s : string) : option string :=
  match s with
  | EmptyString => Some ""
  | String a s' =>
      if Ascii.eqb a backslash then
        match s' with
        | String b s'' =>
            if Ascii.eqb b backslash || Ascii.eqb b quote
            then String b <$> read_quoted s'' else None
        | EmptyString => None
        end
      else if Ascii.eqb a quote then None
      else String a <$> read_quoted s'
  end.

(** The text with a space for each line feed. *)
Definition on_one_line (text : string) : string :=
  Units.replace_each (Ascii.eqb line_feed) " " text.

End Yaml.

Module Sample.

(** The platform [Demo.failing] with [max_retries] set to 0. *)
Definition no_retries : Platform.t :=
  {| Platform.CONFIG :=
       {| Config.rss_feeds := Config.rss_feeds Demo.config;
          Config.scoring := Config.scoring Demo.config;
          Config.scraper :=
            {| Config.max_retries := 0; Config.max_pages_per_domain := 10;
               Config.delay_between_requests_ms := 1000 |} |};
     Platform.hostname := Platform.hostname Demo.failing;
     Platform.network := Platform.network Demo.failing;
     Platform.queue_error := Platform.queue_error Demo.failing;
     Platform.random_id := Platform.random_id Demo.failing;
     Platform.storage_report := Platform.storage_report Demo.failing;
     Platform.convertToMarkdown := Platform.convertToMarkdown Demo.failing;
     Platform.RSS_SCORE_THRESHOLD := Platform.RSS_SCORE_THRESHOLD Demo.failing |}.

(** The configuration [Demo.config] with its keywords in capitals. *)
Definition capitals : Config.t :=
  {| Config.rss_feeds := Config.rss_feeds Demo.config;
     Config.scoring :=
       {| Config.prophecy_keywords := ["BIBLICAL"; "Prophecy"; "End Times"];
          Config.high_priority_keywords := ["PROPHECY"; "END TIMES"];
          Config.keyword_weights := {| Config.high := 2; Config.medium := 1 |} |};
     Config.scraper := Config.scraper Demo.config |}.

Definition entry (title description : string) : Item.t :=
  {| Item.title := title; Item.link := "https://news.example.org/3";
     Item.description := description; Item.pubDate := ""; Item.content := "" |}.

Definition feed : Config.Feed :=
  {| Config.name := "Prophecy News"; Config.url := "https://feeds.example.org/rss";
     Config.enabled := true |}.

Definition scored : Scored.t :=
  {| Scored.item := entry "Biblical prophecy" "A report."; Scored.score := 4 |}.

(** The job [checkRSSFeeds] sends for [scored]. *)
Definition job : Job.t :=
  {| Job.id := "job_1700000000000_0"; Job.url := "https://news.example.org/3";
     Job.mode := "manual"; Job.source := "rss"; Job.feed_name := "Prophecy News";
     Job.score := 4; Job.title := "Biblical prophecy"; Job.timestamp := 1700000000000 |}.

(** A content of 100 code units whose only sentence ends at index 63. *)
Definition sentence_of_64 : string :=
  "aaaaaaaaaaaaaaaaaaaaaaaaaaaaaaaaaaaaaaaaaaaaaaaaaaaaaaaaaaaaaaa."
  +:+ "bbbbbbbbbbbbbbbbbbbbbbbbbbbbbbbbbbbb".

(** No AI summaries, summaries of 500 characters at most. *)
Definition ai_summarization : Summarizer.AiConfig :=
  {| Summarizer.enabled := false; Summarizer.max_summary_length := 500;
     Summarizer.include_key_points := true |}.

End Sample.

(* ================================================================== *)
(** * Properties of the string and list helpers *)
(* ================================================================== *)

Lemma take_length n s : (String.length (Js.take n s) <= n)%nat.
Proof.
  revert s; induction n as [|n IH]; intros [|c s]; cbn; try lia.
  specialize (IH s). lia.
Qed.

Lemma filter_sublist {A} (f : A -> bool) (l : list A) : sublist (List.filter f l) l.
Proof.
  induction l as [|x l IH]; cbn; [constructor|].
  destruct (f x); [by apply sublist_skip | by apply sublist_cons].
Qed.

Lemma filter_Forall {A} (f : A -> bool) (l : list A) :
  Forall (fun x => f x = true) (List.filter f l).
Proof.
  induction l as [|x l IH]; cbn; [constructor|].
  destruct (f x) eqn:E; [constructor|]; done.
Qed.

Lemma firstn_sublist {A} n (l : list A) : sublist (firstn n l) l.
Proof.
  revert l; induction n as [|n IH]; intros [|x l]; cbn; try constructor.
  - apply sublist_nil_l.
  - apply IH.
Qed.

(* ================================================================== *)
(** * Properties of the crawler *)
(* ================================================================== *)

Section CrawlerFacts.
Variable P : Platform.t.
Import Crawler.

Lemma crawl_loop_unfold domain maxDepth st w :
  crawl_loop P domain maxDepth st w =
  if loop_cond P st then
    match crawl_step P domain maxDepth st w with
    | (w', Return st') => crawl_loop P domain maxDepth st' w'
    | (w', Throw e) => (w', Throw e)
    end
  else (w, Return st).
Proof.
  unfold crawl_loop. rewrite Fix_eq.
  - unfold crawl_loop_F at 1; cbn [fst snd].
    destruct (inspect (loop_cond P st)) as [[|] Hc]; rewrite Hc; [|reflexivity].
    destruct (inspect (crawl_step P domain maxDepth st w)) as [[w' [st'|e]] Hs];
      rewrite Hs; reflexivity.
  - intros [st0 w0] f g Hfg. unfold crawl_loop_F; cbn [fst snd].
    destruct (inspect (loop_cond P st0)) as [[|] Hc]; [|reflexivity].
    destruct (inspect (crawl_step P domain maxDepth st0 w0)) as [[w' [st'|e]] Hs];
      [apply Hfg | reflexivity].
Qed.

(** The cache lookup never throws and leaves the world as it is. *)
Lemma checkCache_returns url w : exists o, checkCache url w = (w, Return o).
Proof.
  unfold checkCache. destruct (CACHE w) as [cache|]; [|by eexists].
  destruct (Kv.get _ _ _) as [cached|]; [|by eexists].
  destruct (_ <? _); by eexists.
Qed.

(** Whatever the strategies throw, [scrapeSingleUrl] throws an [Error]
    object, and what it returns has [success: true]. *)
Lemma try_strategies_throws url chain lastError w w' e :
  try_strategies P url chain lastError w = (w', Throw e) -> exists m, e = Error m.
Proof.
  revert lastError w. induction chain as [|s chain IH]; intros lastError w; cbn.
  - unfold throw. intros [= _ <-]. by eexists.
  - destruct (Strategy.fn s url w) as [w1 [result|error]].
    + destruct (Js.truthy _); [|by apply IH].
      unfold bind, cacheResult, ret. destruct (CACHE w1); discriminate.
    + destruct error as [m|]; cbn; [by apply IH|].
      unfold throw. intros [= _ <-]. by eexists.
Qed.

Lemma try_strategies_success url chain lastError w w' r :
  try_strategies P url chain lastError w = (w', Return r) -> ScrapeResult.success r = true.
Proof.
  revert lastError w. induction chain as [|s chain IH]; intros lastError w; cbn.
  - discriminate.
  - destruct (Strategy.fn s url w) as [w1 [result|error]].
    + destruct (Js.truthy _); [|by apply IH].
      unfold bind, cacheResult, ret. destruct (CACHE w1); by intros [= _ <-].
    + destruct error as [m|]; cbn; [by apply IH | discriminate].
Qed.

Lemma scrapeSingleUrl_with_throws chain url w w' e :
  scrapeSingleUrl_with P chain url w = (w', Throw e) -> exists m, e = Error m.
Proof.
  unfold scrapeSingleUrl_with, bind.
  destruct (checkCache_returns url w) as [o ->].
  destruct o; [discriminate | apply try_strategies_throws].
Qed.

Lemma scrapeSingleUrl_with_success chain url w w' r :
  scrapeSingleUrl_with P chain url w = (w', Return r) -> ScrapeResult.success r = true.
Proof.
  unfold scrapeSingleUrl_with, bind.
  destruct (checkCache_returns url w) as [o ->].
  destruct o; [by intros [= _ <-] | apply try_strategies_success].
Qed.

Lemma crawl_step_cases domain maxDepth st w url depth queue :
  Traversal.queue st = (url, depth) :: queue ->
  exists w' st',
    crawl_step P domain maxDepth st w = (w', Return st')
    /\ step_case P domain maxDepth st w url depth queue w' st'.
Proof.
  intros Hq. unfold crawl_step. rewrite Hq.
  destruct (bool_decide (url ∈ Traversal.visited st) || (maxDepth <? depth)) eqn:Hskip.
  - do 2 eexists; split; [reflexivity|]. apply step_skip.
    apply orb_true_iff in Hskip as [H|H]; [left; by apply bool_decide_eq_true in H|right; lia].
  - apply orb_false_iff in Hskip as [Hv Hd].
    apply bool_decide_eq_false in Hv. apply Z.ltb_ge in Hd.
    unfold try_catch, bind.
    destruct (scrapeSingleUrl P url w) as [w1 [result|e]] eqn:Hs.
    + rewrite (scrapeSingleUrl_with_success _ _ _ _ _ Hs). cbn.
      do 2 eexists; split; [reflexivity|]. by eapply step_success.
    + destruct (scrapeSingleUrl_with_throws _ _ _ _ _ Hs) as [m ->]. cbn.
      do 2 eexists; split; [reflexivity|]. by eapply step_failure.
Qed.

Lemma loop_cond_queue st :
  loop_cond P st = true ->
  exists url depth queue, Traversal.queue st = (url, depth) :: queue.
Proof.
  unfold loop_cond. destruct (Traversal.queue st) as [|[url depth] queue]; [discriminate|].
  intros _. by do 3 eexists.
Qed.

(** ** The rule of the loop: an invariant of the iterations holds when
    the loop ends, and the loop does end, with its condition false. *)
Lemma crawl_loop_rule (I : Traversal.t -> Prop) domain maxDepth :
  (forall st w url depth queue w' st',
      I st -> loop_cond P st = true ->
      Traversal.queue st = (url, depth) :: queue ->
      step_case P domain maxDepth st w url depth queue w' st' -> I st') ->
  forall st w, I st ->
  exists w' st',
    crawl_loop P domain maxDepth st w = (w', Return st')
    /\ I st' /\ loop_cond P st' = false.
Proof.
  intros Hstep st w. revert st.
  pattern w. revert w.
  cut (forall x : Traversal.t * World, I (fst x) ->
         exists w' st', crawl_loop P domain maxDepth (fst x) (snd x) = (w', Return st')
                        /\ I st' /\ loop_cond P st' = false).
  { intros H w st. apply (H (st, w)). }
  intros x. induction x as [[st w] IH] using (well_founded_ind (before_wf P)). cbn [fst snd].
  intros HI. rewrite crawl_loop_unfold.
  destruct (loop_cond P st) eqn:Hc; [|by do 2 eexists].
  destruct (loop_cond_queue _ Hc) as (url & depth & queue & Hq).
  destruct (crawl_step_cases domain maxDepth st w url depth queue Hq) as (w' & st' & Hs & Hcase).
  rewrite Hs.
  apply (IH (st', w')).
  - by eapply crawl_step_before.
  - by eapply Hstep.
Qed.

Lemma crawl_inv_initial startUrl maxDepth :
  crawl_inv P startUrl maxDepth (initial_state startUrl).
Proof.
  split; cbn.
  - done.
  - constructor.
  - lia.
  - constructor.
  - constructor.
  - constructor.
  - constructor; [cbn; lia | constructor].
  - constructor; [done | constructor].
Qed.

Lemma same_domain_links_spec domain visited depth links link d :
  (link, d) ∈ same_domain_links P domain visited depth links
  <-> link ∈ links /\ d = depth + 1 /\ extractDomain P link = domain /\ link ∉ visited.
Proof.
  unfold same_domain_links. rewrite list_elem_of_fmap. split.
  - intros (l & [= -> ->] & Hin). apply list_elem_of_In, filter_In in Hin as [Hin Hf].
    apply andb_true_iff in Hf as [Hd Hv].
    apply bool_decide_eq_true in Hd. apply negb_true_iff, bool_decide_eq_false in Hv.
    by rewrite list_elem_of_In.
  - intros (Hin & -> & Hd & Hv). exists link; split; [done|].
    apply list_elem_of_In, filter_In. split; [by apply list_elem_of_In|].
    apply andb_true_iff; split; [by apply bool_decide_eq_true|].
    by apply negb_true_iff, bool_decide_eq_false.
Qed.

Lemma crawl_inv_step startUrl maxDepth st w url depth queue w' st' :
  crawl_inv P startUrl maxDepth st -> loop_cond P st = true ->
  Traversal.queue st = (url, depth) :: queue ->
  step_case P (extractDomain P startUrl) maxDepth st w url depth queue w' st' ->
  crawl_inv P startUrl maxDepth st'.
Proof.
  intros [Hv Hnd Hcap Ho Hr Hsd Hqd Hdom] Hc Hq Hcase.
  unfold loop_cond in Hc. apply andb_true_iff in Hc as [_ Hlt]. apply Nat.ltb_lt in Hlt.
  rewrite Hq in Hqd, Hdom. apply Forall_cons in Hqd as [Hd0 Hqd].
  cbn in Hdom. apply Forall_cons in Hdom as [Hu Hdom]. apply Forall_app in Hdom as [Hdq Hds].
  cbn in Hd0, Hu.
  assert (Hnd' : url ∉ Traversal.visited st -> NoDup (Traversal.visited st ++ [url])).
  { intros Hn. apply NoDup_app. split; [done|]. split; [|apply NoDup_singleton].
    intros x Hx Hx'. apply list_elem_of_singleton in Hx' as ->. done. }
  destruct Hcase as [Hskip | w1 m Hn Hle Hs | w1 result Hn Hle Hs].
  - split; cbn; try done. apply Forall_app; done.
  - split; cbn; try done.
    + by rewrite fmap_app, Hv.
    + by apply Hnd'.
    + by apply sublist_inserts_r.
    + apply Forall_app; split; [done|]. constructor; [cbn; lia|constructor].
    + rewrite Forall_app, Forall_app. repeat split; try done. by constructor.
  - split; cbn.
    + by rewrite fmap_app, Hv.
    + by apply Hnd'.
    + rewrite length_app; cbn; lia.
    + by apply sublist_app.
    + apply Forall2_app; [done|]. constructor; [|constructor]. cbn. eauto.
    + apply Forall_app; split; [done|]. constructor; [cbn; lia|constructor].
    + destruct (depth <? maxDepth) eqn:Hd; [|done]. apply Z.ltb_lt in Hd.
      apply Forall_app; split; [done|].
      apply Forall_forall. intros [link d] Hin.
      apply same_domain_links_spec in Hin as (_ & -> & _ & _). cbn; lia.
    + rewrite !Forall_app. repeat split; try done; [|by constructor].
      destruct (depth <? maxDepth); [|done].
      apply Forall_app; split; [done|].
      apply Forall_forall. intros [link d] Hin.
      by apply same_domain_links_spec in Hin as (_ & _ & ? & _).
Qed.

Lemma crawl_loop_inv startUrl maxDepth w :
  exists w' st,
    crawl_loop P (extractDomain P startUrl) maxDepth (initial_state startUrl) w
      = (w', Return st)
    /\ crawl_inv P startUrl maxDepth st /\ loop_cond P st = false.
Proof.
  apply (crawl_loop_rule (crawl_inv P startUrl maxDepth)).
  - intros. by eapply crawl_inv_step.
  - apply crawl_inv_initial.
Qed.

Lemma crawlRecursive_unfold startUrl maxDepth w w' st :
  crawl_loop P (extractDomain P startUrl) maxDepth (initial_state startUrl) w
    = (w', Return st) ->
  crawlRecursive P startUrl maxDepth w =
    (w', Return {| CrawlResult.success := true;
                   CrawlResult.data :=
                     {| CrawlData.start_url := startUrl;
                        CrawlData.pages_crawled := length (Traversal.results st);
                        CrawlData.pages := Traversal.results st;
                        CrawlData.max_depth := maxDepth |} |}).
Proof. intros H. unfold crawlRecursive, bind. by rewrite H. Qed.

(** C2.  Whatever the start URL, the depth bound, the world and the
    answers of the network (so whatever the link graph, cyclic or not),
    [crawlRecursive] returns, and in the final state of its loop: no URL
    was handed to [scrapeSingleUrl] twice; the pages returned are the
    [results], at most [max_pages_per_domain] of them; every page came
    from a queue entry that was scraped at a depth of at most
    [maxDepth]; and the loop stopped with an empty queue or with the
    page cap reached. *)
Theorem crawl_visits_once_within_bounds startUrl maxDepth w :
  exists w' st,
    crawl_loop P (extractDomain P startUrl) maxDepth (initial_state startUrl) w
      = (w', Return st)
    /\ crawlRecursive P startUrl maxDepth w =
         (w', Return {| CrawlResult.success := true;
                        CrawlResult.data :=
                          {| CrawlData.start_url := startUrl;
                             CrawlData.pages_crawled := length (Traversal.results st);
                             CrawlData.pages := Traversal.results st;
                             CrawlData.max_depth := maxDepth |} |})
    /\ NoDup (Traversal.scraped st).*1
    /\ Traversal.visited st = (Traversal.scraped st).*1
    /\ (length (Traversal.results st)
          <= Config.max_pages_per_domain (Config.scraper (Platform.CONFIG P)))%nat
    /\ Forall2 (fun doc o =>
                  exists w0 w1 r, scrapeSingleUrl P o.1 w0 = (w1, Return r)
                                  /\ ScrapeResult.data r = doc)
               (Traversal.results st) (Traversal.origins st)
    /\ sublist (Traversal.origins st) (Traversal.scraped st)
    /\ Forall (fun o => 0 <= o.2 <= maxDepth) (Traversal.origins st)
    /\ (Traversal.queue st = []
        \/ length (Traversal.results st)
           = Config.max_pages_per_domain (Config.scraper (Platform.CONFIG P))).
Proof.
  destruct (crawl_loop_inv startUrl maxDepth w) as (w' & st & Hloop & Hinv & Hend).
  destruct Hinv as [Hv Hnd Hcap Ho Hr Hsd Hqd Hdom].
  exists w', st. split; [done|]. split; [by apply crawlRecursive_unfold|].
  split; [by rewrite <- Hv|]. split; [done|]. split; [done|]. split; [done|].
  split; [done|]. split.
  - apply Forall_forall. intros o Hin.
    eapply Forall_forall in Hsd; [exact Hsd|]. by eapply elem_of_sublist.
  - unfold loop_cond in Hend. apply andb_false_iff in Hend as [Hq|Hn].
    + left. apply negb_false_iff, Nat.eqb_eq in Hq. by destruct (Traversal.queue st).
    + right. apply Nat.ltb_ge in Hn. lia.
Qed.

(** When the scrape of the start URL throws, the loop ends with no page. *)
Lemma crawl_loop_start_fails startUrl maxDepth w w1 e :
  scrapeSingleUrl P startUrl w = (w1, Throw e) ->
  exists w' st,
    crawl_loop P (extractDomain P startUrl) maxDepth (initial_state startUrl) w
      = (w', Return st)
    /\ Traversal.results st = [].
Proof.
  intros Hfail. rewrite crawl_loop_unfold.
  destruct (loop_cond P (initial_state startUrl)) eqn:Hc; [|by do 2 eexists].
  destruct (crawl_step_cases (extractDomain P startUrl) maxDepth (initial_state startUrl)
              w startUrl 0 [] eq_refl) as (w' & st' & -> & Hcase).
  assert (Hst : Traversal.results st' = [] /\ Traversal.queue st' = []).
  { destruct Hcase as [Hskip | w2 m Hn Hle Hs | w2 result Hn Hle Hs]; [done|done|].
    rewrite Hfail in Hs. discriminate. }
  destruct Hst as [Hr Hq].
  rewrite crawl_loop_unfold. unfold loop_cond. rewrite Hq. cbn. by do 2 eexists.
Qed.

(** C10.  [crawlRecursive] returns for every start URL, depth bound and
    world, with [success: true] and [pages_crawled] the number of
    [pages]; when the scrape of the start URL fails there is no other
    page to try, and the result is still a success, with no page.
    Through [handleCrawl] in mode [auto], for a valid URL, the reply and
    the result inside it both carry [success: true]. *)
Theorem recursive_crawl_always_succeeds startUrl maxDepth w :
  exists w' r,
    crawlRecursive P startUrl maxDepth w = (w', Return r)
    /\ CrawlResult.success r = true
    /\ CrawlData.pages_crawled (CrawlResult.data r)
       = length (CrawlData.pages (CrawlResult.data r))
    /\ ((exists w1 e, scrapeSingleUrl P startUrl w = (w1, Throw e)) ->
        CrawlData.pages (CrawlResult.data r) = []
        /\ CrawlData.pages_crawled (CrawlResult.data r) = 0%nat)
    /\ (forall source,
          Js.truthy startUrl = true -> isValidUrl P startUrl = true ->
          exists w2 reply r2 storage,
            handleCrawl P {| Params.url := startUrl; Params.mode := Some "auto";
                             Params.depth := Some maxDepth; Params.source := source |} w
              = (w2, Return reply)
            /\ Reply.success reply = true
            /\ Reply.error reply = None
            /\ Reply.result reply = Some (Recursive r2 storage)
            /\ CrawlResult.success r2 = true
            /\ ((exists w1 e,
                   scrapeSingleUrl P startUrl (fst (generateJobId P w)) = (w1, Throw e)) ->
                CrawlData.pages (CrawlResult.data r2) = []
                /\ CrawlData.pages_crawled (CrawlResult.data r2) = 0%nat)).
Proof.
  destruct (crawl_loop_inv startUrl maxDepth w) as (w' & st & Hloop & _ & _).
  do 2 eexists. split; [by apply crawlRecursive_unfold|].
  cbn [CrawlResult.success CrawlResult.data CrawlData.pages CrawlData.pages_crawled].
  split; [done|]. split; [done|]. split.
  - intros (w1 & e & Hfail).
    destruct (crawl_loop_start_fails startUrl maxDepth w w1 e Hfail) as (w3 & st3 & H3 & Hr).
    rewrite Hloop in H3. injection H3 as _ <-. by rewrite Hr.
  - intros source Ht Hvalid.
    remember (fst (generateJobId P w)) as wj eqn:Hwj.
    assert (Hj : exists jobId, generateJobId P w = (wj, Return jobId))
      by (subst wj; by eexists).
    destruct Hj as [jobId Hj]. clear Hwj.
    unfold handleCrawl. cbn [Params.url Params.mode Params.depth default].
    rewrite Ht, Hvalid. cbn [negb orb]. unfold bind at 1. rewrite Hj.
    destruct (crawl_loop_inv startUrl maxDepth wj) as (w4 & st4 & Hloop4 & _ & _).
    unfold try_catch. cbn. unfold bind at 1.
    rewrite (crawlRecursive_unfold _ _ _ _ _ Hloop4). cbn.
    do 4 eexists. split; [reflexivity|]. cbn. repeat (split; [done|]).
    intros (w1 & e & Hfail).
    destruct (crawl_loop_start_fails startUrl maxDepth wj w1 e Hfail) as (w5 & st5 & H5 & Hr).
    rewrite Hloop4 in H5. injection H5 as _ <-. by rewrite Hr.
Qed.

(** ** The strategies *)

Lemma fetch_attempt_throws url w :
  exists m, fetch_attempt P url w = (w, Throw (Error m)).
Proof.
  unfold fetch_attempt, bind, fetch, uninitialized, throw.
  destruct (Platform.network P (now w) url); by eexists.
Qed.

(** A callback that always throws an [Error] makes [retry] throw: the
    last of these errors after at least one attempt, [lastError] as it
    was handed in after none.  Only the clock moves. *)
Lemma retry_loop_throws {A} (fn : M A) :
  (forall w, exists m, fn w = (w, Throw (Error m))) ->
  forall attempts delay lastError w,
  exists w' e,
    retry_loop fn attempts delay lastError w = (w', Throw e)
    /\ CACHE w' = CACHE w
    /\ (attempts <> 0%nat -> exists m, e = Error m)
    /\ (attempts = 0%nat -> e = lastError).
Proof.
  intros Hfn attempts. induction attempts as [|n IH]; intros delay lastError w; cbn.
  - unfold throw. by do 2 eexists.
  - unfold try_catch. destruct (Hfn w) as [m ->]. cbn.
    destruct n as [|n'].
    + cbn. unfold throw. do 2 eexists. repeat split; eauto. done.
    + unfold bind, sleep.
      destruct (IH (Z.min (delay * 2) 10000) (Error m) (set_now (now w + Z.max 0 delay) w))
        as (w' & e & -> & Hc & He & _).
      do 2 eexists. repeat split; eauto. done.
Qed.

Lemma scrapeWithFetch_throws url w :
  exists w' e,
    scrapeWithFetch P url w = (w', Throw e)
    /\ CACHE w' = CACHE w
    /\ ((0 < Config.max_retries (Config.scraper (Platform.CONFIG P)))%nat ->
        exists m, e = Error m)
    /\ (Config.max_retries (Config.scraper (Platform.CONFIG P)) = 0%nat -> e = Undefined).
Proof.
  unfold scrapeWithFetch, retry, bind.
  destruct (retry_loop_throws (fetch_attempt P url) (fetch_attempt_throws url)
              (Config.max_retries (Config.scraper (Platform.CONFIG P))) 1000 Undefined w)
    as (w' & e & -> & Hc & He & H0).
  do 2 eexists. repeat split; eauto. intros. apply He. lia.
Qed.

(** With at least one attempt configured, the three strategies fail one
    after the other and [scrapeSingleUrl] gives up with the error of the
    last one; the cache is not written. *)
Lemma strategies_exhausted url w :
  (0 < Config.max_retries (Config.scraper (Platform.CONFIG P)))%nat ->
  exists w',
    try_strategies P url (strategies P) None w
      = (w', Throw (Error "All scraping strategies failed. Last error: API scraping not configured"))
    /\ CACHE w' = CACHE w.
Proof.
  intros Hretries. unfold strategies. cbn [try_strategies Strategy.fn].
  destruct (scrapeWithFetch_throws url w) as (w' & e & -> & Hc & He & _).
  destruct (He Hretries) as [m ->]. cbn. by eexists.
Qed.

(** Whatever the configuration, the chain of the three strategies never
    returns: a page comes from the cache or not at all. *)
Lemma strategies_never_return url w :
  exists w' m, try_strategies P url (strategies P) None w = (w', Throw (Error m)).
Proof.
  unfold strategies. cbn [try_strategies Strategy.fn].
  destruct (scrapeWithFetch_throws url w) as (w' & e & -> & _ & _ & _).
  destruct e as [m|]; cbn; by do 2 eexists.
Qed.

Lemma scrapeSingleUrl_returns_cached url w w' r :
  scrapeSingleUrl P url w = (w', Return r) ->
  ScrapeResult.cached r = true /\ checkCache url w = (w, Return (Some (ScrapeResult.data r))).
Proof.
  unfold scrapeSingleUrl, scrapeSingleUrl_with, bind.
  destruct (checkCache_returns url w) as [o Ho]. rewrite Ho.
  destruct o as [doc|].
  - by intros [= <- <-].
  - destruct (strategies_never_return url w) as (w2 & m & ->). discriminate.
Qed.

(** The lookup reads the clock and the cache only. *)
Lemma checkCache_frame url w1 w2 :
  now w1 = now w2 -> CACHE w1 = CACHE w2 ->
  snd (checkCache url w1) = snd (checkCache url w2).
Proof.
  intros Hn Hc. unfold checkCache. rewrite Hn, Hc.
  destruct (CACHE w2) as [cache|]; [|done].
  destruct (Kv.get _ _ _); [|done]. by destruct (_ <? _).
Qed.

(** C5.  A manual crawl of a valid URL that is not in the cache, on a
    network that answers the URL with HTTP 500 at every attempt, with at
    least one attempt configured: [handleCrawl] replies [success: false]
    with the message of [scrapeSingleUrl] about the exhausted strategies,
    which ends with the error of the last strategy, and the cache is as
    it was. *)
Theorem manual_crawl_of_failing_url url mode depth source w :
  Js.truthy url = true ->
  isValidUrl P url = true ->
  default "manual" mode = "manual" ->
  (0 < Config.max_retries (Config.scraper (Platform.CONFIG P)))%nat ->
  (forall t, exists r, Platform.network P t url = Resolved r /\ Response.status r = 500) ->
  checkCache url w = (w, Return None) ->
  exists w' jobId,
    handleCrawl P {| Params.url := url; Params.mode := mode;
                     Params.depth := depth; Params.source := source |} w
      = (w', Return {| Reply.success := false; Reply.job_id := Some jobId;
                       Reply.mode := None; Reply.source := None; Reply.result := None;
                       Reply.error :=
                         Some ("All scraping strategies failed. Last error: "
                                 +:+ "API scraping not configured") |})
    /\ scrapeWithAPI url w' = (w', Throw (Error "API scraping not configured"))
    /\ CACHE w' = CACHE w.
Proof.
  intros Ht Hvalid Hmode Hretries _ Hmiss.
  remember (fst (generateJobId P w)) as wj eqn:Hwj.
  assert (Hj : exists jobId, generateJobId P w = (wj, Return jobId) /\ now wj = now w
                             /\ CACHE wj = CACHE w)
    by (subst wj; by eexists).
  destruct Hj as (jobId & Hj & Hnow & Hcache). clear Hwj.
  unfold handleCrawl. cbn [Params.url Params.mode Params.depth Params.source].
  rewrite Ht, Hvalid, Hmode. cbn [negb orb]. unfold bind at 1. rewrite Hj.
  rewrite String.eqb_refl.
  assert (Hmiss' : checkCache url wj = (wj, Return None)).
  { destruct (checkCache_returns url wj) as [o Ho]. rewrite Ho. f_equal.
    pose proof (checkCache_frame url wj w Hnow Hcache) as Hf.
    rewrite Ho, Hmiss in Hf. exact Hf. }
  destruct (strategies_exhausted url wj Hretries) as (w' & Hs & Hc).
  unfold try_catch.
  unfold bind at 1. unfold scrapeSingleUrl, scrapeSingleUrl_with. unfold bind at 1.
  rewrite Hmiss', Hs. cbn.
  exists w', jobId. repeat split. congruence.
Qed.

(** ** The page cache *)

Lemma cache_read_after_write url d w cache t :
  CACHE w = Some cache ->
  checkCache url (set_now t (fst (cacheResult url d w)))
  = (set_now t (fst (cacheResult url d w)),
     Return (if (t <? now w + 86400000) && (t - Doc.scraped_at d <? maxAge)
             then Some d else None)).
Proof.
  intros Hc. unfold cacheResult, checkCache. rewrite Hc. cbn.
  unfold Kv.get, Kv.put. rewrite lookup_insert_eq. cbn.
  replace (now w + 24 * 60 * 60 * 1000) with (now w + 86400000) by lia.
  destruct (t <? now w + 86400000); [|done].
  by destruct (t - Doc.scraped_at d <? maxAge).
Qed.

(** A successful run of the strategy chain ends with the write of the
    document it returns. *)
Lemma try_strategies_writes url chain lastError w w2 r :
  try_strategies P url chain lastError w = (w2, Return r) ->
  exists w1,
    w2 = fst (cacheResult url (ScrapeResult.data r) w1)
    /\ Doc.scraped_at (ScrapeResult.data r) = now w1
    /\ Doc.url (ScrapeResult.data r) = url
    /\ ScrapeResult.cached r = false.
Proof.
  revert lastError w. induction chain as [|s chain IH]; intros lastError w; cbn.
  - discriminate.
  - destruct (Strategy.fn s url w) as [w1 [result|error]].
    + destruct (Js.truthy _); [|by apply IH].
      unfold bind, ret, cacheResult.
      destruct (CACHE w1) eqn:Hc1; intros [= <- <-]; exists w1; cbn;
        unfold cacheResult; by rewrite Hc1.
    + destruct error as [m|]; cbn; [by apply IH | discriminate].
Qed.

(** C4.  With a cache bound: a document written under a URL and read back
    at once is returned when its age is below 24 hours; read back later
    it is returned as long as its age is below 24 hours (for a document
    not dated after the write); once its age is 24 hours or more the
    lookup answers [null], and [scrapeSingleUrl] then runs the strategy
    chain exactly as without a cache entry; a run of the chain that
    succeeds writes its document under the URL, replacing the entry, so
    that the next lookup returns the new document. *)
Theorem cache_round_trip url d w cache :
  CACHE w = Some cache ->
  let w1 := fst (cacheResult url d w) in
  (now w - Doc.scraped_at d < maxAge -> checkCache url w1 = (w1, Return (Some d)))
  /\ (forall t, Doc.scraped_at d <= now w -> t - Doc.scraped_at d < maxAge ->
        checkCache url (set_now t w1) = (set_now t w1, Return (Some d)))
  /\ (forall t, maxAge <= t - Doc.scraped_at d ->
        checkCache url (set_now t w1) = (set_now t w1, Return None)
        /\ scrapeSingleUrl P url (set_now t w1)
           = try_strategies P url (strategies P) None (set_now t w1)
        /\ forall chain,
             scrapeSingleUrl_with P chain url (set_now t w1)
             = try_strategies P url chain None (set_now t w1))
  /\ (forall chain w0 w2 r,
        try_strategies P url chain None w0 = (w2, Return r) ->
        forall c, CACHE w2 = Some c ->
          c !! ("scrape:" +:+ url)
            = Some {| Kv.value := ScrapeResult.data r; Kv.expiration := now w2 + 86400000 |}
          /\ checkCache url w2 = (w2, Return (Some (ScrapeResult.data r)))).
Proof.
  intros Hc w1. subst w1. split; [|split; [|split]].
  - intros Hage. unfold cacheResult, checkCache. rewrite Hc. cbn.
    unfold Kv.get, Kv.put. rewrite lookup_insert_eq. cbn.
    replace (now w <? now w + 24 * 60 * 60 * 1000) with true
      by (symmetry; apply Z.ltb_lt; lia).
    by replace (now w - Doc.scraped_at d <? maxAge) with true
      by (symmetry; by apply Z.ltb_lt).
  - intros t Hpast Hage. rewrite (cache_read_after_write url d w cache t Hc).
    replace (t <? now w + 86400000) with true
      by (symmetry; apply Z.ltb_lt; unfold maxAge in Hage; lia).
    by replace (t - Doc.scraped_at d <? maxAge) with true by (symmetry; by apply Z.ltb_lt).
  - intros t Hage.
    assert (Hmiss : checkCache url (set_now t (fst (cacheResult url d w)))
                    = (set_now t (fst (cacheResult url d w)), Return None)).
    { rewrite (cache_read_after_write url d w cache t Hc).
      replace (t - Doc.scraped_at d <? maxAge) with false by (symmetry; by apply Z.ltb_ge).
      by rewrite andb_false_r. }
    split; [done|].
    unfold scrapeSingleUrl, scrapeSingleUrl_with, bind. by rewrite Hmiss.
  - intros chain w0 w2 r Hrun c Hc2.
    apply try_strategies_writes in Hrun as (w3 & -> & Hat & _ & _).
    unfold cacheResult in Hc2 |- *.
    destruct (CACHE w3) as [c3|] eqn:Hc3; [|cbn in Hc2; congruence].
    cbn in Hc2 |- *. injection Hc2 as <-. split.
    + unfold Kv.put. by rewrite lookup_insert_eq.
    + unfold Kv.get, Kv.put. rewrite lookup_insert_eq. cbn.
      replace (now w3 <? now w3 + 24 * 60 * 60 * 1000) with true
        by (symmetry; apply Z.ltb_lt; lia).
      rewrite Hat. by replace (now w3 - now w3) with 0 by lia.
Qed.

(** ** The content extractor *)

(** C7, as the code has it.  For every markup text, [parseHTML] returns
    (it raises no error), its links are the first 50 of the [href] values
    of the anchors that parse as URLs, in the order of the document and
    with repetitions kept, and its content is the first 50,000 code units
    of the text of the markup: the markup without its [script] and
    [style] elements, with a space for each tag, each run of white space
    turned into one space, and trimmed.  A text within 50,000 code units
    is the content as it is; of a longer one the content has exactly
    50,000. *)
Theorem parseHTML_links_and_content html :
  let text :=
    Js.trim
      (Re.replaceAll false Rss.spaces_re " "
         (Re.replaceAll false Rss.tag_re " "
            (Re.replaceAll true (element_re "style") ""
               (Re.replaceAll true (element_re "script") "" html)))) in
  Parsed.links (parseHTML P html) = firstn 50 (List.filter (isValidUrl P) (hrefs html))
  /\ Forall (fun link => isValidUrl P link = true) (Parsed.links (parseHTML P html))
  /\ sublist (Parsed.links (parseHTML P html)) (hrefs html)
  /\ (length (Parsed.links (parseHTML P html)) <= 50)%nat
  /\ Parsed.content (parseHTML P html) = Js.take (Z.to_nat 50000) text
  /\ (String.length (Parsed.content (parseHTML P html)) <= Z.to_nat 50000)%nat
  /\ ((String.length text <= Z.to_nat 50000)%nat ->
      Parsed.content (parseHTML P html) = text)
  /\ ((Z.to_nat 50000 < String.length text)%nat ->
      String.length (Parsed.content (parseHTML P html)) = Z.to_nat 50000).
Proof.
  intros text. cbn [Parsed.links Parsed.content parseHTML]. fold text.
  split; [done|]. split.
  - apply Forall_forall. intros link Hin.
    pose proof (firstn_sublist 50 (List.filter (isValidUrl P) (hrefs html))) as Hsub.
    pose proof (elem_of_sublist _ _ _ Hin Hsub) as Hin'.
    pose proof (filter_Forall (isValidUrl P) (hrefs html)) as Hall.
    by eapply Forall_forall in Hall.
  - split; [|split; [|split; [|split; [|split]]]].
    + etrans; [apply firstn_sublist | apply filter_sublist].
    + apply firstn_le_length.
    + reflexivity.
    + apply take_length.
    + generalize text. generalize (Z.to_nat 50000). intros n.
      induction n as [|n IH]; intros [|c full]; cbn; intros Hlen; try done; try lia.
      f_equal. apply IH. lia.
    + generalize text. generalize (Z.to_nat 50000). intros n.
      induction n as [|n IH]; intros [|c full]; cbn; intros Hlen; try done; try lia.
      f_equal. apply IH. lia.
Qed.

(** ** The enqueue rule *)

Lemma enqueue_rule startUrl maxDepth st w url depth queue w1 result :
  Traversal.queue st = (url, depth) :: queue ->
  url ∉ Traversal.visited st -> depth <= maxDepth ->
  scrapeSingleUrl P url w = (w1, Return result) ->
  exists w' st' pushed,
    crawl_step P (extractDomain P startUrl) maxDepth st w = (w', Return st')
    /\ Traversal.results st' = Traversal.results st ++ [ScrapeResult.data result]
    /\ Traversal.queue st' = queue ++ pushed
    /\ forall link d,
         ((link, d) ∈ pushed)
         <-> (depth < maxDepth
              /\ link ∈ Doc.links (ScrapeResult.data result)
              /\ d = depth + 1
              /\ extractDomain P link = extractDomain P startUrl
              /\ (link ∉ Traversal.visited st)
              /\ link <> url).
Proof.
  intros Hq Hn Hle Hs.
  destruct (crawl_step_cases (extractDomain P startUrl) maxDepth st w url depth queue Hq)
    as (w' & st' & Hstep & Hcase).
  destruct Hcase as [[Hin|Hgt] | w2 m _ _ Hs' | w2 result' _ _ Hs'];
    [done | lia | congruence |].
  rewrite Hs in Hs'. injection Hs' as <- <-.
  eexists _, _,
    (if depth <? maxDepth
     then same_domain_links P (extractDomain P startUrl) (Traversal.visited st ++ [url])
            depth (Doc.links (ScrapeResult.data result))
     else []).
  split; [exact Hstep|]. cbn. split; [done|]. split.
  - destruct (depth <? maxDepth); [done | by rewrite app_nil_r].
  - intros link d. destruct (depth <? maxDepth) eqn:Hd.
    + apply Z.ltb_lt in Hd. rewrite same_domain_links_spec.
      rewrite not_elem_of_app, list_elem_of_singleton. intuition lia.
    + apply Z.ltb_ge in Hd. split; [by intros ?%elem_of_nil | lia].
Qed.

(** Every URL handed to [scrapeSingleUrl] has the host name of the start
    URL. *)
Lemma scraped_on_start_host startUrl maxDepth w :
  exists w' st,
    crawl_loop P (extractDomain P startUrl) maxDepth (initial_state startUrl) w
      = (w', Return st)
    /\ Forall (fun e => extractDomain P e.1 = extractDomain P startUrl)
              (Traversal.scraped st)
    /\ sublist (Traversal.origins st) (Traversal.scraped st)
    /\ Forall2 (fun doc o =>
                  exists w0 w1 r, scrapeSingleUrl P o.1 w0 = (w1, Return r)
                                  /\ ScrapeResult.data r = doc)
               (Traversal.results st) (Traversal.origins st).
Proof.
  destruct (crawl_loop_inv startUrl maxDepth w) as (w' & st & Hloop & Hinv & _).
  destruct Hinv as [Hv Hnd Hcap Ho Hr Hsd Hqd Hdom].
  exists w', st. repeat split; try done. by apply Forall_app in Hdom as [_ ?].
Qed.

End CrawlerFacts.

(* ================================================================== *)
(** * Properties of the RSS handler *)
(* ================================================================== *)

Section RssFacts.
Variable P : Platform.t.
Import RssHandler.

(** C6, as the code has it.  The items of a parsed feed are the blocks
    that have both a title and a link, in the order of the blocks; a
    block whose title or whose link comes out empty gives no item. *)
Theorem parser_keeps_blocks_with_title_and_link xmlText :
  Feed.items (Rss.parseRSSFeed xmlText) = omap Rss.parseItem (Rss.item_blocks xmlText)
  /\ (forall block,
        is_Some (Rss.parseItem block)
        <-> (Rss.item_title block <> "" /\ Rss.item_link block <> ""))
  /\ (forall block item,
        Rss.parseItem block = Some item ->
        Item.title item = Rss.item_title block /\ Item.link item = Rss.item_link block)
  /\ Forall (fun item => Item.title item <> "" /\ Item.link item <> "")
            (Feed.items (Rss.parseRSSFeed xmlText)).
Proof.
  assert (Hiff : forall block,
             is_Some (Rss.parseItem block)
             <-> (Rss.item_title block <> "" /\ Rss.item_link block <> "")).
  { intros block. unfold Rss.parseItem.
    destruct (Rss.item_title block), (Rss.item_link block); cbn;
      rewrite ?is_Some_alt; intuition congruence. }
  assert (Hfields : forall block item,
             Rss.parseItem block = Some item ->
             Item.title item = Rss.item_title block /\ Item.link item = Rss.item_link block).
  { intros block item. unfold Rss.parseItem.
    destruct (Js.truthy _ && Js.truthy _); [|done]. by intros [= <-]. }
  split; [done|]. split; [done|]. split; [done|].
  cbn [Feed.items Rss.parseRSSFeed].
  apply Forall_forall. intros item Hin.
  apply list_elem_of_omap in Hin as (block & _ & Hblock).
  destruct (Hfields block item Hblock) as [-> ->].
  apply Hiff. by rewrite Hblock.
Qed.

(** C3.  When the feed is fetched with an OK status, [checkSingleFeed]
    returns the scored items whose score is at least the threshold: an
    item whose score equals the threshold is among them, an item whose
    score is the threshold less some positive amount is not, and they
    stand in the order of the feed. *)
Theorem feed_check_keeps_scores_at_threshold feedUrl threshold w r :
  Platform.network P (now w) feedUrl = Resolved r ->
  Response.ok r = true ->
  let items := Feed.items (Rss.parseRSSFeed (Response.body r)) in
  let scored := Rss.score_items (Platform.CONFIG P) items in
  exists res,
    checkSingleFeed P feedUrl threshold w = (w, Return res)
    /\ Scored.item <$> scored = items
    /\ FeedCheck.total_items res = length items
    /\ FeedCheck.high_score_items res
       = List.filter (fun item => Qle_bool threshold (Scored.score item)) scored
    /\ (forall item,
          item ∈ FeedCheck.high_score_items res
          <-> (item ∈ scored /\ (threshold <= Scored.score item)%Q))
    /\ (forall item,
          item ∈ scored -> (Scored.score item == threshold)%Q ->
          item ∈ FeedCheck.high_score_items res)
    /\ (forall item eps,
          item ∈ scored -> (0 < eps)%Q -> (Scored.score item == threshold - eps)%Q ->
          item ∉ FeedCheck.high_score_items res)
    /\ sublist (FeedCheck.high_score_items res) scored.
Proof.
  intros Hnet Hok items scored.
  assert (Hmem : forall item,
             item ∈ List.filter (fun item => Qle_bool threshold (Scored.score item)) scored
             <-> (item ∈ scored /\ (threshold <= Scored.score item)%Q)).
  { intros item. rewrite !list_elem_of_In, filter_In, Qle_bool_iff. done. }
  eexists. split.
  { unfold checkSingleFeed, bind, fetch. rewrite Hnet, Hok. cbn. reflexivity. }
  cbn [FeedCheck.total_items FeedCheck.high_score_items].
  split; [|split; [done|split; [done|split; [done|split; [|split]]]]].
  - unfold scored, Rss.score_items. rewrite <- list_fmap_compose.
    clear. induction items as [|i l IH]; cbn; [done|]. by rewrite IH.
  - intros item Hin Heq. apply Hmem. split; [done|]. rewrite Heq. apply Qle_refl.
  - intros item eps Hin Hpos Heq Hhigh. apply Hmem in Hhigh as [_ Hle].
    rewrite Heq in Hle.
    apply (Qlt_irrefl threshold). eapply Qle_lt_trans; [exact Hle|].
    rewrite <- (Qplus_0_r threshold) at 2. unfold Qminus.
    apply Qplus_lt_r. apply Qopp_lt_compat in Hpos. exact Hpos.
  - apply filter_sublist.
Qed.

(** ** The dispatch of the items of one feed *)

Lemma dispatch_items_spec feed items results w :
  exists sent rest w' results' thrown,
    dispatch_items P feed items results w = (w', (results', thrown))
    /\ items = sent ++ rest
    /\ Summary.high_score_items results' = Summary.high_score_items results ++ sent
    /\ Summary.scrapes_triggered results'
       = (Summary.scrapes_triggered results + length sent)%nat
    /\ Summary.feeds_checked results' = Summary.feeds_checked results
    /\ Summary.errors results' = Summary.errors results
    /\ Job.url <$> SCRAPE_QUEUE w'
       = (Job.url <$> SCRAPE_QUEUE w) ++ ((fun item => Item.link (Scored.item item)) <$> sent)
    /\ match thrown with
       | None => rest = []
       | Some e =>
           exists item rest' w0 w1 job m,
             rest = item :: rest'
             /\ job_for P feed item w0 = (w1, Return job)
             /\ Platform.queue_error P job = Some m
             /\ e = Error m
       end.
Proof.
  revert results w. induction items as [|item items IH]; intros results w.
  - exists [], [], w, results, None. cbn. rewrite !app_nil_r.
    repeat split; first [done | lia].
  - cbn [dispatch_items]. unfold bind at 1.
    destruct (job_for P feed item w) as [w1 [job|e]] eqn:Hjob; [|discriminate].
    assert (Hurl : Job.url job = Item.link (Scored.item item)
                   /\ SCRAPE_QUEUE w1 = SCRAPE_QUEUE w).
    { unfold job_for, bind, generateJobId, Date_now, ret in Hjob. cbn in Hjob.
      by injection Hjob as <- <-. }
    destruct Hurl as [Hurl Hq1].
    unfold queue_send. destruct (Platform.queue_error P job) as [m|] eqn:Herr.
    + exists [], (item :: items), w1, results, (Some (Error m)). cbn.
      rewrite !app_nil_r, Hq1. repeat split; try first [done | lia].
      by exists item, items, w, w1, job, m.
    + match goal with
      | |- context [dispatch_items P feed items ?r ?w2] =>
          destruct (IH r w2) as (sent & rest & w' & results' & thrown & -> & -> & Hh & Hs
                                 & Hf & He & Hq & Ht)
      end.
      cbn in Hh, Hs, Hf, He, Hq.
      exists (item :: sent), rest, w', results', thrown.
      repeat split; try done.
      * by rewrite Hh, <- app_assoc.
      * rewrite Hs. cbn. lia.
      * rewrite Hq, fmap_app, Hq1, <- app_assoc. cbn. by rewrite Hurl.
Qed.

(** C9, as the code has it.  For a feed that was fetched and scored, the
    items are sent to the queue in order until one send fails; the items
    before the failure are dispatched and counted, the failure is
    recorded as one error under the name of the feed, the items after it
    are not sent, and the check goes on with the next feed. *)
Theorem dispatch_failure_ends_the_feed threshold feed feeds results w w1 feedResult :
  checkSingleFeed P (Config.url feed) threshold w = (w1, Return feedResult) ->
  exists sent rest w' results',
    check_feed P threshold feed results w = (w', Return results')
    /\ FeedCheck.high_score_items feedResult = sent ++ rest
    /\ Job.url <$> SCRAPE_QUEUE w'
       = (Job.url <$> SCRAPE_QUEUE w1) ++ ((fun item => Item.link (Scored.item item)) <$> sent)
    /\ Summary.high_score_items results' = Summary.high_score_items results ++ sent
    /\ Summary.scrapes_triggered results'
       = (Summary.scrapes_triggered results + length sent)%nat
    /\ Summary.feeds_checked results' = S (Summary.feeds_checked results)
    /\ ((rest = [] /\ Summary.errors results' = Summary.errors results)
        \/ (exists item rest' m w0 wj job,
              rest = item :: rest'
              /\ job_for P feed item w0 = (wj, Return job)
              /\ Platform.queue_error P job = Some m
              /\ Summary.errors results'
                 = Summary.errors results
                     ++ [{| FeedError.feed := Config.name feed; FeedError.error := m |}]))
    /\ check_feeds P threshold (feed :: feeds) results w
       = check_feeds P threshold feeds results' w'.
Proof.
  intros Hcheck. unfold check_feed. cbn [check_feeds]. unfold bind, check_feed.
  rewrite Hcheck.
  match goal with
  | |- context [dispatch_items P feed ?items ?r ?w2] =>
      destruct (dispatch_items_spec feed items r w2)
        as (sent & rest & w' & results' & thrown & -> & Hitems & Hh & Hs & Hf & He & Hq & Ht)
  end.
  cbn in Hh, Hs, Hf, He.
  destruct thrown as [e|].
  - destruct Ht as (item & rest' & w0 & wj & job & m & -> & Hjob & Herr & ->).
    cbn. do 4 eexists. repeat split; try done.
    right. exists item, rest', m, w0, wj, job. repeat split; try done. cbn. by rewrite He.
  - subst rest. cbn. do 4 eexists. repeat split; try done. by left.
Qed.

End RssFacts.

(* ================================================================== *)
(** * The scenarios, evaluated *)
(* ================================================================== *)

Import Crawler RssHandler.

(** C1.  With the keywords [biblical] (medium weight 1), [prophecy] and
    [end times] (both of high priority, weight 2), the entry titled
    "Biblical prophecy about end times reveals...", whatever its
    description as long as each keyword occurs once as a whole word in
    title and description together (the occurrence in the title), scores
    7: the whole-word counts give 1 + 2 + 2, the title gives one point for
    each of the two high-priority keywords; and at the threshold 5 the
    entry is kept. *)
Theorem scenario_entry_scores_seven link description pubDate content :
  let cfg := Demo.config in
  let item := Scenario.entry link description pubDate content in
  let text := Js.toLowerCase (Item.title item +:+ " " +:+ description) in
  Forall (fun keyword =>
            length (Re.matchAll true (Rss.keyword_re (Js.toLowerCase keyword)) text) = 1%nat)
         (Config.prophecy_keywords (Config.scoring cfg)) ->
  (Rss.calculateProphecyScore cfg item == 7)%Q
  /\ (fold_left (Rss.add_keyword cfg text)
                (Config.prophecy_keywords (Config.scoring cfg)) 0 == 1 + 2 + 2)%Q
  /\ (fold_left (Rss.add_title_bonus (Js.toLowerCase (Item.title item)))
                (Config.high_priority_keywords (Config.scoring cfg)) 0 == 1 + 1)%Q
  /\ Rss.high_scoring 5 (Rss.score_items cfg [item]) = Rss.score_items cfg [item].
Proof.
  intros cfg item text Honce.
  assert (Hcount :
    fold_left (Rss.add_keyword cfg text) (Config.prophecy_keywords (Config.scoring cfg)) 0%Q
    = (0 + inject_Z 1 * 1 + inject_Z 1 * 2 + inject_Z 1 * 2)%Q).
  { cbn [cfg Demo.config Config.scoring Config.prophecy_keywords fold_left] in Honce |- *.
    apply Forall_cons in Honce as [H1 Honce]. apply Forall_cons in Honce as [H2 Honce].
    apply Forall_cons in Honce as [H3 _].
    unfold Rss.add_keyword.
    destruct (Re.matchAll true (Rss.keyword_re (Js.toLowerCase "biblical")) text)
      as [|? [|]]; try discriminate H1.
    destruct (Re.matchAll true (Rss.keyword_re (Js.toLowerCase "prophecy")) text)
      as [|? [|]]; try discriminate H2.
    destruct (Re.matchAll true (Rss.keyword_re (Js.toLowerCase "end times")) text)
      as [|? [|]]; try discriminate H3.
    reflexivity. }
  assert (Hscore : Rss.calculateProphecyScore cfg item = (700 # 100)%Q).
  { change (Rss.calculateProphecyScore cfg item)
      with (Rss.toFixed2
              (fold_left (Rss.add_title_bonus (Js.toLowerCase (Item.title item)))
                 (Config.high_priority_keywords (Config.scoring cfg))
                 (fold_left (Rss.add_keyword cfg text)
                    (Config.prophecy_keywords (Config.scoring cfg)) 0%Q))).
    rewrite Hcount. by vm_compute. }
  split; [by rewrite Hscore|]. split; [by rewrite Hcount|]. split; [by vm_compute|].
  unfold Rss.high_scoring, Rss.score_items. cbn [fmap list_fmap List.filter Scored.score].
  by rewrite Hscore.
Qed.

(** Witness of C1: the entry with an empty description, and with a
    description without keywords. *)
Lemma scenario_entry_scores_seven_witness :
  (Rss.calculateProphecyScore Demo.config
     (Scenario.entry "https://news.example.org/3" "" "" "") == 7)%Q
  /\ (Rss.calculateProphecyScore Demo.config
        (Scenario.entry "https://news.example.org/3" "Scholars discuss a new commentary."
           "Mon, 01 Jan 2024" "") == 7)%Q.
Proof.
  split.
  - apply (scenario_entry_scores_seven "https://news.example.org/3" "" "" "").
    repeat constructor.
  - apply (scenario_entry_scores_seven "https://news.example.org/3"
             "Scholars discuss a new commentary." "Mon, 01 Jan 2024" "").
    repeat constructor.
Defined.

(** Witness of C2: on two pages that link to each other the crawl ends,
    with each page scraped once. *)
Lemma crawl_visits_once_within_bounds_witness :
  exists w' st,
    crawl_loop Demo.failing (extractDomain Demo.failing "https://example.com/a") 5
      (initial_state "https://example.com/a") (Demo.world (Some Scenario.cyclic_cache))
      = (w', Return st)
    /\ (Traversal.scraped st).*1 = ["https://example.com/a"; "https://example.com/b"]
    /\ Doc.url <$> Traversal.results st = ["https://example.com/a"; "https://example.com/b"]
    /\ Traversal.queue st = [].
Proof.
  destruct (crawl_visits_once_within_bounds Demo.failing "https://example.com/a" 5
              (Demo.world (Some Scenario.cyclic_cache))) as (w' & st & Hloop & _).
  exists w', st. split; [exact Hloop|].
  vm_compute in Hloop. injection Hloop as _ <-. repeat split; by vm_compute.
Defined.

(** C8, as the code has it.  After a page was scraped with success at a
    depth of at most [maxDepth], the loop pushes, after the entries
    already queued, its links at the depth of the page plus 1: exactly
    those, when the depth of the page is below [maxDepth], whose host
    name equals the host name of the start URL and that are not in
    [visited].  No URL of another host name is ever handed to
    [scrapeSingleUrl], while the documents keep all their links.  With
    the pages resolving (here from the cache), a crawl with [maxDepth] 1
    from a page that links to three pages of its host and to two pages
    of other hosts returns 4 pages, the start page and the three, and
    neither of the other two. *)
Theorem links_followed_on_the_start_host :
  (forall P startUrl maxDepth st w url depth queue w1 result,
     Traversal.queue st = (url, depth) :: queue ->
     url ∉ Traversal.visited st -> depth <= maxDepth ->
     scrapeSingleUrl P url w = (w1, Return result) ->
     exists w' st' pushed,
       crawl_step P (extractDomain P startUrl) maxDepth st w = (w', Return st')
       /\ Traversal.results st' = Traversal.results st ++ [ScrapeResult.data result]
       /\ Traversal.queue st' = queue ++ pushed
       /\ forall link d,
            ((link, d) ∈ pushed)
            <-> (depth < maxDepth
                 /\ link ∈ Doc.links (ScrapeResult.data result)
                 /\ d = depth + 1
                 /\ extractDomain P link = extractDomain P startUrl
                 /\ (link ∉ Traversal.visited st)
                 /\ link <> url))
  /\ (forall P startUrl maxDepth w,
        exists w' st,
          crawl_loop P (extractDomain P startUrl) maxDepth (initial_state startUrl) w
            = (w', Return st)
          /\ Forall (fun e => extractDomain P e.1 = extractDomain P startUrl)
                    (Traversal.scraped st)
          /\ sublist (Traversal.origins st) (Traversal.scraped st)
          /\ Forall2 (fun doc o =>
                        exists w0 w1 r, scrapeSingleUrl P o.1 w0 = (w1, Return r)
                                        /\ ScrapeResult.data r = doc)
                     (Traversal.results st) (Traversal.origins st))
  /\ (exists w' r first others,
        crawlRecursive Demo.failing "https://example.com/" 1
          (Demo.world (Some Demo.site_cache)) = (w', Return r)
        /\ CrawlData.pages_crawled (CrawlResult.data r) = 4%nat
        /\ CrawlData.pages (CrawlResult.data r) = first :: others
        /\ Doc.url <$> CrawlData.pages (CrawlResult.data r)
           = ["https://example.com/"; "https://example.com/a";
              "https://example.com/b"; "https://example.com/c"]
        /\ Doc.links first
           = ["https://example.com/a"; "https://other.org/x"; "https://example.com/b";
              "https://elsewhere.net/y"; "https://example.com/c"]).
Proof.
  split; [|split].
  - intros. by eapply enqueue_rule.
  - intros. apply scraped_on_start_host.
  - do 4 eexists. split; [vm_compute; reflexivity|]. by vm_compute.
Qed.

(** Witness of C8: the enqueue rule at the start page of the site. *)
Lemma links_followed_on_the_start_host_witness :
  exists w' st' pushed,
    crawl_step Demo.failing (Some "example.com") 1 (initial_state "https://example.com/")
      (Demo.world (Some Demo.site_cache)) = (w', Return st')
    /\ Traversal.queue st' = [] ++ pushed
    /\ pushed = [("https://example.com/a", 1); ("https://example.com/b", 1);
                 ("https://example.com/c", 1)].
Proof.
  destruct (proj1 links_followed_on_the_start_host Demo.failing "https://example.com/" 1
              (initial_state "https://example.com/") (Demo.world (Some Demo.site_cache))
              "https://example.com/" 0 []
              (Demo.world (Some Demo.site_cache))
              {| ScrapeResult.success := true; ScrapeResult.cached := true;
                 ScrapeResult.data :=
                   Demo.doc "https://example.com/" Demo.site_links 1699999000000 |})
    as (w' & st' & pushed & Hstep & _ & Hqueue & _).
  - reflexivity.
  - by intros ?%elem_of_nil.
  - lia.
  - vm_compute. reflexivity.
  - exists w', st', pushed. split; [exact Hstep|]. split; [exact Hqueue|].
    change (extractDomain Demo.failing "https://example.com/") with (Some "example.com")
      in Hstep.
    vm_compute in Hstep. injection Hstep as _ <-. cbn in Hqueue. by rewrite Hqueue.
Defined.

(** Counterexample to C8 as stated: the link to the [www] host of the
    site matches the host of the start URL by suffix and the depth 0 is
    below [maxDepth] 1, yet the link is not enqueued and its page, though
    in the cache, is not in the result. *)
Lemma www_link_is_not_followed :
  Scenario.enqueued_by_specification Demo.failing "https://example.com/" 1 0
    "https://www.example.com/about" = true
  /\ same_domain_links Demo.failing (extractDomain Demo.failing "https://example.com/")
       ["https://example.com/"] 0 ["https://www.example.com/about"] = []
  /\ (Doc.url <$>
        match snd (crawlRecursive Demo.failing "https://example.com/" 1
                     (Demo.world (Some Scenario.www_cache))) with
        | Return r => CrawlData.pages (CrawlResult.data r)
        | Throw _ => []
        end) = ["https://example.com/"]
  /\ ScrapeResult.cached <$>
       match snd (scrapeSingleUrl Demo.failing "https://www.example.com/about"
                    (Demo.world (Some Scenario.www_cache))) with
       | Return r => Some r
       | Throw _ => None
       end = Some true.
Proof. repeat split; by vm_compute. Qed.

(** Witness of C10: with no cache and every request answered with HTTP
    500, the crawl of a valid URL is a success with no page. *)
Lemma recursive_crawl_always_succeeds_witness :
  exists w' r,
    crawlRecursive Demo.failing "https://example.com/" 2 (Demo.world None) = (w', Return r)
    /\ CrawlResult.success r = true
    /\ CrawlData.pages (CrawlResult.data r) = []
    /\ CrawlData.pages_crawled (CrawlResult.data r) = 0%nat.
Proof.
  destruct (recursive_crawl_always_succeeds Demo.failing "https://example.com/" 2
              (Demo.world None)) as (w' & r & Hrun & Hok & _ & Hnone & _).
  exists w', r. split; [exact Hrun|]. split; [exact Hok|].
  apply Hnone. do 2 eexists. vm_compute. reflexivity.
Defined.

(** Witness of C5. *)
Lemma manual_crawl_of_failing_url_witness :
  exists w' jobId,
    handleCrawl Demo.failing
      {| Params.url := "https://example.com/down"; Params.mode := Some "manual";
         Params.depth := None; Params.source := None |} (Demo.world (Some ∅))
      = (w', Return {| Reply.success := false; Reply.job_id := Some jobId;
                       Reply.mode := None; Reply.source := None; Reply.result := None;
                       Reply.error :=
                         Some ("All scraping strategies failed. Last error: "
                                 +:+ "API scraping not configured") |})
    /\ scrapeWithAPI "https://example.com/down" w'
       = (w', Throw (Error "API scraping not configured"))
    /\ CACHE w' = CACHE (Demo.world (Some ∅)).
Proof.
  apply (manual_crawl_of_failing_url Demo.failing).
  - reflexivity.
  - reflexivity.
  - reflexivity.
  - cbn. lia.
  - intros t. eexists. split; reflexivity.
  - reflexivity.
Defined.

(** Witness of C4: a document scraped an hour ago is read back; a day
    after it was scraped the lookup misses; and when the chain then
    succeeds the lookup returns the new document. *)
Lemma cache_round_trip_witness :
  let url := "https://example.com/" in
  let d := Demo.doc url [] (1700000000000 - 3600000) in
  let w1 := fst (cacheResult url d (Demo.world (Some ∅))) in
  let later := set_now (1700000000000 + 82800000) w1 in
  checkCache url w1 = (w1, Return (Some d))
  /\ checkCache url later = (later, Return None)
  /\ exists w2 r,
       try_strategies Demo.failing url [Scenario.working] None later = (w2, Return r)
       /\ Doc.title (ScrapeResult.data r) = "Fresh"
       /\ checkCache url w2 = (w2, Return (Some (ScrapeResult.data r))).
Proof.
  intros url d w1 later.
  destruct (cache_round_trip Demo.failing url d (Demo.world (Some ∅)) ∅ eq_refl)
    as (Hnow & _ & Hstale & Hwrite).
  split; [apply Hnow; by vm_compute|].
  split; [apply (Hstale (1700000000000 + 82800000)); by vm_compute|].
  destruct (try_strategies Demo.failing url [Scenario.working] None later)
    as [w2 [r|e]] eqn:Hrun; [|by vm_compute in Hrun].
  exists w2, r. split; [done|]. split.
  - vm_compute in Hrun. by injection Hrun as _ <-.
  - destruct (CACHE w2) as [c|] eqn:Hc.
    + by apply (Hwrite _ _ _ _ Hrun c).
    + vm_compute in Hrun. injection Hrun as <- _. by vm_compute in Hc.
Defined.

(** Counterexample to C7 as stated: a URL that two anchors link to is
    twice in the links. *)
Lemma repeated_link_is_kept :
  Parsed.links
    (parseHTML Demo.failing
       "<a href='https://example.com/a'>one</a> <a href='https://example.com/a'>two</a>")
  = ["https://example.com/a"; "https://example.com/a"].
Proof. by vm_compute. Qed.

(** Counterexample to C6 as stated: a block with a title and no link,
    and a block with a link and no title, are both left out. *)
Lemma block_with_title_only_is_dropped :
  Rss.item_title "<title>Only a title</title>" = "Only a title"
  /\ Rss.item_link "<title>Only a title</title>" = ""
  /\ Rss.parseItem "<title>Only a title</title>" = None
  /\ Rss.item_title "<link>https://news.example.org/9</link>" = ""
  /\ Rss.item_link "<link>https://news.example.org/9</link>" = "https://news.example.org/9"
  /\ Rss.parseItem "<link>https://news.example.org/9</link>" = None
  /\ Feed.items
       (Rss.parseRSSFeed
          ("<rss><channel><title>News</title>"
           +:+ "<item><title>Only a title</title></item>"
           +:+ "<item><link>https://news.example.org/9</link></item>"
           +:+ "</channel></rss>")) = [].
Proof. repeat split; by vm_compute. Qed.

(** Witness of C3: of the three entries, scoring 5, 4 and 7, the check
    at threshold 5 keeps the first and the third, in this order. *)
Lemma feed_check_keeps_scores_at_threshold_witness :
  exists res,
    checkSingleFeed Scenario.feeds "https://feeds.example.org/rss" 5 (Demo.world None)
      = (Demo.world None, Return res)
    /\ (fun item => Item.title (Scored.item item)) <$> FeedCheck.high_score_items res
       = ["Prophecy prophecy"; "Biblical prophecy about end times reveals..."]
    /\ Scored.score <$> FeedCheck.high_score_items res = [(500 # 100)%Q; (700 # 100)%Q].
Proof.
  destruct (feed_check_keeps_scores_at_threshold Scenario.feeds
              "https://feeds.example.org/rss" 5 (Demo.world None)
              {| Response.status := 200; Response.statusText := "";
                 Response.content_type := Some "application/rss+xml";
                 Response.body := Scenario.feed_xml |} eq_refl eq_refl)
    as (res & Hrun & _ & _ & Hhigh & _).
  exists res. split; [exact Hrun|]. rewrite Hhigh. split; by vm_compute.
Defined.

(** Counterexample to C9 as stated: the feed has two entries at or above
    the threshold; the queue refuses the first and would accept the
    second; the second is never sent. *)
Lemma queue_failure_blocks_later_entries :
  (fun item => Item.title (Scored.item item)) <$>
    Rss.high_scoring 5
      (Rss.score_items Demo.config (Feed.items (Rss.parseRSSFeed Scenario.feed_xml)))
  = ["Prophecy prophecy"; "Biblical prophecy about end times reveals..."]
  /\ (forall job, Job.title job = "Biblical prophecy about end times reveals..." ->
        Platform.queue_error Scenario.feeds job = None)
  /\ SCRAPE_QUEUE (fst (checkRSSFeeds Scenario.feeds (Demo.world None))) = []
  /\ snd (checkRSSFeeds Scenario.feeds (Demo.world None))
     = Return {| Summary.feeds_checked := 1;
                 Summary.high_score_items := [];
                 Summary.scrapes_triggered := 0;
                 Summary.errors :=
                   [{| FeedError.feed := "Prophecy News";
                       FeedError.error := "Queue unavailable" |}] |}.
Proof.
  split; [by vm_compute|]. split; [|split; by vm_compute].
  intros job Htitle. cbn. by rewrite Htitle.
Qed.

(** Witness of C9: the queue refuses the first of the two entries at or
    above the threshold; nothing is sent, both entries stay undispatched
    and the feed gets one error. *)
Lemma dispatch_failure_ends_the_feed_witness :
  let feed := {| Config.name := "Prophecy News"; Config.url := "https://feeds.example.org/rss";
                 Config.enabled := true |} in
  let results := {| Summary.feeds_checked := 0; Summary.high_score_items := [];
                    Summary.scrapes_triggered := 0; Summary.errors := [] |} in
  exists (sent rest : list Scored.t) w' results',
    check_feed Scenario.feeds 5 feed results (Demo.world None) = (w', Return results')
    /\ sent = []
    /\ (fun item => Item.title (Scored.item item)) <$> rest
       = ["Prophecy prophecy"; "Biblical prophecy about end times reveals..."]
    /\ SCRAPE_QUEUE w' = []
    /\ Summary.errors results'
       = [{| FeedError.feed := "Prophecy News"; FeedError.error := "Queue unavailable" |}].
Proof.
  intros feed results.
  edestruct (dispatch_failure_ends_the_feed Scenario.feeds 5 feed (@nil Config.Feed) results
               (Demo.world None))
    as (sent & rest & w' & results' & Hrun & Hsplit & Hqueue & _).
  { vm_compute. reflexivity. }
  exists sent, rest, w', results'. split; [exact Hrun|].
  vm_compute in Hrun. injection Hrun as <- <-.
  destruct sent as [|item sent]; [|discriminate Hqueue].
  cbn in Hsplit. subst rest. repeat split; by vm_compute.
Defined.

(* ================================================================== *)
(** * Properties of the further parts *)
(* ================================================================== *)

Lemma only_clock_refl w : only_clock 0 w w.
Proof. unfold only_clock. repeat split; lia. Qed.

Lemma only_clock_trans a b w1 w2 w3 :
  only_clock a w1 w2 -> only_clock b w2 w3 -> only_clock (a + b) w1 w3.
Proof.
  unfold only_clock. intros (? & ? & ? & ? & ?) (? & ? & ? & ? & ?).
  repeat split; try congruence. lia.
Qed.

Lemma backoff_capped sleeps : backoff sleeps 10000 = 10000 * Z.of_nat sleeps.
Proof.
  induction sleeps as [|n IH]; [done|].
  cbn [backoff]. change (Z.min (10000 * 2) 10000) with 10000. rewrite IH. lia.
Qed.

Lemma backoff_closed_form sleeps :
  backoff sleeps 1000 =
    if (sleeps <=? 4)%nat then 1000 * (2 ^ Z.of_nat sleeps - 1)
    else 15000 + 10000 * (Z.of_nat sleeps - 4).
Proof.
  do 5 (destruct sleeps as [|sleeps]; [reflexivity|]).
  change (backoff (S (S (S (S (S sleeps))))) 1000)
    with (1000 + (2000 + (4000 + (8000 + backoff (S sleeps) 10000)))).
  rewrite backoff_capped. cbn [Nat.leb]. lia.
Qed.

Section MoreCrawlerFacts.
Variable P : Platform.t.

Lemma retry_loop_clock {A} (fn : M A) :
  (forall w, exists m, fn w = (w, Throw (Error m))) ->
  forall attempts delay lastError w,
  exists w' e,
    retry_loop fn attempts delay lastError w = (w', Throw e)
    /\ only_clock (backoff (attempts - 1) delay) w w'
    /\ (attempts <> 0%nat -> (exists m, e = Error m) /\ fn w' = (w', Throw e))
    /\ (attempts = 0%nat -> e = lastError /\ w' = w).
Proof.
  intros Hfn attempts. induction attempts as [|n IH]; intros delay lastError w; cbn [retry_loop].
  - unfold throw. do 2 eexists. split; [reflexivity|]. split; [apply only_clock_refl|]. done.
  - unfold try_catch. destruct (Hfn w) as [m Hm]. rewrite Hm. cbn [message_of].
    destruct n as [|n'].
    + cbn. unfold throw. do 2 eexists. split; [reflexivity|].
      split; [apply only_clock_refl|]. split; [eauto|done].
    + unfold bind, sleep.
      destruct (IH (Z.min (delay * 2) 10000) (Error m) (set_now (now w + Z.max 0 delay) w))
        as (w' & e & -> & Hc & He & _).
      do 2 eexists. split; [reflexivity|]. split; [|split; [intros _; by apply He|done]].
      replace (S (S n') - 1)%nat with (S (S n' - 1)) by lia. cbn [backoff].
      eapply only_clock_trans; [|exact Hc].
      unfold only_clock; cbn. repeat split; lia.
Qed.

(** X1 ([retry], utils/helpers.js).  When every attempt throws an error
    and leaves the world as it is, [retry] with at least one attempt
    throws the error of the last attempt.  Between the attempts it has
    slept 1000, 2000, 4000 and 8000 milliseconds and 10000 from then on:
    1000 times (2 ^ (maxRetries - 1) - 1) in all for up to five attempts,
    15000 + 10000 times (maxRetries - 5) for more.  Nothing but the clock
    has changed. *)
Theorem retry_gives_up_after_capped_backoff {A} (fn : M A) (maxRetries : nat) w :
  (forall w0, exists m, fn w0 = (w0, Throw (Error m))) ->
  (0 < maxRetries)%nat ->
  exists w' m,
    retry fn maxRetries w = (w', Throw (Error m))
    /\ fn w' = (w', Throw (Error m))
    /\ now w' = now w + (if (maxRetries <=? 5)%nat
                         then 1000 * (2 ^ (Z.of_nat maxRetries - 1) - 1)
                         else 15000 + 10000 * (Z.of_nat maxRetries - 5))
    /\ CACHE w' = CACHE w
    /\ SCRAPE_QUEUE w' = SCRAPE_QUEUE w
    /\ stored w' = stored w
    /\ draws w' = draws w.
Proof.
  intros Hfn Hpos. unfold retry.
  destruct (retry_loop_clock fn Hfn maxRetries 1000 Undefined w)
    as (w' & e & Hrun & (Hnow & Hc & Hq & Hs & Hd) & He & _).
  destruct He as [[m ->] Hlast]; [lia|].
  exists w', m. repeat split; try done.
  rewrite Hnow, backoff_closed_form. f_equal.
  destruct maxRetries as [|n]; [lia|].
  replace (S n - 1)%nat with n by lia.
  replace (Z.of_nat (S n) - 1) with (Z.of_nat n) by lia.
  cbn [Nat.leb]. destruct (n <=? 4)%nat; lia.
Qed.

Lemma fetch_attempt_fails url w :
  exists m, fetch_attempt P url w = (w, Throw (Error m)).
Proof.
  unfold fetch_attempt, bind, fetch, uninitialized, throw.
  destruct (Platform.network P (now w) url); by eexists.
Qed.

Lemma scrapeWithFetch_outcome url w :
  exists w' e,
    scrapeWithFetch P url w = (w', Throw e)
    /\ only_clock (failure_cost P) w w'
    /\ ((0 < Config.max_retries (Config.scraper (Platform.CONFIG P)))%nat ->
        exists m, e = Error m)
    /\ (Config.max_retries (Config.scraper (Platform.CONFIG P)) = 0%nat ->
        e = Undefined /\ w' = w).
Proof.
  unfold scrapeWithFetch, retry, bind.
  destruct (retry_loop_clock (fetch_attempt P url) (fetch_attempt_fails url)
              (Config.max_retries (Config.scraper (Platform.CONFIG P))) 1000 Undefined w)
    as (w' & e & -> & Hc & He & H0).
  do 2 eexists. split; [reflexivity|]. split; [exact Hc|]. split; [|exact H0].
  intros Hpos. apply He. lia.
Qed.

(** What the chain of the three strategies does: it throws, after the
    waits of [retry]. *)
Lemma strategies_outcome url w :
  exists w' m,
    try_strategies P url (strategies P) None w = (w', Throw (Error m))
    /\ only_clock (failure_cost P) w w'
    /\ ((0 < Config.max_retries (Config.scraper (Platform.CONFIG P)))%nat ->
        m = "All scraping strategies failed. Last error: API scraping not configured")
    /\ (Config.max_retries (Config.scraper (Platform.CONFIG P)) = 0%nat ->
        m = "Cannot read properties of undefined (reading 'message')" /\ w' = w).
Proof.
  unfold strategies. cbn [try_strategies Strategy.fn].
  destruct (scrapeWithFetch_outcome url w) as (w' & e & -> & Hc & He & H0).
  destruct e as [m|]; cbn.
  - do 2 eexists. split; [reflexivity|]. split; [exact Hc|]. split; [done|].
    intros Hz. by destruct (H0 Hz).
  - do 2 eexists. split; [reflexivity|]. split; [exact Hc|]. split.
    + intros Hpos. by destruct (He Hpos).
    + intros Hz. split; [done|]. by destruct (H0 Hz).
Qed.

Lemma scrapeSingleUrl_outcome url w :
  (exists doc,
     checkCache url w = (w, Return (Some doc))
     /\ scrapeSingleUrl P url w
        = (w, Return {| ScrapeResult.success := true; ScrapeResult.cached := true;
                        ScrapeResult.data := doc |}))
  \/ (checkCache url w = (w, Return None)
      /\ exists w' m,
           scrapeSingleUrl P url w = (w', Throw (Error m))
           /\ only_clock (failure_cost P) w w'
           /\ ((0 < Config.max_retries (Config.scraper (Platform.CONFIG P)))%nat ->
               m = "All scraping strategies failed. Last error: API scraping not configured")
           /\ (Config.max_retries (Config.scraper (Platform.CONFIG P)) = 0%nat ->
               m = "Cannot read properties of undefined (reading 'message')" /\ w' = w)).
Proof.
  unfold scrapeSingleUrl, scrapeSingleUrl_with, bind.
  destruct (checkCache_returns url w) as [[doc|] Ho]; rewrite Ho.
  - left. by exists doc.
  - right. split; [done|]. apply strategies_outcome.
Qed.

(** X2 ([scrapeSingleUrl], [scrapeWithFetch], modules/crawler.js).  A
    scrape of one URL either finds the page in the cache and returns it,
    marked as cached, without any effect; or, on a miss, throws an error:
    [scrapeWithFetch] reads [response] before its initialisation, so no
    strategy ever returns a page.  On a miss the scrape has slept the
    waits of [retry] for the configured number of attempts; the cache,
    the queue and the storage are unchanged. *)
Theorem page_comes_from_cache_or_not_at_all url w :
  (exists doc,
     checkCache url w = (w, Return (Some doc))
     /\ scrapeSingleUrl P url w
        = (w, Return {| ScrapeResult.success := true; ScrapeResult.cached := true;
                        ScrapeResult.data := doc |}))
  \/ (checkCache url w = (w, Return None)
      /\ exists w' m,
           scrapeSingleUrl P url w = (w', Throw (Error m))
           /\ now w' = now w
                + backoff (Config.max_retries (Config.scraper (Platform.CONFIG P)) - 1) 1000
           /\ CACHE w' = CACHE w
           /\ SCRAPE_QUEUE w' = SCRAPE_QUEUE w
           /\ stored w' = stored w
           /\ draws w' = draws w).
Proof.
  destruct (scrapeSingleUrl_outcome url w) as [Hhit | (Hmiss & w' & m & Hrun & Hc & _)].
  - by left.
  - right. split; [done|]. exists w', m. split; [done|]. exact Hc.
Qed.

(** X3 ([scrapeSingleUrl], [retry]).  With [max_retries] 0 and the page
    not in the cache, [retry] makes no attempt and throws its
    [lastError], which is [undefined]; reading the [message] of it in the
    handler of the strategy loop throws a TypeError that leaves
    [scrapeSingleUrl] at once: the other two strategies are not tried,
    and the error is not the one of the final [throw]. *)
Theorem zero_retries_skip_the_fallbacks url w :
  Config.max_retries (Config.scraper (Platform.CONFIG P)) = 0%nat ->
  checkCache url w = (w, Return None) ->
  retry (fetch_attempt P url) 0 w = (w, Throw Undefined)
  /\ scrapeSingleUrl P url w
     = (w, Throw (Error "Cannot read properties of undefined (reading 'message')")).
Proof.
  intros Hz Hmiss. split; [reflexivity|].
  destruct (scrapeSingleUrl_outcome url w)
    as [(doc & Hhit & _) | (_ & w' & m & Hrun & _ & _ & H0)]; [congruence|].
  destruct (H0 Hz) as [-> ->]. exact Hrun.
Qed.

(** The rule of the loop, for an invariant that also speaks of the world. *)
Lemma crawl_loop_world_rule (I : Traversal.t -> World -> Prop) domain maxDepth :
  (forall st w url depth queue w' st',
      I st w -> loop_cond P st = true ->
      Traversal.queue st = (url, depth) :: queue ->
      step_case P domain maxDepth st w url depth queue w' st' -> I st' w') ->
  forall st w, I st w ->
  exists w' st',
    crawl_loop P domain maxDepth st w = (w', Return st')
    /\ I st' w' /\ loop_cond P st' = false.
Proof.
  intros Hstep st w.
  cut (forall x : Traversal.t * World, I (fst x) (snd x) ->
         exists w' st', crawl_loop P domain maxDepth (fst x) (snd x) = (w', Return st')
                        /\ I st' w' /\ loop_cond P st' = false).
  { intros H. apply (H (st, w)). }
  intros x. induction x as [[st0 w0] IH] using (well_founded_ind (before_wf P)). cbn [fst snd].
  intros HI. rewrite crawl_loop_unfold.
  destruct (loop_cond P st0) eqn:Hc; [|by do 2 eexists].
  destruct (loop_cond_queue _ _ Hc) as (url & depth & queue & Hq).
  destruct (crawl_step_cases P domain maxDepth st0 w0 url depth queue Hq)
    as (w' & st' & Hs & Hcase).
  rewrite Hs.
  apply (IH (st', w')).
  - by eapply crawl_step_before.
  - by eapply Hstep.
Qed.

Lemma crawl_loop_clock startUrl maxDepth w :
  exists w' st,
    crawl_loop P (extractDomain P startUrl) maxDepth (initial_state startUrl) w
      = (w', Return st)
    /\ crawl_inv P startUrl maxDepth st
    /\ loop_cond P st = false
    /\ only_clock (crawl_cost P st) w w'.
Proof.
  destruct (crawl_loop_world_rule
              (fun st w' => crawl_inv P startUrl maxDepth st /\ only_clock (crawl_cost P st) w w')
              (extractDomain P startUrl) maxDepth) with (st := initial_state startUrl) (w := w)
    as (w' & st & Hloop & [Hinv Hclock] & Hend).
  - intros st w0 url depth queue w' st' [Hinv Hclock] Hc Hq Hcase.
    split; [by eapply crawl_inv_step|].
    destruct Hcase as [Hskip | w1 m Hn Hle Hs | w1 result Hn Hle Hs].
    + exact Hclock.
    + destruct (scrapeSingleUrl_outcome url w0)
        as [(doc & _ & Hhit) | (_ & w2 & m2 & Hrun & Hcost & _)]; [congruence|].
      rewrite Hs in Hrun. injection Hrun as <- _.
      replace (crawl_cost P (after_failure st url depth queue))
        with (crawl_cost P st + failure_cost P).
      * by eapply only_clock_trans.
      * unfold crawl_cost. cbn. rewrite length_app. cbn. lia.
    + destruct (scrapeSingleUrl_outcome url w0)
        as [(doc & _ & Hhit) | (_ & w2 & m2 & Hrun & _)]; [|congruence].
      rewrite Hs in Hhit. injection Hhit as -> _.
      replace (crawl_cost P (after_success P (extractDomain P startUrl) maxDepth st url depth
                             queue (ScrapeResult.data result)))
        with (crawl_cost P st
              + Z.max 0 (Config.delay_between_requests_ms
                           (Config.scraper (Platform.CONFIG P)))).
      * eapply only_clock_trans; [exact Hclock|].
        unfold only_clock. cbn. repeat split; lia.
      * unfold crawl_cost. cbn. rewrite !length_app. cbn. lia.
  - split; [apply crawl_inv_initial|]. unfold crawl_cost. cbn.
    replace (_ * 0 + _ * (0 - 0)) with 0 by lia. apply only_clock_refl.
  - by exists w', st.
Qed.

(** X4 ([crawlRecursive]).  A recursive crawl ends and returns the pages
    it has collected, which are at most as many as the URLs it has
    scraped.  It has slept the delay between requests once for each page
    and the waits of [retry] once for each scrape that failed; the
    cache, the queue and the storage are unchanged. *)
Theorem crawl_sleeps_per_page_and_per_failure startUrl maxDepth w :
  exists w' st r,
    crawl_loop P (extractDomain P startUrl) maxDepth (initial_state startUrl) w
      = (w', Return st)
    /\ crawlRecursive P startUrl maxDepth w = (w', Return r)
    /\ CrawlData.pages (CrawlResult.data r) = Traversal.results st
    /\ (length (Traversal.results st) <= length (Traversal.scraped st))%nat
    /\ now w' = now w
         + Z.max 0 (Config.delay_between_requests_ms (Config.scraper (Platform.CONFIG P)))
           * Z.of_nat (length (Traversal.results st))
         + backoff (Config.max_retries (Config.scraper (Platform.CONFIG P)) - 1) 1000
           * Z.of_nat (length (Traversal.scraped st) - length (Traversal.results st))
    /\ CACHE w' = CACHE w
    /\ SCRAPE_QUEUE w' = SCRAPE_QUEUE w
    /\ stored w' = stored w
    /\ draws w' = draws w.
Proof.
  destruct (crawl_loop_clock startUrl maxDepth w)
    as (w' & st & Hloop & Hinv & _ & Hnow & Hrest).
  destruct Hinv as [_ _ _ Ho Hr _ _ _].
  apply Forall2_length in Hr. apply sublist_length in Ho.
  do 3 eexists. split; [exact Hloop|]. split; [by apply crawlRecursive_unfold|].
  split; [done|]. split; [lia|]. split; [|exact Hrest].
  rewrite Hnow. unfold crawl_cost, failure_cost. rewrite <- Hr.
  rewrite Nat2Z.inj_sub by lia. ring.
Qed.

(** What [handleCrawl] does, mode by mode. *)
Lemma handleCrawl_outcome params w :
  let url := Params.url params in
  let mode := default "manual" (Params.mode params) in
  exists w' reply,
    handleCrawl P params w = (w', Return reply)
    /\ Reply.success reply
       = Js.truthy url && isValidUrl P url
         && (String.eqb mode "auto"
             || (String.eqb mode "manual"
                 && match snd (checkCache url w) with
                    | Return (Some _) => true
                    | _ => false
                    end))
    /\ (if Reply.success reply
        then exists data, stored w' = stored w ++ [data]
        else stored w' = stored w /\ is_Some (Reply.error reply))
    /\ CACHE w' = CACHE w
    /\ SCRAPE_QUEUE w' = SCRAPE_QUEUE w.
Proof.
  intros url mode. unfold handleCrawl. fold url. fold mode.
  destruct (Js.truthy url) eqn:Ht; cbn [negb orb andb];
    [|do 2 eexists; split; [reflexivity|]; cbn; by repeat split].
  destruct (isValidUrl P url) eqn:Hv; cbn [negb orb andb];
    [|do 2 eexists; split; [reflexivity|]; cbn; by repeat split].
  remember (fst (generateJobId P w)) as wj eqn:Hwj.
  assert (Hj : exists jobId, generateJobId P w = (wj, Return jobId) /\ now wj = now w
                             /\ CACHE wj = CACHE w /\ SCRAPE_QUEUE wj = SCRAPE_QUEUE w
                             /\ stored wj = stored w)
    by (subst wj; by eexists).
  destruct Hj as (jobId & Hj & Hnow & Hcache & Hqueue & Hstored). clear Hwj.
  unfold bind at 1. rewrite Hj. unfold try_catch.
  destruct (String.eqb mode "manual") eqn:Hmanual.
  - apply String.eqb_eq in Hmanual. rewrite Hmanual. cbn [String.eqb Ascii.eqb Bool.eqb orb andb].
    pose proof (checkCache_frame url wj w Hnow Hcache) as Hframe.
    unfold bind at 1.
    destruct (scrapeSingleUrl_outcome url wj)
      as [(doc & Hhit & ->) | (Hmiss & w2 & m & -> & (_ & Hc2 & Hq2 & Hs2 & _) & _)].
    + rewrite Hhit in Hframe. cbn in Hframe. rewrite <- Hframe.
      cbn. do 2 eexists. split; [reflexivity|]. cbn.
      split; [done|]. split; [|done]. eexists. by rewrite Hstored.
    + rewrite Hmiss in Hframe. cbn in Hframe. rewrite <- Hframe.
      cbn. do 2 eexists. split; [reflexivity|]. cbn.
      split; [done|]. split; [|split; congruence]. split; [congruence|by eexists].
  - destruct (String.eqb mode "auto") eqn:Hauto.
    + cbn [orb]. unfold bind at 1.
      destruct (crawl_loop_clock url (default 1 (Params.depth params)) wj)
        as (w2 & st & Hloop & _ & _ & (_ & Hc2 & Hq2 & Hs2 & _)).
      rewrite (crawlRecursive_unfold P _ _ _ _ _ Hloop). cbn.
      do 2 eexists. split; [reflexivity|]. cbn.
      split; [done|]. split; [|split; congruence]. eexists. by rewrite Hs2, Hstored.
    + cbn. do 2 eexists. split; [reflexivity|]. cbn.
      split; [done|]. by repeat split.
Qed.


(** X6 ([crawlRecursive]).  With a depth limit of 0 or less a recursive
    crawl follows no link.  At depth 0 it returns the start page alone
    when the cache has it and the page limit allows a page, and no page
    otherwise; below 0 it returns no page and does not scrape the start
    URL: the world is unchanged. *)
Theorem shallow_crawl_stops_at_the_start_page startUrl maxDepth w :
  maxDepth <= 0 ->
  exists w' r,
    crawlRecursive P startUrl maxDepth w = (w', Return r)
    /\ CrawlData.pages (CrawlResult.data r)
       = match snd (checkCache startUrl w) with
         | Return (Some doc) =>
             if (0 <? Config.max_pages_per_domain (Config.scraper (Platform.CONFIG P)))%nat
                && (maxDepth =? 0)
             then [doc] else []
         | _ => []
         end
    /\ (maxDepth < 0 -> w' = w).
Proof.
  intros Hdepth.
  assert (Hloop : exists w' st,
    crawl_loop P (extractDomain P startUrl) maxDepth (initial_state startUrl) w
      = (w', Return st)
    /\ Traversal.results st
       = match snd (checkCache startUrl w) with
         | Return (Some doc) =>
             if (0 <? Config.max_pages_per_domain (Config.scraper (Platform.CONFIG P)))%nat
                && (maxDepth =? 0)
             then [doc] else []
         | _ => []
         end
    /\ (maxDepth < 0 -> w' = w)).
  { rewrite crawl_loop_unfold.
    destruct (loop_cond P (initial_state startUrl)) eqn:Hc.
    - assert (Hcap : (0 <? Config.max_pages_per_domain
                              (Config.scraper (Platform.CONFIG P)))%nat = true).
      { unfold loop_cond in Hc. cbn in Hc. exact Hc. }
      rewrite Hcap. cbn [andb].
      destruct (crawl_step_cases P (extractDomain P startUrl) maxDepth
                  (initial_state startUrl) w startUrl 0 [] eq_refl)
        as (w' & st' & -> & Hcase).
      assert (Hq : Traversal.queue st' = []).
      { destruct Hcase as [Hskip | w2 m Hn Hle Hs | w2 result Hn Hle Hs]; cbn; [done|done|].
        replace (0 <? maxDepth) with false by (symmetry; apply Z.ltb_ge; lia). done. }
      rewrite crawl_loop_unfold. unfold loop_cond. rewrite Hq. cbn [length Nat.eqb negb andb].
      exists w', st'. split; [done|].
      destruct Hcase as [[Hin|Hgt] | w2 m Hn Hle Hs | w2 result Hn Hle Hs].
      + cbn in Hin. by apply elem_of_nil in Hin.
      + replace (maxDepth =? 0) with false by (symmetry; apply Z.eqb_neq; lia).
        cbn. split; [|done]. by destruct (snd (checkCache startUrl w)) as [[doc|]|].
      + split; [|lia].
        destruct (scrapeSingleUrl_outcome startUrl w)
          as [(doc & _ & Hhit) | (Hmiss & _)]; [congruence|].
        rewrite Hmiss. done.
      + split; [|lia].
        destruct (scrapeSingleUrl_outcome startUrl w)
          as [(doc & Hhit & Hrun) | (_ & w3 & m3 & Hrun & _)]; [|congruence].
        rewrite Hs in Hrun. injection Hrun as -> ->. rewrite Hhit. cbn.
        by replace (maxDepth =? 0) with true by (symmetry; apply Z.eqb_eq; lia).
    - exists w, (initial_state startUrl). split; [done|]. split; [|done].
      assert (Hcap : (0 <? Config.max_pages_per_domain
                              (Config.scraper (Platform.CONFIG P)))%nat = false)
        by exact Hc.
      rewrite Hcap. cbn.
      by destruct (snd (checkCache startUrl w)) as [[doc|]|]. }
  destruct Hloop as (w' & st & Hloop & Hres & Hw).
  do 2 eexists. split; [by apply crawlRecursive_unfold|]. by split.
Qed.

(** X7 ([cacheResult], [checkCache]).  Caching a page under one URL does
    not change what the cache answers for another URL, and a later write
    for another URL does not change what it answers for the first. *)
Theorem cache_entries_are_per_url url other d w :
  url <> other ->
  snd (checkCache other (fst (cacheResult url d w))) = snd (checkCache other w)
  /\ forall d', snd (checkCache url (fst (cacheResult other d' (fst (cacheResult url d w)))))
                = snd (checkCache url (fst (cacheResult url d w))).
Proof.
  intros Hne.
  assert (Hkey : forall a b : string, a <> b -> "scrape:" +:+ a <> "scrape:" +:+ b).
  { intros a b Hab Heq. apply Hab. by injection Heq. }
  split; [|intros d'].
  - unfold cacheResult, checkCache.
    destruct (CACHE w) as [cache|] eqn:Hc; cbn; rewrite ?Hc; [|done].
    unfold Kv.get, Kv.put. rewrite lookup_insert_ne by (by apply Hkey).
    destruct (cache !! _) as [e|]; [|done].
    destruct (now w <? Kv.expiration e); [|done]. by destruct (_ <? _).
  - unfold cacheResult, checkCache.
    destruct (CACHE w) as [cache|] eqn:Hc; cbn; rewrite ?Hc; cbn; rewrite ?Hc; [|done].
    unfold Kv.get, Kv.put. rewrite lookup_insert_ne by (apply Hkey; congruence).
    rewrite lookup_insert_eq. cbn.
    destruct (now w <? now w + 24 * 60 * 60 * 1000); [|done]. by destruct (_ <? _).
Qed.

End MoreCrawlerFacts.

Section MoreRssFacts.
Variable P : Platform.t.

Lemma parsed_items_have_title_and_link xmlText :
  Forall (fun item => Item.title item <> "" /\ Item.link item <> "")
         (Feed.items (Rss.parseRSSFeed xmlText)).
Proof.
  cbn [Feed.items Rss.parseRSSFeed].
  apply Forall_forall. intros item Hin.
  apply list_elem_of_omap in Hin as (block & _ & Hblock).
  unfold Rss.parseItem in Hblock.
  destruct (Rss.item_title block) eqn:Ht, (Rss.item_link block) eqn:Hl; cbn in Hblock;
    try discriminate.
  injection Hblock as <-. by cbn.
Qed.

(** A feed check leaves the world as it is; it returns the entries at or
    above the threshold, or throws an [Error]. *)
Lemma checkSingleFeed_outcome feedUrl threshold w :
  (exists res,
     checkSingleFeed P feedUrl threshold w = (w, Return res)
     /\ FeedCheck.feed_url res = feedUrl
     /\ FeedCheck.threshold res = threshold
     /\ Forall (fun item => (threshold <= Scored.score item)%Q
                            /\ Item.title (Scored.item item) <> ""
                            /\ Item.link (Scored.item item) <> "")
               (FeedCheck.high_score_items res)
     /\ (length (FeedCheck.high_score_items res) <= FeedCheck.total_items res)%nat)
  \/ (exists m, checkSingleFeed P feedUrl threshold w = (w, Throw (Error m))).
Proof.
  unfold checkSingleFeed, bind, fetch.
  destruct (Platform.network P (now w) feedUrl) as [m|r]; [right; by eexists|].
  destruct (Response.ok r); cbn; [|right; by eexists].
  left. eexists. split; [reflexivity|]. cbn. split; [done|]. split; [done|].
  pose proof (parsed_items_have_title_and_link (Response.body r)) as Hitems.
  set (items := Feed.items (Rss.parseRSSFeed (Response.body r))) in *.
  split.
  - apply Forall_forall. intros item Hin.
    unfold Rss.high_scoring in Hin.
    apply list_elem_of_In, filter_In in Hin as [Hin Hle].
    apply Qle_bool_iff in Hle. split; [done|].
    apply list_elem_of_In in Hin. unfold Rss.score_items in Hin.
    apply list_elem_of_fmap in Hin as (i & -> & Hi). cbn.
    by eapply Forall_forall in Hitems.
  - unfold Rss.high_scoring, Rss.score_items.
    etrans; [apply sublist_length, filter_sublist|]. by rewrite length_fmap.
Qed.


(** ** The scheduled check *)

Lemma dispatch_items_jobs feed items results w :
  exists sent rest w' results' thrown jobs,
    dispatch_items P feed items results w = (w', (results', thrown))
    /\ items = sent ++ rest
    /\ Summary.high_score_items results' = Summary.high_score_items results ++ sent
    /\ Summary.scrapes_triggered results'
       = (Summary.scrapes_triggered results + length sent)%nat
    /\ Summary.feeds_checked results' = Summary.feeds_checked results
    /\ Summary.errors results' = Summary.errors results
    /\ SCRAPE_QUEUE w' = SCRAPE_QUEUE w ++ jobs
    /\ Forall2 (job_of feed) jobs sent
    /\ stored w' = stored w /\ CACHE w' = CACHE w /\ now w' = now w
    /\ match thrown with
       | None => rest = []
       | Some e => exists m, e = Error m
       end.
Proof.
  revert results w. induction items as [|item items IH]; intros results w.
  - exists [], [], w, results, None, []. cbn. rewrite !app_nil_r.
    repeat split; first [done | lia | constructor].
  - cbn [dispatch_items]. unfold bind at 1.
    destruct (job_for P feed item w) as [w1 [job|e]] eqn:Hjob; [|discriminate].
    assert (Hj : job_of feed job item
                 /\ SCRAPE_QUEUE w1 = SCRAPE_QUEUE w /\ stored w1 = stored w
                 /\ CACHE w1 = CACHE w /\ now w1 = now w).
    { unfold job_for, bind, generateJobId, Date_now, ret in Hjob. cbn in Hjob.
      injection Hjob as <- <-. by repeat split. }
    destruct Hj as (Hjob_of & Hq1 & Hs1 & Hc1 & Hn1).
    unfold queue_send. destruct (Platform.queue_error P job) as [m|] eqn:Herr.
    + exists [], (item :: items), w1, results, (Some (Error m)), []. cbn.
      rewrite !app_nil_r. repeat split; try first [done | lia | constructor].
      by eexists.
    + match goal with
      | |- context [dispatch_items P feed items ?r ?w2] =>
          destruct (IH r w2) as (sent & rest & w' & results' & thrown & jobs & -> & -> & Hh
                                 & Hs & Hf & He & Hq & Hjobs & Hst & Hc & Hn & Ht)
      end.
      cbn in Hh, Hs, Hf, He, Hq, Hst, Hc, Hn.
      exists (item :: sent), rest, w', results', thrown, (job :: jobs).
      repeat split; try done; try congruence.
      * by rewrite Hh, <- app_assoc.
      * rewrite Hs. cbn. lia.
      * rewrite Hq, Hq1, <- app_assoc. done.
      * by constructor.
Qed.

(** What the loop over the feeds adds to the summary and to the queue. *)
Lemma check_feeds_accounting threshold feeds results w :
  exists w' results' sent jobs,
    check_feeds P threshold feeds results w = (w', Return results')
    /\ Summary.high_score_items results' = Summary.high_score_items results ++ sent
    /\ Summary.scrapes_triggered results'
       = (Summary.scrapes_triggered results + length sent)%nat
    /\ SCRAPE_QUEUE w' = SCRAPE_QUEUE w ++ jobs
    /\ Forall2 (fun job item =>
                  (exists feed, feed ∈ feeds /\ job_of feed job item)
                  /\ (threshold <= Scored.score item)%Q
                  /\ Item.title (Scored.item item) <> ""
                  /\ Item.link (Scored.item item) <> "")
               jobs sent
    /\ stored w' = stored w /\ CACHE w' = CACHE w /\ now w' = now w
    /\ (Summary.feeds_checked results <= Summary.feeds_checked results'
        <= Summary.feeds_checked results + length feeds)%nat
    /\ (length (Summary.errors results) <= length (Summary.errors results')
        <= length (Summary.errors results) + length feeds)%nat
    /\ (Summary.feeds_checked results + length (Summary.errors results) + length feeds
        <= Summary.feeds_checked results' + length (Summary.errors results'))%nat.
Proof.
  revert results w. induction feeds as [|feed feeds IH]; intros results w.
  - exists w, results, [], []. cbn. rewrite !app_nil_r.
    repeat split; first [done | lia | constructor].
  - cbn [check_feeds]. unfold bind at 1.
    assert (Hfeed : exists w1 results1 sent1 jobs1,
      check_feed P threshold feed results w = (w1, Return results1)
      /\ Summary.high_score_items results1 = Summary.high_score_items results ++ sent1
      /\ Summary.scrapes_triggered results1
         = (Summary.scrapes_triggered results + length sent1)%nat
      /\ SCRAPE_QUEUE w1 = SCRAPE_QUEUE w ++ jobs1
      /\ Forall2 (fun job item =>
                    job_of feed job item
                    /\ (threshold <= Scored.score item)%Q
                    /\ Item.title (Scored.item item) <> ""
                    /\ Item.link (Scored.item item) <> "")
                 jobs1 sent1
      /\ stored w1 = stored w /\ CACHE w1 = CACHE w /\ now w1 = now w
      /\ (Summary.feeds_checked results <= Summary.feeds_checked results1
          <= S (Summary.feeds_checked results))%nat
      /\ (length (Summary.errors results) <= length (Summary.errors results1)
          <= S (length (Summary.errors results)))%nat
      /\ (S (Summary.feeds_checked results + length (Summary.errors results))
          <= Summary.feeds_checked results1 + length (Summary.errors results1))%nat).
    { unfold check_feed.
      destruct (checkSingleFeed_outcome (Config.url feed) threshold w)
        as [(res & -> & _ & _ & Hhigh & _) | (m & ->)].
      - match goal with
        | |- context [dispatch_items P feed ?items ?r ?w2] =>
            destruct (dispatch_items_jobs feed items r w2)
              as (sent & rest & w1 & results1 & thrown & jobs & -> & Hitems & Hh & Hs & Hf
                  & He & Hq & Hjobs & Hst & Hc & Hn & Ht)
        end.
        cbn in Hh, Hs, Hf, He.
        assert (Hsent : Forall2 (fun job item =>
                    job_of feed job item
                    /\ (threshold <= Scored.score item)%Q
                    /\ Item.title (Scored.item item) <> ""
                    /\ Item.link (Scored.item item) <> "") jobs sent).
        { rewrite Hitems in Hhigh. apply Forall_app in Hhigh as [Hhigh _].
          clear -Hjobs Hhigh. induction Hjobs as [|job item jobs sent Hj Hjobs IH2];
            [constructor|].
          apply Forall_cons in Hhigh as [Hi Hhigh]. constructor; [done|by apply IH2]. }
        destruct thrown as [e|].
        + destruct Ht as [m ->]. cbn.
          exists w1, {| Summary.feeds_checked := Summary.feeds_checked results1;
                        Summary.high_score_items := Summary.high_score_items results1;
                        Summary.scrapes_triggered := Summary.scrapes_triggered results1;
                        Summary.errors :=
                          Summary.errors results1
                            ++ [{| FeedError.feed := Config.name feed;
                                   FeedError.error := m |}] |}, sent, jobs.
          cbn. rewrite length_app, He, Hf. cbn.
          repeat split; first [done | lia].
        + exists w1, results1, sent, jobs. cbn. rewrite He, Hf.
          repeat split; first [done | lia].
      - cbn. do 2 eexists. exists [], []. split; [reflexivity|]. cbn.
        rewrite !app_nil_r, length_app. cbn.
        repeat split; first [done | lia | constructor]. }
    destruct Hfeed as (w1 & results1 & sent1 & jobs1 & -> & Hh1 & Hs1 & Hq1 & Hj1 & Hst1
                       & Hc1 & Hn1 & Hf1 & He1 & Hsum1).
    destruct (IH results1 w1) as (w' & results' & sent & jobs & -> & Hh & Hs & Hq & Hj & Hst
                                  & Hc & Hn & Hf & He & Hsum).
    exists w', results', (sent1 ++ sent), (jobs1 ++ jobs).
    split; [done|]. split; [by rewrite Hh, Hh1, <- app_assoc|].
    split; [rewrite Hs, Hs1, length_app; lia|].
    split; [by rewrite Hq, Hq1, <- app_assoc|].
    split.
    { apply Forall2_app.
      - eapply Forall2_impl; [exact Hj1|]. intros job item (Hjob & Hrest).
        split; [|done]. exists feed. split; [apply list_elem_of_here|done].
      - eapply Forall2_impl; [exact Hj|]. intros job item ((f & Hin & Hjob) & Hrest).
        split; [|done]. exists f. split; [by apply list_elem_of_further|done]. }
    cbn [length]. repeat split; first [congruence | lia].
Qed.

(** X9 ([checkRSSFeeds]).  The scheduled check never throws.  The feeds
    counted as checked are at most as many as the enabled feeds, so are
    the errors, and the two counts together are at least as many: no
    enabled feed goes unaccounted.  The number of scrapes triggered is
    the number of jobs added to the queue and of high-score items
    reported; the summary is stored once; the cache and the clock are
    unchanged. *)
Theorem scheduled_check_accounts_for_every_feed w :
  let feeds := List.filter Config.enabled (Config.rss_feeds (Platform.CONFIG P)) in
  exists w' results jobs,
    checkRSSFeeds P w = (w', Return results)
    /\ SCRAPE_QUEUE w' = SCRAPE_QUEUE w ++ jobs
    /\ Summary.scrapes_triggered results = length jobs
    /\ length (Summary.high_score_items results) = length jobs
    /\ stored w' = stored w ++ [StoredRssCheck (now w) results]
    /\ CACHE w' = CACHE w
    /\ now w' = now w
    /\ (Summary.feeds_checked results <= length feeds)%nat
    /\ (length (Summary.errors results) <= length feeds)%nat
    /\ (length feeds
        <= Summary.feeds_checked results + length (Summary.errors results))%nat.
Proof.
  intros feeds. unfold checkRSSFeeds. fold feeds. unfold bind at 1.
  destruct (check_feeds_accounting (default 5%Q (Platform.RSS_SCORE_THRESHOLD P)) feeds
              {| Summary.feeds_checked := 0; Summary.high_score_items := [];
                 Summary.scrapes_triggered := 0; Summary.errors := [] |} w)
    as (w' & results & sent & jobs & -> & Hh & Hs & Hq & Hj & Hst & Hc & Hn & Hf & He & Hsum).
  cbn in Hh, Hs, Hf, He, Hsum. apply Forall2_length in Hj.
  unfold bind, Date_now, storeResult, ret. cbn.
  do 3 eexists. split; [reflexivity|]. cbn.
  rewrite Hh, Hs, Hst, Hn. repeat split; first [done | lia].
Qed.

(** X10 ([checkRSSFeeds]).  The jobs the scheduled check adds to the
    queue correspond one to one, in order, to the high-score items it
    reports: a job has the link, the title and the score of its item, the
    score reaches the threshold, the link is not empty, the mode is
    manual, the source is rss and the feed name is that of an enabled
    feed of the configuration. *)
Theorem only_qualifying_entries_are_queued w :
  let feeds := List.filter Config.enabled (Config.rss_feeds (Platform.CONFIG P)) in
  let threshold := default 5%Q (Platform.RSS_SCORE_THRESHOLD P) in
  exists w' results jobs,
    checkRSSFeeds P w = (w', Return results)
    /\ SCRAPE_QUEUE w' = SCRAPE_QUEUE w ++ jobs
    /\ Forall2 (fun job item =>
                  Job.url job = Item.link (Scored.item item)
                  /\ Job.title job = Item.title (Scored.item item)
                  /\ Job.score job = Scored.score item
                  /\ (threshold <= Job.score job)%Q
                  /\ Job.url job <> ""
                  /\ Job.mode job = "manual"
                  /\ Job.source job = "rss"
                  /\ exists feed,
                       feed ∈ Config.rss_feeds (Platform.CONFIG P)
                       /\ Config.enabled feed = true
                       /\ Job.feed_name job = Config.name feed)
               jobs (Summary.high_score_items results).
Proof.
  intros feeds threshold. unfold checkRSSFeeds. fold feeds. fold threshold. unfold bind at 1.
  destruct (check_feeds_accounting threshold feeds
              {| Summary.feeds_checked := 0; Summary.high_score_items := [];
                 Summary.scrapes_triggered := 0; Summary.errors := [] |} w)
    as (w' & results & sent & jobs & -> & Hh & _ & Hq & Hj & _).
  cbn in Hh. unfold bind, Date_now, storeResult, ret. cbn.
  do 3 eexists. split; [reflexivity|]. cbn. split; [exact Hq|].
  rewrite Hh. eapply Forall2_impl; [exact Hj|].
  intros job item ((feed & Hin & Hu & Ht & Hs & Hm & Hsrc & Hname) & Hle & Htitle & Hlink).
  repeat split; try done.
  - by rewrite Hs.
  - by rewrite Hu.
  - exists feed. unfold feeds in Hin. apply list_elem_of_In, filter_In in Hin as [Hin Hen].
    by rewrite list_elem_of_In.
Qed.

End MoreRssFacts.

Section WorkerFacts.
Variable P : Platform.t.

(** One message: the crawl it asks for is acknowledged when
    [handleCrawl] replies with [success: true], retried otherwise;
    an acknowledged message has stored one record. *)
Lemma process_outcome job w :
  let url := Job.url job in
  let mode := if Js.truthy (Job.mode job) then Job.mode job else "auto" in
  exists w' d,
    Worker.process P job w = (w', Return d)
    /\ d = (if Js.truthy url && isValidUrl P url
               && (String.eqb mode "auto"
                   || (String.eqb mode "manual"
                       && match snd (checkCache url w) with
                          | Return (Some _) => true
                          | _ => false
                          end))
            then Worker.Ack else Worker.Retry)
    /\ match d with
       | Worker.Ack => exists data, stored w' = stored w ++ [data]
       | Worker.Retry => stored w' = stored w
       end
    /\ CACHE w' = CACHE w
    /\ SCRAPE_QUEUE w' = SCRAPE_QUEUE w.
Proof.
  intros url mode. subst url mode. unfold Worker.process, try_catch, bind.
  destruct (handleCrawl_outcome P (Worker.job_params job) w)
    as (w' & reply & -> & Hok & Hstored & Hc & Hq).
  unfold Worker.job_params, default in Hok.
  cbn [Params.url Params.mode from_option id] in Hok.
  rewrite <- Hok.
  destruct (Reply.success reply); cbn.
  - do 2 eexists. split; [reflexivity|]. by repeat split.
  - do 2 eexists. split; [reflexivity|]. destruct Hstored as [Hstored _]. by repeat split.
Qed.

(** X11 ([queue], index.js).  The queue handler runs a job of the feed
    check in manual mode: it acknowledges the message when the page of
    the entry is in the cache and the link is a valid URL, and asks for a
    retry otherwise, in which case nothing is stored.  The cache is
    unchanged. *)
Theorem feed_job_is_retried_unless_cached feed job item w :
  job_of feed job item ->
  exists w' d,
    Worker.process P job w = (w', Return d)
    /\ d = match snd (checkCache (Item.link (Scored.item item)) w) with
           | Return (Some _) =>
               if isValidUrl P (Item.link (Scored.item item))
                  && Js.truthy (Item.link (Scored.item item))
               then Worker.Ack else Worker.Retry
           | _ => Worker.Retry
           end
    /\ (d = Worker.Retry -> stored w' = stored w)
    /\ CACHE w' = CACHE w.
Proof.
  intros (Hurl & _ & _ & Hmode & _ & _).
  destruct (process_outcome job w) as (w' & d & Hrun & Hd & Hstored & Hc & _).
  rewrite Hmode, Hurl in Hd. cbn [Js.truthy String.eqb Ascii.eqb Bool.eqb orb andb] in Hd.
  exists w', d. split; [exact Hrun|]. split; [|split; [|exact Hc]].
  - rewrite Hd.
    destruct (Js.truthy _), (isValidUrl P _); cbn;
      by destruct (snd (checkCache _ w)) as [[doc|]|].
  - intros ->. exact Hstored.
Qed.

(** X12 ([queue], index.js).  The queue handler never throws: it settles
    every message of a batch, by an acknowledgement or a retry, and the
    storage receives exactly one record for each acknowledged message.
    The cache and the queue are unchanged. *)
Theorem batch_stores_one_record_per_acknowledged_job messages w :
  exists w' ds,
    Worker.queue P messages w = (w', Return ds)
    /\ length ds = length messages
    /\ (length (stored w')
        = length (stored w)
          + length (List.filter (fun d => match d with Worker.Ack => true | _ => false end) ds))%nat
    /\ CACHE w' = CACHE w
    /\ SCRAPE_QUEUE w' = SCRAPE_QUEUE w.
Proof.
  revert w. induction messages as [|job messages IH]; intros w.
  - exists w, []. cbn. repeat split; first [done | lia].
  - cbn [Worker.queue]. unfold bind at 1.
    destruct (process_outcome job w) as (w1 & d & -> & _ & Hstored & Hc1 & Hq1).
    unfold bind at 1.
    destruct (IH w1) as (w' & ds & -> & Hlen & Hst & Hc & Hq).
    cbn. do 2 eexists. split; [reflexivity|]. cbn [length List.filter].
    split; [by rewrite Hlen|]. split; [|split; congruence].
    rewrite Hst. destruct d.
    + destruct Hstored as [data ->]. rewrite length_app. cbn. lia.
    + rewrite Hstored. lia.
Qed.

End WorkerFacts.

Section RateLimiterFacts.
Import RateLimiter.
Variable refused : Op -> bool.

Lemma ceil_seconds_covers ms : ms <= ceil_seconds ms * 1000.
Proof.
  unfold ceil_seconds.
  pose proof (Z.div_mod (- ms) 1000 ltac:(lia)) as Hdm.
  pose proof (Z.mod_pos_bound (- ms) 1000 ltac:(lia)) as Hb.
  lia.
Qed.

(** Inside a window that has been started and whose counter is [n]: the
    next requests before the reset are allowed until the counter has
    reached the limit, and refused from then on. *)
Lemma serve_inside_window kv clientId limit window reset n expiry times :
  (forall op, refused op = false) ->
  kv !! ("rate_limit:" +:+ clientId)
    = Some {| value := {| count := n; reset_at := reset |}; expiration := expiry |} ->
  reset <= expiry ->
  Forall (fun t => t < reset) times ->
  0 <= n ->
  allowed <$> serve refused (Some kv) clientId limit window times
  = (fun i => bool_decide (n + Z.of_nat i < limit)) <$> seq 0 (length times)
  /\ remaining <$> serve refused (Some kv) clientId limit window times
     = (fun i => Z.max 0 (limit - n - 1 - Z.of_nat i)) <$> seq 0 (length times).
Proof.
  intros Hok. revert kv n expiry.
  induction times as [|t times IH]; intros kv n expiry Hkv Hexp Htimes Hn; [done|].
  apply Forall_cons in Htimes as [Ht Htimes].
  cbn [serve]. unfold checkLimit. rewrite Hok. unfold get. rewrite Hkv.
  cbn [value expiration].
  replace (t <? expiry) with true by (symmetry; apply Z.ltb_lt; lia).
  cbn [reset_at count].
  replace (reset <=? t) with false by (symmetry; apply Z.leb_gt; lia).
  cbn [length seq fmap list_fmap].
  rewrite <- !seq_shift, <- !list_fmap_compose.
  destruct (limit <=? n) eqn:Hfull.
  - apply Z.leb_le in Hfull. cbn.
    destruct (IH kv n expiry Hkv Hexp Htimes Hn) as [-> ->]. split.
    + f_equal; [symmetry; apply bool_decide_eq_false; lia|].
      apply list_fmap_ext. intros i x _. cbn.
      rewrite !bool_decide_eq_false_2; [done| lia | lia].
    + f_equal; [lia|]. apply list_fmap_ext. intros i x _. cbn. lia.
  - apply Z.leb_gt in Hfull. rewrite Hok. cbn.
    destruct (IH (put kv ("rate_limit:" +:+ clientId) {| count := n + 1; reset_at := reset |}
                    (ceil_seconds (reset - t)) t)
                (n + 1) (t + ceil_seconds (reset - t) * 1000)) as [-> ->].
    + unfold put. by rewrite lookup_insert_eq.
    + pose proof (ceil_seconds_covers (reset - t)). lia.
    + done.
    + lia.
    + split.
      * f_equal; [symmetry; apply bool_decide_eq_true; lia|].
        apply list_fmap_ext. intros i x _. cbn. apply bool_decide_ext. lia.
      * f_equal; [lia|]. apply list_fmap_ext. intros i x _. cbn. lia.
Qed.

(** Once the window is over, the next request starts a new one. *)
Lemma serve_after_window kv clientId limit window reset n expiry times t1 :
  (forall op, refused op = false) ->
  kv !! ("rate_limit:" +:+ clientId)
    = Some {| value := {| count := n; reset_at := reset |}; expiration := expiry |} ->
  reset <= expiry ->
  Forall (fun t => t < reset) times ->
  reset <= t1 ->
  last (serve refused (Some kv) clientId limit window (times ++ [t1]))
  = Some {| allowed := true; remaining := limit - 1; reset_in := window |}.
Proof.
  intros Hok. revert kv n expiry.
  induction times as [|t times IH]; intros kv n expiry Hkv Hexp Htimes Ht1.
  - cbn [app serve]. unfold checkLimit. rewrite Hok. unfold get. rewrite Hkv.
    cbn [value expiration]. unfold start_window. rewrite Hok.
    destruct (t1 <? expiry); [|done].
    cbn [reset_at]. by replace (reset <=? t1) with true by (symmetry; apply Z.leb_le; lia).
  - apply Forall_cons in Htimes as [Ht Htimes].
    cbn [app serve]. unfold checkLimit. rewrite Hok. unfold get. rewrite Hkv.
    cbn [value expiration].
    replace (t <? expiry) with true by (symmetry; apply Z.ltb_lt; lia).
    cbn [reset_at count].
    replace (reset <=? t) with false by (symmetry; apply Z.leb_gt; lia).
    destruct (limit <=? n).
    + rewrite last_cons. by rewrite (IH kv n expiry Hkv Hexp Htimes Ht1).
    + rewrite Hok. rewrite last_cons.
      rewrite (IH (put kv ("rate_limit:" +:+ clientId) {| count := n + 1; reset_at := reset |}
                     (ceil_seconds (reset - t)) t)
                 (n + 1) (t + ceil_seconds (reset - t) * 1000)); try done.
      * unfold put. by rewrite lookup_insert_eq.
      * pose proof (ceil_seconds_covers (reset - t)). lia.
Qed.

(** X13 ([RateLimiter.checkLimit], utils/rate_limiter.js).  When the
    store answers every call and holds no counter for the client, the
    requests of one window are allowed until the limit is reached and
    refused from then on: the first request is allowed, even with a limit
    below 1; request i + 2 is allowed exactly when i + 1 is below the
    limit; the remaining count goes down from limit - 1 to 0; and with a
    limit of at least 1 the allowed requests are as many as the limit, or
    all of them when they are fewer.  The first request after the window
    is allowed again, with the count of a new window. *)
Theorem limiter_allows_limit_requests_per_window kv clientId limit window t0 times :
  (forall op, refused op = false) ->
  get kv ("rate_limit:" +:+ clientId) t0 = None ->
  0 <= window ->
  Forall (fun t => t < t0 + window * 1000) times ->
  allowed <$> serve refused (Some kv) clientId limit window (t0 :: times)
  = true :: ((fun i => bool_decide (1 + Z.of_nat i < limit)) <$> seq 0 (length times))
  /\ remaining <$> serve refused (Some kv) clientId limit window (t0 :: times)
     = (limit - 1) :: ((fun i => Z.max 0 (limit - 2 - Z.of_nat i)) <$> seq 0 (length times))
  /\ (1 <= limit ->
      length (List.filter allowed
                (serve refused (Some kv) clientId limit window (t0 :: times)))
      = Z.to_nat (Z.min limit (1 + Z.of_nat (length times))))
  /\ (forall t1, t0 + window * 1000 <= t1 ->
      last (serve refused (Some kv) clientId limit window (t0 :: times ++ [t1]))
      = Some {| allowed := true; remaining := limit - 1; reset_in := window |}).
Proof.
  intros Hok Hfresh Hwindow Htimes.
  assert (Hnext : forall t1, t0 + window * 1000 <= t1 ->
      last (serve refused (Some kv) clientId limit window (t0 :: times ++ [t1]))
      = Some {| allowed := true; remaining := limit - 1; reset_in := window |}).
  { intros t1 Ht1. cbn [serve]. unfold checkLimit. rewrite Hok, Hfresh. unfold start_window.
    rewrite Hok. rewrite last_cons.
    rewrite (serve_after_window
               (put kv ("rate_limit:" +:+ clientId)
                  {| count := 1; reset_at := t0 + window * 1000 |} window t0)
               clientId limit window (t0 + window * 1000) 1 (t0 + window * 1000) times t1 Hok);
      try done; try lia.
    unfold put. by rewrite lookup_insert_eq. }
  assert (Hrun :
    allowed <$> serve refused (Some kv) clientId limit window (t0 :: times)
    = true :: ((fun i => bool_decide (1 + Z.of_nat i < limit)) <$> seq 0 (length times))
    /\ remaining <$> serve refused (Some kv) clientId limit window (t0 :: times)
       = (limit - 1)
           :: ((fun i => Z.max 0 (limit - 2 - Z.of_nat i)) <$> seq 0 (length times))).
  { cbn [serve]. unfold checkLimit. rewrite Hok, Hfresh. unfold start_window.
    rewrite Hok. cbn [fmap list_fmap allowed remaining].
    destruct (serve_inside_window
                (put kv ("rate_limit:" +:+ clientId)
                   {| count := 1; reset_at := t0 + window * 1000 |} window t0)
                clientId limit window (t0 + window * 1000) 1 (t0 + window * 1000) times Hok)
      as [-> ->]; try done; try lia.
    - unfold put. by rewrite lookup_insert_eq.
    - split; [done|]. f_equal. apply list_fmap_ext. intros i x _. cbn. lia. }
  destruct Hrun as [Hallowed Hremaining].
  split; [exact Hallowed|]. split; [exact Hremaining|]. split; [|exact Hnext].
  intros Hlimit.
  transitivity (length (List.filter id
    (allowed <$> serve refused (Some kv) clientId limit window (t0 :: times)))).
  { generalize (serve refused (Some kv) clientId limit window (t0 :: times)).
    intros l. induction l as [|v l IHl]; [done|]. cbn.
    unfold id at 1. destruct (allowed v); cbn; by rewrite IHl. }
  rewrite Hallowed. cbn [List.filter id length].
  generalize (length times). intros k.
  assert (Hcount : forall k start,
            length (List.filter id
              ((fun i => bool_decide (1 + Z.of_nat i < limit)) <$> seq start k))
            = Z.to_nat (Z.max 0 (Z.min (limit - 1 - Z.of_nat start) (Z.of_nat k)))).
  { clear -Hlimit. intros k. induction k as [|k IH]; intros start; cbn; [lia|].
    unfold id at 1.
    destruct (bool_decide (1 + Z.of_nat start < limit)) eqn:Hb.
    - apply bool_decide_eq_true in Hb. cbn [length]. rewrite IH. lia.
    - apply bool_decide_eq_false in Hb. rewrite IH. lia. }
  rewrite Hcount. lia.
Qed.

End RateLimiterFacts.

#[local] Arguments String.append !s1 s2 : simpl nomatch.

Lemma string_length_app (a b : string) :
  String.length (a +:+ b) = (String.length a + String.length b)%nat.
Proof. induction a as [|c a IH]; cbn; [done|]. by rewrite IH. Qed.

Lemma take_all n s : (String.length s <= n)%nat -> Js.take n s = s.
Proof.
  revert s. induction n as [|n IH]; intros [|c s]; cbn; intros Hlen; try done; try lia.
  f_equal. apply IH. lia.
Qed.

Lemma take_length_exact n s :
  (n <= String.length s)%nat -> String.length (Js.take n s) = n.
Proof.
  revert s. induction n as [|n IH]; intros [|c s]; cbn; intros Hlen; try done; try lia.
  f_equal. apply IH. lia.
Qed.

Lemma take_prefix n s : exists rest, s = Js.take n s +:+ rest.
Proof.
  revert s. induction n as [|n IH]; intros [|c s]; cbn; try by eexists.
  destruct (IH s) as [rest Hrest]. exists rest. by rewrite <- Hrest.
Qed.

(** X14 ([truncate], utils/helpers.js).  For a bound of at least 3 the
    truncated text is never longer than the bound; a text within the
    bound is returned as it is; a longer one is cut to its first
    maxLength - 3 characters, followed by three dots. *)
Theorem truncate_fits_the_bound text maxLength :
  3 <= maxLength ->
  Z.of_nat (String.length (Util.truncate text maxLength)) <= maxLength
  /\ (Z.of_nat (String.length text) <= maxLength -> Util.truncate text maxLength = text)
  /\ (maxLength < Z.of_nat (String.length text) ->
      exists kept rest,
        text = kept +:+ rest
        /\ Util.truncate text maxLength = kept +:+ "..."
        /\ Z.of_nat (String.length kept) = maxLength - 3).
Proof.
  intros Hmax. unfold Util.truncate.
  destruct (Z.of_nat (String.length text) <=? maxLength) eqn:Hfit.
  - apply Z.leb_le in Hfit. split; [done|]. split; [done|lia].
  - apply Z.leb_gt in Hfit.
    assert (Hlen : String.length (Js.take (Z.to_nat (maxLength - 3)) text)
                   = Z.to_nat (maxLength - 3)) by (apply take_length_exact; lia).
    split; [rewrite string_length_app, Hlen; cbn; lia|]. split; [lia|].
    intros _. destruct (take_prefix (Z.to_nat (maxLength - 3)) text) as [rest Hrest].
    exists (Js.take (Z.to_nat (maxLength - 3)) text), rest.
    split; [done|]. split; [done|]. rewrite Hlen. lia.
Qed.

(** ** The summary *)

Lemma rev_string_length acc s :
  String.length (Js.rev_string acc s) = (String.length acc + String.length s)%nat.
Proof.
  revert acc. induction s as [|c s IH]; intros acc; cbn; [lia|].
  rewrite IH. cbn. lia.
Qed.

Lemma drop_spaces_length s : (String.length (Js.drop_spaces s) <= String.length s)%nat.
Proof.
  induction s as [|c s IH]; cbn; [done|]. destruct (Js.is_space c); cbn; lia.
Qed.

Lemma trim_length s : (String.length (Js.trim s) <= String.length s)%nat.
Proof.
  unfold Js.trim. rewrite rev_string_length. cbn.
  etrans; [apply drop_spaces_length|]. rewrite rev_string_length. cbn.
  apply drop_spaces_length.
Qed.

Lemma drop_spaces_snoc s c :
  Js.is_space c = false ->
  exists kept,
    Js.drop_spaces (s +:+ String c "") = kept +:+ String c ""
    /\ (String.length kept <= String.length s)%nat.
Proof.
  intros Hc. induction s as [|a s IH]; cbn.
  - rewrite Hc. by exists "".
  - destruct (Js.is_space a).
    + destruct IH as (kept & -> & Hlen). exists kept. split; [done|lia].
    + exists (String a s). by split.
Qed.

Lemma rev_string_app acc s : Js.rev_string acc s = Js.rev_string "" s +:+ acc.
Proof.
  revert acc. induction s as [|c s IH]; intros acc; cbn; [done|].
  rewrite (IH (String c acc)), (IH (String c "")).
  generalize (Js.rev_string "" s). intros r. induction r as [|x r IHr]; cbn; [done|].
  by rewrite IHr.
Qed.

Lemma rev_string_snoc acc s c :
  Js.rev_string acc (s +:+ String c "") = String c (Js.rev_string acc s).
Proof.
  revert acc. induction s as [|a s IH]; intros acc; cbn; [done|]. apply IH.
Qed.

Lemma rev_string_involutive s : Js.rev_string "" (Js.rev_string "" s) = s.
Proof.
  induction s as [|c s IH]; cbn; [done|].
  rewrite (rev_string_app (String c "")), rev_string_snoc. by rewrite IH.
Qed.

(** Trimming keeps a last code unit that is not white space. *)
Lemma trim_snoc s c :
  Js.is_space c = false ->
  exists kept,
    Js.trim (s +:+ String c "") = kept +:+ String c ""
    /\ (String.length kept <= String.length s)%nat.
Proof.
  intros Hc. unfold Js.trim.
  destruct (drop_spaces_snoc s c Hc) as (kept & -> & Hlen).
  rewrite rev_string_snoc. cbn. rewrite Hc.
  exists kept. split; [|done]. cbn.
  by rewrite (rev_string_app (String c "")), rev_string_involutive.
Qed.

Lemma take_take n m s : (n <= m)%nat -> Js.take n (Js.take m s) = Js.take n s.
Proof.
  revert m s. induction n as [|n IH]; intros [|m] [|c s] Hle; cbn; try done; try lia.
  f_equal. apply IH. lia.
Qed.

Lemma lastIndexOf_from_spec c s i found :
  let r := Markdown.lastIndexOf_from i found c s in
  r = found
  \/ (i <= r < i + Z.of_nat (String.length s)
      /\ exists kept, Js.take (Z.to_nat (r - i + 1)) s = kept +:+ String c "").
Proof.
  revert i found. induction s as [|a s IH]; intros i found; cbn; [by left|].
  destruct (IH (i + 1) (if Ascii.eqb a c then i else found)) as [Hr | (Hr & kept & Hkept)].
  - destruct (Ascii.eqb a c) eqn:Hac; [|by left].
    apply Ascii.eqb_eq in Hac as ->. right. rewrite Hr. split; [lia|].
    exists "". by replace (i - i + 1) with 1 by lia.
  - right. split; [lia|]. exists (String a kept).
    set (r := Markdown.lastIndexOf_from _ _ _ _) in *.
    replace (Z.to_nat (r - i + 1)) with (S (Z.to_nat (r - (i + 1) + 1))) by lia.
    cbn. by rewrite Hkept.
Qed.

Lemma lastIndexOf_spec s c :
  Markdown.lastIndexOf s c = -1
  \/ (0 <= Markdown.lastIndexOf s c < Z.of_nat (String.length s)
      /\ exists kept,
           Js.take (Z.to_nat (Markdown.lastIndexOf s c + 1)) s = kept +:+ String c "").
Proof.
  destruct (lastIndexOf_from_spec c s 0 (-1)) as [H | (H & kept & Hkept)]; [by left|].
  right. split; [exact H|]. exists kept.
  by replace (Markdown.lastIndexOf s c + 1) with (Markdown.lastIndexOf s c - 0 + 1) by lia.
Qed.

(** ** The product with the double 0.7 *)

Lemma round53_near p :
  0 <= p < 2 ^ 102 ->
  0 <= Markdown.round53 p /\ p - 2 ^ 49 < Markdown.round53 p <= p + 2 ^ 49.
Proof.
  intros [Hpos Hlt]. unfold Markdown.round53.
  destruct (Z.log2 p - 52 <=? 0) eqn:Hshift; [lia|].
  apply Z.leb_gt in Hshift.
  assert (Hp : 0 < p) by (destruct (Z.eq_dec p 0) as [->|]; [done|lia]).
  assert (Hlog : Z.log2 p < 102) by (by apply Z.log2_lt_pow2).
  set (shift := Z.log2 p - 52) in *.
  rewrite Z.shiftr_div_pow2, !Z.shiftl_mul_pow2 by lia.
  assert (Hpow : 0 < 2 ^ shift <= 2 ^ 49).
  { split; [apply Z.pow_pos_nonneg; lia|apply Z.pow_le_mono_r; lia]. }
  pose proof (Z.div_mod p (2 ^ shift) ltac:(lia)) as Hdiv.
  pose proof (Z.mod_pos_bound p (2 ^ shift) ltac:(lia)) as Hmod.
  assert (Hq : 0 <= p / 2 ^ shift) by (apply Z.div_pos; lia).
  set (T := 2 ^ shift) in *. set (q := p / T) in *.
  destruct (_ || _); nia.
Qed.

(** Away from the mark of seventy percent the test in doubles is the
    test in integers. *)
Lemma above_seven_tenths_spec breakPoint maxLength :
  Z.of_nat maxLength < 2 ^ 49 ->
  (7 * Z.of_nat maxLength < 10 * breakPoint ->
   Markdown.above_seven_tenths breakPoint maxLength = true)
  /\ (10 * breakPoint < 7 * Z.of_nat maxLength ->
      Markdown.above_seven_tenths breakPoint maxLength = false).
Proof.
  intros Hn. unfold Markdown.above_seven_tenths, Markdown.seven_tenths.
  destruct (round53_near (Z.of_nat maxLength * 6305039478318694)) as (_ & Hlo & Hhi).
  { change (2 ^ 49) with 562949953421312 in Hn.
    change (2 ^ 102) with 5070602400912917605986812821504. lia. }
  change (2 ^ 49) with 562949953421312 in *.
  change (2 ^ 53) with 9007199254740992.
  split; intros H; [apply Z.ltb_lt | apply Z.ltb_ge]; lia.
Qed.

Lemma above_seven_tenths_pos breakPoint maxLength :
  Markdown.above_seven_tenths breakPoint maxLength = true -> 0 < breakPoint.
Proof.
  unfold Markdown.above_seven_tenths. intros H%Z.ltb_lt.
  assert (Hround : 0 <= Markdown.round53 (Z.of_nat maxLength * Markdown.seven_tenths)).
  { unfold Markdown.round53.
    assert (Hp : 0 <= Z.of_nat maxLength * Markdown.seven_tenths)
      by (unfold Markdown.seven_tenths; lia).
    destruct (_ <=? 0) eqn:Hshift; [done|]. apply Z.leb_gt in Hshift.
    apply Z.shiftl_nonneg.
    assert (0 <= Z.shiftr (Z.of_nat maxLength * Markdown.seven_tenths)
                   (Z.log2 (Z.of_nat maxLength * Markdown.seven_tenths) - 52))
      by (by apply Z.shiftr_nonneg).
    destruct (_ || _); lia. }
  change (2 ^ 53) with 9007199254740992 in H. lia.
Qed.

(** The summary of a content longer than [maxLength], on either side of
    the test. *)
Lemma generateSummary_long content maxLength :
  (maxLength < String.length content)%nat ->
  let breakPoint := Markdown.breakPoint (Js.take maxLength content) in
  Markdown.generateSummary content maxLength
  = Js.trim (if Markdown.above_seven_tenths breakPoint maxLength
             then Js.take (Z.to_nat (breakPoint + 1)) content
             else Js.take maxLength content +:+ "...").
Proof.
  intros Hlong breakPoint. unfold Markdown.generateSummary.
  replace (String.length content <=? maxLength)%nat with false
    by (symmetry; apply Nat.leb_gt; lia).
  by destruct content as [|c0 content0]; [cbn in Hlong; lia|].
Qed.

Lemma breakPoint_spec summary :
  0 < Markdown.breakPoint summary ->
  Markdown.breakPoint summary < Z.of_nat (String.length summary)
  /\ exists kept c,
       Js.take (Z.to_nat (Markdown.breakPoint summary + 1)) summary = kept +:+ String c ""
       /\ (c = "."%char \/ c = "!"%char \/ c = "?"%char).
Proof.
  unfold Markdown.breakPoint. intros Hpos.
  destruct (lastIndexOf_spec summary ".") as [H1 | (H1 & k1 & Hk1)],
           (lastIndexOf_spec summary "!") as [H2 | (H2 & k2 & Hk2)],
           (lastIndexOf_spec summary "?") as [H3 | (H3 & k3 & Hk3)];
    (split; [lia|]);
    destruct (Z.max_spec (Markdown.lastIndexOf summary ".")
                         (Markdown.lastIndexOf summary "!")) as [[_ Ha]|[_ Ha]];
    destruct (Z.max_spec (Z.max (Markdown.lastIndexOf summary ".")
                                (Markdown.lastIndexOf summary "!"))
                         (Markdown.lastIndexOf summary "?")) as [[_ Hb]|[_ Hb]];
    rewrite Hb, ?Ha in *; try lia; eauto 6.
Qed.

Lemma generateSummary_end content maxLength :
  (maxLength < String.length content)%nat ->
  (String.length (Markdown.generateSummary content maxLength) <= maxLength + 3)%nat
  /\ exists kept c,
       Markdown.generateSummary content maxLength = kept +:+ String c ""
       /\ (c = "."%char \/ c = "!"%char \/ c = "?"%char).
Proof.
  intros Hlong. rewrite (generateSummary_long content maxLength Hlong).
  set (summary := Js.take maxLength content).
  assert (Hsummary : String.length summary = maxLength)
    by (apply take_length_exact; lia).
  destruct (Markdown.above_seven_tenths (Markdown.breakPoint summary) maxLength) eqn:Hcut.
  - apply above_seven_tenths_pos in Hcut.
    destruct (breakPoint_spec summary Hcut) as (Hlt & kept & c & Hkept & Hc).
    rewrite Hsummary in Hlt.
    unfold summary in Hkept at 2. rewrite take_take in Hkept by lia. rewrite Hkept.
    assert (Hns : Js.is_space c = false) by (destruct Hc as [->|[->| ->]]; reflexivity).
    destruct (trim_snoc kept c Hns) as (kept' & -> & Hlen).
    assert (Hklen : (String.length (kept +:+ String c "")
                     <= Z.to_nat (Markdown.breakPoint summary + 1))%nat)
      by (rewrite <- Hkept; apply take_length).
    rewrite string_length_app in Hklen |- *. cbn in Hklen |- *.
    split; [lia|]. by exists kept', c.
  - change (summary +:+ "...") with (summary +:+ ".." +:+ String "." "").
    replace (summary +:+ ".." +:+ String "."%char "")
      with ((summary +:+ "..") +:+ String "."%char "").
    2:{ clear. induction summary as [|a s IH]; cbn; [done|]. by rewrite IH. }
    destruct (trim_snoc (summary +:+ "..") "." eq_refl) as (kept' & -> & Hlen).
    rewrite string_length_app in Hlen |- *. cbn in Hlen |- *.
    split; [lia|]. exists kept', "."%char. by split; [|left].
Qed.

(** X15 ([generateSummary], modules/markdown_converter.js).  A summary
    is at most maxLength + 3 characters long; a content within maxLength
    is its own summary; the summary of a longer content ends in a full
    stop, an exclamation mark or a question mark.  For maxLength below
    2 ^ 49 the longer content is cut after the last end of a sentence
    among its first maxLength characters when the index of that end is
    above seven tenths of maxLength, and is cut at maxLength and given
    three dots when the index is below (or there is no such end).  On
    the mark itself the product maxLength * 0.7 in doubles decides: it
    is below 63 for maxLength 90, where the content is cut after index
    63, and it is 7 for maxLength 10, where index 7 does not cut. *)
Theorem summary_is_bounded_and_ends_a_sentence content maxLength :
  (String.length (Markdown.generateSummary content maxLength) <= maxLength + 3)%nat
  /\ ((String.length content <= maxLength)%nat ->
      Markdown.generateSummary content maxLength = content)
  /\ ((maxLength < String.length content)%nat ->
      exists kept c,
        Markdown.generateSummary content maxLength = kept +:+ String c ""
        /\ (c = "."%char \/ c = "!"%char \/ c = "?"%char))
  /\ ((maxLength < String.length content)%nat ->
      Z.of_nat maxLength < 2 ^ 49 ->
      let breakPoint := Markdown.breakPoint (Js.take maxLength content) in
      (7 * Z.of_nat maxLength < 10 * breakPoint ->
       Markdown.generateSummary content maxLength
       = Js.trim (Js.take (Z.to_nat (breakPoint + 1)) content))
      /\ (10 * breakPoint < 7 * Z.of_nat maxLength ->
          Markdown.generateSummary content maxLength
          = Js.trim (Js.take maxLength content +:+ "...")))
  /\ Markdown.above_seven_tenths 63 90 = true
  /\ Markdown.above_seven_tenths 7 10 = false.
Proof.
  assert (Hshort : (String.length content <= maxLength)%nat ->
                   Markdown.generateSummary content maxLength = content).
  { intros Hfit%Nat.leb_le. unfold Markdown.generateSummary.
    by rewrite Hfit, orb_true_r. }
  split; [|split; [exact Hshort|split; [|split; [|split; by vm_compute]]]].
  - destruct (Nat.le_gt_cases (String.length content) maxLength) as [Hfit|Hlong].
    + rewrite (Hshort Hfit). lia.
    + by destruct (generateSummary_end content maxLength Hlong).
  - intros Hlong. by destruct (generateSummary_end content maxLength Hlong).
  - intros Hlong Hn breakPoint.
    destruct (above_seven_tenths_spec breakPoint maxLength Hn) as [Hcut Hkeep].
    rewrite (generateSummary_long content maxLength Hlong). fold breakPoint.
    split; intros H; [by rewrite (Hcut H) | by rewrite (Hkeep H)].
Qed.

(** ** The similarity of two texts *)

Lemma split_not_empty icase r s : Util.split icase r s <> [].
Proof.
  unfold Util.split. destruct (Re.scan _ _ _ _ _) as [ms tl].
  by destruct (Re.skipped <$> ms).
Qed.

Lemma words_not_empty text : (0 < size (Util.words text))%nat.
Proof.
  unfold Util.words.
  destruct (Util.split false Rss.spaces_re (Js.toLowerCase text)) as [|x l] eqn:Hsplit.
  - by apply split_not_empty in Hsplit.
  - cbn. cut (size (({[x]} : gset string) ∪ list_to_set l) <> 0%nat); [lia|].
    apply size_non_empty_iff. intros Hempty.
    apply (not_elem_of_empty (C := gset string) x). rewrite <- Hempty.
    apply elem_of_union_l. by apply elem_of_singleton.
Qed.

(** X16 ([calculateSimilarity], utils/helpers.js).  The similarity of
    two texts never divides by zero (the union of the two sets of words
    is not empty), lies between 0 and 1, is symmetric, is 1 for a text
    and itself, and is 1 exactly when the two texts have the same set of
    words. *)
Theorem similarity_is_a_symmetric_ratio text1 text2 :
  (0 < size (Util.words text1 ∪ Util.words text2))%nat
  /\ (0 <= Util.calculateSimilarity text1 text2 <= 1)%Q
  /\ Util.calculateSimilarity text1 text2 = Util.calculateSimilarity text2 text1
  /\ (Util.calculateSimilarity text1 text1 == 1)%Q
  /\ ((Util.calculateSimilarity text1 text2 == 1)%Q
      <-> Util.words text1 = Util.words text2).
Proof.
  set (s1 := Util.words text1). set (s2 := Util.words text2).
  assert (Hinter : forall a b : gset string, filter (fun x => x ∈ b) a = a ∩ b).
  { intros a b. apply set_eq. intros x.
    rewrite elem_of_filter, elem_of_intersection. tauto. }
  assert (Hsim : forall t1 t2,
            Util.calculateSimilarity t1 t2
            = (inject_Z (Z.of_nat (size (Util.words t1 ∩ Util.words t2)))
               / inject_Z (Z.of_nat (size (Util.words t1 ∪ Util.words t2))))%Q).
  { intros t1 t2. unfold Util.calculateSimilarity. by rewrite Hinter. }
  assert (Hself : forall a : gset string,
            (0 < size a)%nat ->
            (inject_Z (Z.of_nat (size (a ∩ a))) / inject_Z (Z.of_nat (size (a ∪ a))) == 1)%Q).
  { intros a Ha. rewrite (idemp_L (∩) a), (idemp_L (∪) a).
    apply Qmult_inv_r. unfold Qeq, inject_Z. cbn. lia. }
  assert (Hunion : (0 < size (s1 ∪ s2))%nat).
  { pose proof (words_not_empty text1) as H1. fold s1 in H1.
    pose proof (subseteq_size s1 (s1 ∪ s2) (union_subseteq_l s1 s2)). lia. }
  assert (Hsub : s1 ∩ s2 ⊆ s1 ∪ s2).
  { etrans; [apply intersection_subseteq_l | apply union_subseteq_l]. }
  assert (Hle : (size (s1 ∩ s2) <= size (s1 ∪ s2))%nat) by by apply subseteq_size.
  assert (Hpos : (0 < inject_Z (Z.of_nat (size (s1 ∪ s2))))%Q).
  { unfold Qlt, inject_Z. cbn. lia. }
  split; [exact Hunion|]. rewrite !Hsim. fold s1 s2. split; [|split; [|split]].
  - split.
    + apply Qle_shift_div_l; [exact Hpos|]. unfold Qle, Qmult, inject_Z. cbn. lia.
    + apply Qle_shift_div_r; [exact Hpos|]. unfold Qle, Qmult, inject_Z. cbn. lia.
  - by rewrite (comm_L (∩) s2 s1), (comm_L (∪) s2 s1).
  - apply Hself. apply words_not_empty.
  - split.
    + intros Heq.
      assert (Hsize : size (s1 ∪ s2) = size (s1 ∩ s2)).
      { assert (Hq : (inject_Z (Z.of_nat (size (s1 ∩ s2)))
                      == inject_Z (Z.of_nat (size (s1 ∪ s2))))%Q).
        { rewrite <- (Qmult_div_r (inject_Z (Z.of_nat (size (s1 ∩ s2))))
                       (inject_Z (Z.of_nat (size (s1 ∪ s2))))).
          - rewrite Heq. apply Qmult_1_r.
          - intros H0. rewrite H0 in Hpos. by apply Qlt_irrefl in Hpos. }
        unfold Qeq, inject_Z in Hq. cbn in Hq. lia. }
      assert (Hsets : s1 ∩ s2 = s1 ∪ s2).
      { apply set_subseteq_size_eq; [exact Hsub | lia]. }
      apply set_eq. intros x. split; intros Hx.
      * assert (Hx' : x ∈ s1 ∩ s2) by (rewrite Hsets; by apply elem_of_union_l).
        by apply elem_of_intersection in Hx' as [_ ?].
      * assert (Hx' : x ∈ s1 ∩ s2) by (rewrite Hsets; by apply elem_of_union_r).
        by apply elem_of_intersection in Hx' as [? _].
    + intros ->. apply Hself. apply words_not_empty.
Qed.

Lemma for_all_units (Q : ascii -> Prop) :
  (forall b0 b1 b2 b3 b4 b5 b6 b7 : bool, Q (Ascii b0 b1 b2 b3 b4 b5 b6 b7)) ->
  forall a, Q a.
Proof. intros H [b0 b1 b2 b3 b4 b5 b6 b7]. apply H. Qed.

Ltac by_cases_on_unit :=
  let a := fresh "a" in
  intros a; pattern a; apply for_all_units;
  intros [] [] [] [] [] [] [] []; vm_compute; try done; try (intros; congruence).

Section UnitFacts.
Import Re Units.

Lemma star_iter_eq icase greedy r k s prev cap :
  run icase (Star greedy r) prev s cap k
  = star_iter icase greedy r k (S (String.length s)) prev s cap.
Proof. reflexivity. Qed.

Lemma star_iter_S icase r k fuel prev s cap :
  star_iter icase true r k (S fuel) prev s cap
  = or_else
      (run icase r prev s cap (fun p' s' c' =>
         if (String.length s' <? String.length s)%nat
         then star_iter icase true r k fuel p' s' c' else None))
      (fun _ => k prev s cap).
Proof. reflexivity. Qed.

Lemma one_unit_Cls icase p : one_unit icase (Cls p) p.
Proof. by intros prev [|a s] cap k. Qed.

Lemma one_unit_Chr icase c : one_unit icase (Chr c) (same_char icase c).
Proof. by intros prev [|a s] cap k. Qed.

(** A greedy repetition of a one-unit pattern backtracks over the run. *)
Lemma star_greedy_unit icase r p k :
  one_unit icase r p ->
  forall s fuel prev cap,
    (String.length s < fuel)%nat ->
    star_iter icase true r k fuel prev s cap = backtrack p k prev s cap.
Proof.
  intros Hunit s. induction s as [|a s IH]; intros fuel prev cap Hfuel;
    (destruct fuel as [|fuel]; [lia|]); rewrite star_iter_S, Hunit; [done|].
  cbn [backtrack]. destruct (p a); [|done].
  replace (String.length s <? String.length (String a s))%nat with true
    by (symmetry; apply Nat.ltb_lt; cbn; lia).
  rewrite IH; [done|]. cbn in Hfuel. lia.
Qed.

Lemma backtrack_accept p prev s cap :
  backtrack p accept prev s cap = Some (last_of_run p prev s, drop_while p s, cap).
Proof.
  revert prev. induction s as [|a s IH]; intros prev; cbn; [done|].
  destruct (p a); [|done]. by rewrite IH.
Qed.

Lemma run_plus_unit icase r p k prev s cap :
  one_unit icase r p ->
  run icase (plus r) prev s cap k
  = match s with
    | String a s' => if p a then backtrack p k (Some a) s' cap else None
    | EmptyString => None
    end.
Proof.
  intros Hunit. unfold plus.
  change (run icase (Seq r (Star true r)) prev s cap k)
    with (run icase r prev s cap (fun p' s' c' => run icase (Star true r) p' s' c' k)).
  rewrite Hunit.
  destruct s as [|a s]; [done|]. destruct (p a); [|done].
  rewrite star_iter_eq. apply star_greedy_unit; [done|lia].
Qed.

Lemma drop_while_length p s : (String.length (drop_while p s) <= String.length s)%nat.
Proof. induction s as [|a s IH]; cbn; [done|]. destruct (p a); cbn; lia. Qed.

(** ** Where the first match is *)

Lemma exec_unit icase r p :
  one_unit icase r p ->
  forall s prev,
    exec icase r prev s
    = match find p s with
      | Some (pre, a, rest) =>
          Some {| skipped := pre; text := String a ""; group1 := None;
                  last := Some a; rest := rest |}
      | None => None
      end.
Proof.
  intros Hunit s. induction s as [|a s IH]; intros prev; cbn [exec find]; rewrite Hunit;
    [done|].
  destruct (p a).
  - replace (String.length (String a s) - String.length s)%nat with 1%nat by (cbn; lia).
    done.
  - rewrite IH. by destruct (find p s) as [[[pre b] rest]|].
Qed.

Lemma exec_plus_unit icase r p :
  one_unit icase r p ->
  forall s prev,
    exec icase (plus r) prev s
    = match find p s with
      | Some (pre, a, rest) =>
          Some {| skipped := pre;
                  text := Js.take (S (String.length rest)
                                   - String.length (drop_while p rest)) (String a rest);
                  group1 := None;
                  last := last_of_run p (Some a) rest;
                  rest := drop_while p rest |}
      | None => None
      end.
Proof.
  intros Hunit s. induction s as [|a s IH]; intros prev; cbn [exec find];
    rewrite (run_plus_unit _ _ _ _ _ _ _ Hunit); [done|].
  destruct (p a).
  - by rewrite backtrack_accept.
  - rewrite IH. by destruct (find p s) as [[[pre b] rest]|].
Qed.

Lemma find_Some p s pre a rest :
  find p s = Some (pre, a, rest) ->
  s = pre +:+ String a rest /\ p a = true /\ every (fun c => negb (p c)) pre = true
  /\ (String.length rest < String.length s)%nat.
Proof.
  revert pre. induction s as [|b s IH]; intros pre; cbn; [done|].
  destruct (p b) eqn:Hb.
  - intros [= <- <- <-]. cbn. repeat split; first [done | lia].
  - destruct (find p s) as [[[pre' c] rest']|]; [|done].
    intros [= <- <- <-]. destruct (IH pre' eq_refl) as (-> & Hc & Hpre & Hlen).
    cbn. rewrite Hb, Hpre. repeat split; try done. rewrite string_length_app in *. cbn in *. lia.
Qed.

Lemma find_None p s : find p s = None -> every (fun c => negb (p c)) s = true.
Proof.
  induction s as [|b s IH]; cbn; [done|].
  destruct (p b); [done|]. destruct (find p s) as [[[pre c] rest]|]; [done|]. auto.
Qed.

(** ** What the replacement leaves *)

Lemma replace_each_clean p by_ s :
  every (fun c => negb (p c)) s = true -> replace_each p by_ s = s.
Proof.
  induction s as [|a s IH]; cbn; [done|].
  destruct (p a); cbn; [done|]. intros H. by rewrite IH.
Qed.

Lemma replace_each_app p by_ pre a rest :
  every (fun c => negb (p c)) pre = true -> p a = true ->
  replace_each p by_ (pre +:+ String a rest) = pre +:+ by_ +:+ replace_each p by_ rest.
Proof.
  intros Hpre Ha. induction pre as [|b pre IH]; cbn in *.
  - by rewrite Ha.
  - destruct (p b); [done|]. cbn in Hpre. by rewrite IH.
Qed.

Lemma replace_runs_clean p by_ s :
  every (fun c => negb (p c)) s = true -> replace_runs p by_ false s = s.
Proof.
  induction s as [|a s IH]; cbn; [done|].
  destruct (p a); cbn; [done|]. intros H. by rewrite IH.
Qed.

Lemma replace_runs_inrun p by_ s :
  replace_runs p by_ true s = replace_runs p by_ false (drop_while p s).
Proof.
  induction s as [|a s IH]; cbn; [done|].
  destruct (p a) eqn:Ha; [done|]. cbn. by rewrite Ha.
Qed.

Lemma replace_runs_app p by_ pre a rest :
  every (fun c => negb (p c)) pre = true -> p a = true ->
  replace_runs p by_ false (pre +:+ String a rest)
  = pre +:+ by_ +:+ replace_runs p by_ false (drop_while p rest).
Proof.
  intros Hpre Ha. induction pre as [|b pre IH]; cbn in *.
  - by rewrite Ha, replace_runs_inrun.
  - destruct (p b); [done|]. cbn in Hpre. by rewrite IH.
Qed.

(** A global replacement of a one-unit pattern replaces each unit of the
    class; of its repetition, each run of units of the class. *)
Lemma replaceAll_unit icase r p by_ s :
  one_unit icase r p -> replaceAll icase r by_ s = replace_each p by_ s.
Proof.
  intros Hunit. unfold replaceAll.
  cut (forall fuel s prev,
         (String.length s < fuel)%nat ->
         (let '(ms, tl) := scan fuel icase r prev s in
          foldr (fun m acc => skipped m +:+ by_ +:+ acc) tl ms) = replace_each p by_ s).
  { intros H. apply H. lia. }
  clear s. intros fuel. induction fuel as [|fuel IH]; intros s prev Hfuel; [lia|].
  cbn [scan]. rewrite (exec_unit _ _ _ Hunit).
  destruct (find p s) as [[[pre a] rest]|] eqn:Hfind.
  - apply find_Some in Hfind as (-> & Ha & Hpre & Hlen). cbn [Re.text Re.rest Re.last].
    specialize (IH rest (Some a) ltac:(lia)).
    destruct (scan fuel icase r (Some a) rest) as [ms tl]. cbn [foldr Re.skipped].
    by rewrite IH, replace_each_app.
  - cbn. symmetry. by apply replace_each_clean, find_None.
Qed.

Lemma replaceAll_plus_unit icase r p by_ s :
  one_unit icase r p -> replaceAll icase (plus r) by_ s = replace_runs p by_ false s.
Proof.
  intros Hunit. unfold replaceAll.
  cut (forall fuel s prev,
         (String.length s < fuel)%nat ->
         (let '(ms, tl) := scan fuel icase (plus r) prev s in
          foldr (fun m acc => skipped m +:+ by_ +:+ acc) tl ms)
         = replace_runs p by_ false s).
  { intros H. apply H. lia. }
  clear s. intros fuel. induction fuel as [|fuel IH]; intros s prev Hfuel; [lia|].
  cbn [scan]. rewrite (exec_plus_unit _ _ _ Hunit).
  destruct (find p s) as [[[pre a] rest]|] eqn:Hfind.
  - apply find_Some in Hfind as (-> & Ha & Hpre & Hlen). cbn [Re.text Re.rest Re.last].
    pose proof (drop_while_length p rest) as Hdrop.
    replace (S (String.length rest) - String.length (drop_while p rest))%nat
      with (S (String.length rest - String.length (drop_while p rest))) by lia.
    cbn [Js.take].
    specialize (IH (drop_while p rest) (last_of_run p (Some a) rest) ltac:(lia)).
    destruct (scan fuel icase (plus r) _ (drop_while p rest)) as [ms tl].
    cbn [foldr Re.skipped].
    by rewrite IH, replace_runs_app.
  - cbn. symmetry. by apply replace_runs_clean, find_None.
Qed.

End UnitFacts.

Section UtilFacts.
Import Re Units.

Lemma every_app q a b : every q (a +:+ b) = every q a && every q b.
Proof. induction a as [|c a IH]; cbn; [done|]. by rewrite IH, andb_assoc. Qed.

Lemma every_impl (q q' : ascii -> bool) s :
  (forall c, q c = true -> q' c = true) -> every q s = true -> every q' s = true.
Proof.
  intros Himpl. induction s as [|a s IH]; cbn; [done|].
  intros [Ha Hs]%andb_true_iff. by rewrite (Himpl a Ha), IH.
Qed.

Lemma every_Forall q s :
  every q s = true -> Forall (fun c => q c = true) (String.list_ascii_of_string s).
Proof.
  induction s as [|a s IH]; cbn; [constructor|].
  intros [Ha Hs]%andb_true_iff. constructor; [done|by apply IH].
Qed.

Lemma replace_each_every p q by_ s :
  every q by_ = true -> (forall c, p c = false -> q c = true) ->
  every q (replace_each p by_ s) = true.
Proof.
  intros Hby Hq. induction s as [|a s IH]; cbn; [done|].
  destruct (p a) eqn:Ha.
  - by rewrite every_app, Hby, IH.
  - cbn. by rewrite (Hq a Ha), IH.
Qed.

Lemma replace_runs_every p q by_ inrun s :
  every q by_ = true -> every q s = true -> every q (replace_runs p by_ inrun s) = true.
Proof.
  intros Hby. revert inrun. induction s as [|a s IH]; intros inrun; cbn; [done|].
  intros [Ha Hs]%andb_true_iff.
  destruct (p a); [destruct inrun|]; rewrite ?every_app; cbn; rewrite ?Hby, ?Ha, ?IH; done.
Qed.

Lemma toLowerCase_every (q q' : ascii -> bool) s :
  (forall c, q c = true -> q' (Js.lower_char c) = true) ->
  every q s = true -> every q' (Js.toLowerCase s) = true.
Proof.
  intros Hq. induction s as [|a s IH]; cbn; [done|].
  intros [Ha Hs]%andb_true_iff. by rewrite (Hq a Ha), IH.
Qed.

Lemma toLowerCase_fixed (q : ascii -> bool) s :
  (forall c, q c = true -> Js.lower_char c = c) ->
  every q s = true -> Js.toLowerCase s = s.
Proof.
  intros Hq. induction s as [|a s IH]; cbn; [done|].
  intros [Ha Hs]%andb_true_iff. by rewrite (Hq a Ha), IH.
Qed.

Lemma toLowerCase_length s : String.length (Js.toLowerCase s) = String.length s.
Proof. induction s as [|a s IH]; cbn; [done|]. by rewrite IH. Qed.

Lemma replace_each_length p u s :
  String.length (replace_each p (String u "") s) = String.length s.
Proof. induction s as [|a s IH]; cbn; [done|]. destruct (p a); cbn; by rewrite IH. Qed.

Lemma replace_runs_length p u inrun s :
  (String.length (replace_runs p (String u "") inrun s) <= String.length s)%nat.
Proof.
  revert inrun. induction s as [|a s IH]; intros inrun; cbn; [done|].
  destruct (p a); [destruct inrun|]; cbn.
  - specialize (IH true). lia.
  - specialize (IH true). lia.
  - specialize (IH false). lia.
Qed.

(** After the replacement of the runs by one unit of the class, no two
    units of the class stand in a row. *)
Lemma replace_runs_adjacent p u s :
  p u = true ->
  adjacent p (replace_runs p (String u "") false s) = false
  /\ adjacent p (replace_runs p (String u "") true s) = false
  /\ match replace_runs p (String u "") true s with
     | String b _ => p b
     | EmptyString => false
     end = false.
Proof.
  intros Hu. induction s as [|a s (IHf & IHt & IHh)]; cbn; [done|].
  destruct (p a) eqn:Ha; cbn.
  - by rewrite Hu, IHh, IHt.
  - by rewrite Ha, IHf.
Qed.

Lemma replace_runs_fixed p u s :
  (forall a, p a = true -> a = u) ->
  adjacent p s = false -> replace_runs p (String u "") false s = s.
Proof.
  intros Hp. induction s as [|a s IH]; cbn; [done|].
  intros [Hhead Hadj]%orb_false_iff.
  destruct (p a) eqn:Ha; cbn.
  - rewrite (Hp a Ha) in *. f_equal. specialize (IH Hadj).
    destruct s as [|b s]; [done|].
    cbn in Hhead, IH |- *. by rewrite Hhead in IH |- *.
  - by rewrite IH.
Qed.

Lemma adjacent_toLowerCase p s :
  (forall c, p (Js.lower_char c) = p c) ->
  adjacent p (Js.toLowerCase s) = adjacent p s.
Proof.
  intros Hp. induction s as [|a s IH]; cbn; [done|].
  rewrite IH, Hp. by destruct s as [|b s]; cbn; rewrite ?Hp.
Qed.

Lemma prefix_cons c p a s :
  String.prefix (String c p) (String a s)
  = if Ascii.eqb c a then String.prefix p s else false.
Proof.
  cbn [String.prefix]. destruct (ascii_dec c a) as [->|Hne].
  - by rewrite Ascii.eqb_refl.
  - by apply Ascii.eqb_neq in Hne as ->.
Qed.

Lemma includes_two_underscores s :
  Js.includes s "__" = adjacent (same_char false "_") s.
Proof.
  induction s as [|a s IH]; [done|].
  cbn [Js.includes adjacent]. rewrite IH. f_equal.
  rewrite prefix_cons. unfold same_char.
  destruct (Ascii.eqb "_" a); [|done].
  destruct s as [|b s]; [done|]. rewrite prefix_cons.
  destruct (Ascii.eqb "_" b); [by destruct s|done].
Qed.

Lemma safe_units_lower : forall c, Util.unsafe_unit c = false -> name_unit (Js.lower_char c) = true.
Proof. by_cases_on_unit. Qed.

Lemma name_units_safe : forall c, name_unit c = true -> negb (Util.unsafe_unit c) = true.
Proof. by_cases_on_unit. Qed.

Lemma name_units_lower : forall c, name_unit c = true -> Js.lower_char c = c.
Proof. by_cases_on_unit. Qed.

Lemma underscore_lower : forall c, same_char false "_" (Js.lower_char c) = same_char false "_" c.
Proof. by_cases_on_unit. Qed.

Lemma underscore_only : forall a, same_char false "_" a = true -> a = "_"%char.
Proof. intros a H. symmetry. by apply Ascii.eqb_eq. Qed.

Lemma sanitizeFilename_eq name :
  Util.sanitizeFilename name
  = Js.toLowerCase
      (replace_runs (same_char false "_") "_" false
         (replace_each Util.unsafe_unit "_" name)).
Proof.
  unfold Util.sanitizeFilename, Util.underscores_re, Util.unsafe_re.
  rewrite (replaceAll_unit true _ _ _ _ (one_unit_Cls true Util.unsafe_unit)).
  by rewrite (replaceAll_plus_unit false _ _ _ _ (one_unit_Chr false "_")).
Qed.

(** X17 ([sanitizeFilename], utils/helpers.js).  A sanitized file name
    consists of the letters a to z in lower case, digits, hyphens and
    underscores only, has no two underscores in a row, is not longer than
    the name it comes from, and sanitizing it again changes nothing. *)
Theorem sanitized_name_is_safe name :
  let result := Util.sanitizeFilename name in
  Forall (fun c => Js.in_range 97 122 c || Js.in_range 48 57 c
                   || Ascii.eqb c "-" || Ascii.eqb c "_" = true)
         (String.list_ascii_of_string result)
  /\ Js.includes result "__" = false
  /\ (String.length result <= String.length name)%nat
  /\ Util.sanitizeFilename result = result.
Proof.
  intros result.
  assert (Hunits : every name_unit result = true).
  { unfold result. rewrite sanitizeFilename_eq.
    apply (toLowerCase_every (fun c => negb (Util.unsafe_unit c))).
    - intros c Hc. apply safe_units_lower. by apply negb_true_iff.
    - apply replace_runs_every; [done|].
      apply replace_each_every; [done|]. intros c Hc. by rewrite Hc. }
  assert (Hadjacent : adjacent (same_char false "_") result = false).
  { unfold result. rewrite sanitizeFilename_eq.
    rewrite adjacent_toLowerCase by apply underscore_lower.
    by apply (replace_runs_adjacent (same_char false "_") "_"). }
  split; [by apply (every_Forall name_unit)|].
  split; [by rewrite includes_two_underscores|].
  split.
  - unfold result. rewrite sanitizeFilename_eq, toLowerCase_length.
    etrans; [apply (replace_runs_length _ "_")|]. by rewrite (replace_each_length _ "_").
  - rewrite sanitizeFilename_eq.
    rewrite replace_each_clean
      by (apply (every_impl name_unit); [apply name_units_safe | exact Hunits]).
    rewrite (replace_runs_fixed _ "_") by (done || apply underscore_only).
    apply (toLowerCase_fixed name_unit); [apply name_units_lower | exact Hunits].
Qed.

End UtilFacts.

Section TagFacts.
Import Re Units Tags.

Lemma or_else_none (x : option MatchEnd) : or_else x (fun _ => None) = x.
Proof. by destruct x. Qed.

(** A greedy repetition of a class before a continuation that needs a
    unit outside the class: only the longest run can go on. *)
Lemma backtrack_strict p k :
  (forall prev a s cap, p a = true -> k prev (String a s) cap = None) ->
  forall s prev cap,
    backtrack p k prev s cap = k (last_of_run p prev s) (drop_while p s) cap.
Proof.
  intros Hk s. induction s as [|a s IH]; intros prev cap; cbn; [done|].
  destruct (p a) eqn:Ha; [|done].
  by rewrite IH, (Hk prev a s cap Ha), or_else_none.
Qed.

Lemma drop_while_head p s :
  match drop_while p s with String c _ => p c = false | EmptyString => True end.
Proof. induction s as [|a s IH]; cbn; [done|]. by destruct (p a) eqn:Ha; cbn. Qed.

Lemma drop_while_empty p s : drop_while p s = "" <-> every p s = true.
Proof.
  induction s as [|a s IH]; cbn; [done|]. destruct (p a); cbn; [done|]. split; done.
Qed.

(** The tag pattern at the head of a text. *)
Lemma run_tag prev s cap :
  match run false Rss.tag_re prev s cap accept with
  | Some (_, rest', cap') => tag_end s = Some rest' /\ cap' = cap
  | None => tag_end s = None
  end.
Proof.
  unfold Rss.tag_re, cat. cbn [foldr].
  change (run false (Seq (Chr "<") (Seq (plus (none_of ">")) (Seq (Chr ">") Eps))) prev s cap
            accept)
    with (run false (Chr "<") prev s cap (fun p1 s1 c1 =>
            run false (plus (none_of ">")) p1 s1 c1 (fun p2 s2 c2 =>
              run false (Chr ">") p2 s2 c2 (fun p3 s3 c3 => accept p3 s3 c3)))).
  rewrite (one_unit_Chr false "<"). unfold same_char.
  destruct s as [|a s1]; [done|]. cbn [tag_end].
  destruct (Ascii.eqb "<" a); [|by destruct s1].
  rewrite (run_plus_unit false (none_of ">") not_gt) by apply one_unit_Cls.
  destruct s1 as [|b s2]; [done|]. cbn [andb].
  destruct (not_gt b); [|done].
  rewrite backtrack_strict.
  - rewrite (one_unit_Chr false ">").
    pose proof (drop_while_head not_gt s2) as Hhead.
    destruct (drop_while not_gt s2) as [|c s3]; [done|].
    unfold same_char.
    destruct (Ascii.eqb ">" c) eqn:Hc; [done|].
    exfalso. unfold not_gt in Hhead. cbn in Hhead.
    rewrite Ascii.eqb_sym, Hc in Hhead. done.
  - intros prev' a' s' cap' Ha'. rewrite (one_unit_Chr false ">"). unfold same_char.
    destruct (Ascii.eqb ">" a') eqn:Hc; [|done].
    apply Ascii.eqb_eq in Hc as <-. done.
Qed.

Lemma tag_end_shorter s rest :
  tag_end s = Some rest -> (String.length rest < String.length s)%nat.
Proof.
  destruct s as [|a [|b s2]]; cbn; try done.
  destruct (_ && _); [|done].
  pose proof (drop_while_length not_gt s2) as Hlen.
  destruct (drop_while not_gt s2) as [|c s3]; [done|].
  intros [= <-]. cbn in Hlen. lia.
Qed.

Lemma exec_tag s prev :
  match exec false Rss.tag_re prev s, first_tag s with
  | Some m, Some (pre, rest') => skipped m = pre /\ rest m = rest' /\ text m <> ""
  | None, None => True
  | _, _ => False
  end.
Proof.
  revert prev. induction s as [|a s IH]; intros prev.
  - cbn [exec first_tag]. pose proof (run_tag prev "" None) as Hrun.
    destruct (run false Rss.tag_re prev "" None _) as [[[p' s'] c']|].
    + by destruct Hrun.
    + by rewrite Hrun.
  - cbn [exec first_tag]. pose proof (run_tag prev (String a s) None) as Hrun.
    fold accept.
    destruct (run false Rss.tag_re prev (String a s) None accept) as [[[p' s'] c']|].
    + destruct Hrun as [Hend _]. rewrite Hend. cbn. split; [done|]. split; [done|].
      apply tag_end_shorter in Hend. cbn in Hend.
      replace (S (String.length s) - String.length s')%nat
        with (S (String.length s - String.length s')) by lia.
      done.
    + rewrite Hrun. specialize (IH (Some a)).
      destruct (exec false Rss.tag_re (Some a) s) as [m|],
               (first_tag s) as [[pre rest']|]; cbn; try done.
      destruct IH as (<- & <- & Htext). done.
Qed.

Lemma tag_end_None a s :
  tag_end (String a s) = None <-> (negb (Ascii.eqb "<" a) || open_ok s) = true.
Proof.
  destruct s as [|b s2]; cbn -[Ascii.eqb not_gt]; [by rewrite orb_true_r|].
  destruct (Ascii.eqb "<" a); cbn -[Ascii.eqb not_gt]; [|done].
  destruct (not_gt b); cbn -[Ascii.eqb not_gt]; [|done].
  pose proof (drop_while_empty not_gt s2) as Hempty.
  destruct (drop_while not_gt s2) as [|c s3].
  - split; [intros _; by apply Hempty | done].
  - split; [done|]. intros Hall. apply Hempty in Hall. done.
Qed.

Lemma first_tag_None s : first_tag s = None <-> tagless s = true.
Proof.
  induction s as [|a s IH]; [done|].
  cbn [first_tag tagless]. rewrite andb_true_iff, <- IH, <- tag_end_None.
  destruct (tag_end (String a s)); [by intuition|].
  destruct (first_tag s) as [[pre rest']|]; by intuition.
Qed.

Lemma every_app_not_gt a b :
  every not_gt (a +:+ b) = every not_gt a && every not_gt b.
Proof. induction a as [|c a IH]; cbn -[Ascii.eqb not_gt]; [done|]. by rewrite IH, andb_assoc. Qed.

(** The text before the first tag closes every [<] at once, and the tag
    has a [>]. *)
Lemma first_tag_Some s pre rest' :
  first_tag s = Some (pre, rest') ->
  closed pre = true
  /\ (String.length rest' < String.length s)%nat
  /\ exists tag,
       s = pre +:+ tag +:+ rest'
       /\ every not_gt (tag +:+ rest') = false
       /\ match tag with String c _ => c = "<"%char | EmptyString => False end.
Proof.
  revert pre. induction s as [|a s IH]; intros pre; [done|].
  cbn [first_tag]. destruct (tag_end (String a s)) as [r|] eqn:Hend.
  - intros [= <- <-]. split; [done|]. split; [by apply tag_end_shorter|].
    destruct s as [|b s2]; [done|]. cbn -[Ascii.eqb not_gt] in Hend.
    destruct (Ascii.eqb "<" a) eqn:Ha; [|done]. apply Ascii.eqb_eq in Ha as <-.
    destruct (not_gt b) eqn:Hb; [|done]. cbn -[Ascii.eqb not_gt] in Hend.
    pose proof (drop_while_head not_gt s2) as Hhead.
    destruct (drop_while not_gt s2) as [|c s3] eqn:Hdrop; [done|].
    injection Hend as <-.
    assert (Hsplit : exists run, s2 = run +:+ String c s3).
    { clear -Hdrop. revert Hdrop. induction s2 as [|x s2 IH2]; cbn -[Ascii.eqb not_gt]; [done|].
      destruct (not_gt x).
      - intros Hd. destruct (IH2 Hd) as [run ->]. by exists (String x run).
      - intros [= -> ->]. by exists "". }
    destruct Hsplit as [run ->].
    exists (String "<" (String b (run +:+ String c ""))). split; [|split; [|done]].
    + cbn -[Ascii.eqb not_gt]. do 2 f_equal. clear.
      induction run as [|x run IHr]; cbn -[Ascii.eqb not_gt]; [done|]. by rewrite IHr.
    + cbn -[Ascii.eqb not_gt]. rewrite Hb. cbn -[Ascii.eqb not_gt]. rewrite !every_app_not_gt.
      cbn -[Ascii.eqb not_gt]. rewrite Hhead.
      by rewrite andb_false_r.
  - destruct (first_tag s) as [[pre' r]|] eqn:Hfirst; [|done].
    intros [= <- <-]. destruct (IH pre' eq_refl) as (Hclosed & Hlen & tag & -> & Hgt & Htag).
    split; [|split; [cbn -[Ascii.eqb not_gt]; lia|]].
    + cbn [closed]. rewrite Hclosed, andb_true_r.
      apply tag_end_None in Hend.
      destruct (Ascii.eqb "<" a); [|done]. cbn -[Ascii.eqb not_gt] in Hend |- *.
      destruct pre' as [|b pre'].
      * destruct tag as [|c tag]; [done|]. subst c. cbn -[Ascii.eqb not_gt] in Hend, Hgt.
        change (not_gt "<") with true in Hend, Hgt. cbn in Hend, Hgt. congruence.
      * cbn -[Ascii.eqb not_gt] in Hend. destruct (not_gt b) eqn:Hb; [|done].
        cbn -[Ascii.eqb not_gt] in Hend.
        cbn -[Ascii.eqb not_gt] in Hgt. rewrite every_app_not_gt in Hend.
        apply andb_true_iff in Hend as [_ Hend]. rewrite Hend in Hgt. done.
    + exists tag. by split.
Qed.

Lemma tagless_closed_app pre s :
  closed pre = true -> tagless s = true -> tagless (pre +:+ s) = true.
Proof.
  intros Hclosed Hs. induction pre as [|a pre IH]; [done|].
  cbn -[Ascii.eqb not_gt] in Hclosed |- *. apply andb_true_iff in Hclosed as [Ha Hclosed].
  rewrite (IH Hclosed), andb_true_r.
  destruct (Ascii.eqb "<" a); [|done]. cbn -[Ascii.eqb not_gt] in Ha |- *.
  destruct pre as [|b pre]; [done|]. cbn -[Ascii.eqb not_gt]. by rewrite Ha.
Qed.

Lemma tagless_app_r a b : tagless (a +:+ b) = true -> tagless b = true.
Proof.
  induction a as [|c a IH]; cbn -[Ascii.eqb not_gt]; [done|]. intros [_ H]%andb_true_iff.
  by apply IH.
Qed.

Lemma open_ok_app_l a b : open_ok (a +:+ b) = true -> open_ok a = true.
Proof.
  destruct a as [|c a]; cbn -[Ascii.eqb not_gt]; [done|].
  destruct (not_gt c); cbn -[Ascii.eqb not_gt]; [|done]. rewrite every_app_not_gt.
  by intros [? _]%andb_true_iff.
Qed.

Lemma tagless_app_l a b : tagless (a +:+ b) = true -> tagless a = true.
Proof.
  induction a as [|c a IH]; cbn -[Ascii.eqb not_gt]; [done|]. intros [Hc H]%andb_true_iff.
  rewrite (IH H), andb_true_r.
  destruct (Ascii.eqb "<" c); [|done]. cbn -[Ascii.eqb not_gt] in Hc |- *.
  by apply open_ok_app_l in Hc.
Qed.

(** The global replacement of the tags by one space leaves no tag. *)
Lemma replaceAll_tags_tagless s : tagless (replaceAll false Rss.tag_re " " s) = true.
Proof.
  unfold replaceAll.
  cut (forall fuel s prev,
         (String.length s < fuel)%nat ->
         tagless (let '(ms, tl) := scan fuel false Rss.tag_re prev s in
                  foldr (fun m acc => skipped m +:+ " " +:+ acc) tl ms) = true).
  { intros H. apply H. lia. }
  clear s. intros fuel. induction fuel as [|fuel IH]; intros s prev Hfuel; [lia|].
  cbn [scan]. pose proof (exec_tag s prev) as Hexec.
  destruct (exec false Rss.tag_re prev s) as [m|],
           (first_tag s) as [[pre rest']|] eqn:Hfirst; try done.
  - destruct Hexec as (Hpre & Hrest & Htext).
    apply first_tag_Some in Hfirst as (Hclosed & Hlen & _).
    destruct (text m) as [|c t]; [done|].
    specialize (IH (rest m) (last m) ltac:(rewrite Hrest; lia)).
    destruct (scan fuel false Rss.tag_re (last m) (rest m)) as [ms tl].
    cbn [foldr]. rewrite Hpre. by apply tagless_closed_app.
  - cbn -[Ascii.eqb not_gt]. by apply first_tag_None.
Qed.

(** ** Collapsing white space, trimming and cutting *)

Lemma replace_runs_units p q by_ inrun s :
  every q by_ = true -> (forall c, p c = false -> q c = true) ->
  every q (replace_runs p by_ inrun s) = true.
Proof.
  intros Hby Hq. revert inrun. induction s as [|a s IH]; intros inrun; cbn; [done|].
  destruct (p a) eqn:Ha; [destruct inrun|]; rewrite ?every_app; cbn;
    rewrite ?Hby, ?IH, ?(Hq a Ha); done.
Qed.

Lemma every_open_ok s : every not_gt s = true -> open_ok s = true.
Proof.
  destruct s as [|b s]; cbn -[Ascii.eqb not_gt]; [done|].
  intros [_ ->]%andb_true_iff. by rewrite orb_true_r.
Qed.

Lemma gt_not_space : forall b, not_gt b = false -> Js.is_space b = false.
Proof. by_cases_on_unit. Qed.

Lemma lt_not_space : forall a, Ascii.eqb "<" a = true -> Js.is_space a = false.
Proof. by_cases_on_unit. Qed.

Lemma open_ok_collapsed s :
  open_ok s = true -> open_ok (replace_runs Js.is_space " " false s) = true.
Proof.
  destruct s as [|b s2]; [done|]. cbn -[Ascii.eqb not_gt].
  destruct (not_gt b) eqn:Hb; cbn -[Ascii.eqb not_gt].
  - intros Hall. apply every_open_ok.
    change (every not_gt (replace_runs Js.is_space " " false (String b s2)) = true).
    apply replace_runs_every; [done|]. cbn -[Ascii.eqb not_gt]. by rewrite Hb, Hall.
  - intros _. rewrite (gt_not_space b Hb). cbn -[Ascii.eqb not_gt]. by rewrite Hb.
Qed.

Lemma tagless_collapsed inrun s :
  tagless s = true -> tagless (replace_runs Js.is_space " " inrun s) = true.
Proof.
  revert inrun. induction s as [|a s IH]; intros inrun; [done|].
  cbn -[Ascii.eqb not_gt]. intros [Ha Hs]%andb_true_iff.
  destruct (Js.is_space a) eqn:Hsp.
  - destruct inrun; [by apply IH|]. cbn -[not_gt]. by apply IH.
  - cbn -[Ascii.eqb not_gt]. rewrite (IH false Hs), andb_true_r.
    destruct (Ascii.eqb "<" a); [|done]. cbn -[Ascii.eqb not_gt] in Ha |- *.
    by apply open_ok_collapsed.
Qed.

Lemma drop_spaces_suffix s : exists pre, s = pre +:+ Js.drop_spaces s.
Proof.
  induction s as [|a s [pre IH]]; cbn; [by exists ""|].
  destruct (Js.is_space a); [|by exists ""].
  exists (String a pre). cbn. by rewrite <- IH.
Qed.

Lemma rev_string_append x y :
  Js.rev_string "" (x +:+ y) = Js.rev_string "" y +:+ Js.rev_string "" x.
Proof.
  induction x as [|a x IH]; cbn.
  - generalize (Js.rev_string "" y). intros r. induction r as [|c r IHr]; cbn; [done|].
    by rewrite <- IHr.
  - rewrite (rev_string_app (String a "")), IH, (rev_string_app (String a "") x).
    generalize (Js.rev_string "" y) (Js.rev_string "" x). intros u v.
    induction u as [|c u IHu]; cbn; [done|]. by rewrite IHu.
Qed.

(** The trimmed text is a part of the text. *)
Lemma trim_factor s : exists pre post, s = pre +:+ Js.trim s +:+ post.
Proof.
  unfold Js.trim. destruct (drop_spaces_suffix s) as [pre Hpre].
  destruct (drop_spaces_suffix (Js.rev_string "" (Js.drop_spaces s))) as [post Hpost].
  exists pre, (Js.rev_string "" post).
  rewrite <- rev_string_append, <- Hpost, rev_string_involutive. exact Hpre.
Qed.

Lemma drop_spaces_idemp s : Js.drop_spaces (Js.drop_spaces s) = Js.drop_spaces s.
Proof.
  induction s as [|a s IH]; cbn; [done|]. destruct (Js.is_space a) eqn:Ha; [done|].
  cbn. by rewrite Ha.
Qed.

Lemma drop_spaces_prefix x y :
  Js.drop_spaces (x +:+ y) = x +:+ y -> Js.drop_spaces x = x.
Proof.
  destruct x as [|a x]; cbn; [done|].
  destruct (Js.is_space a); [|done]. intros Heq.
  pose proof (drop_spaces_length (x +:+ y)) as Hlen. rewrite Heq in Hlen. cbn in Hlen. lia.
Qed.

Lemma trim_idemp s : Js.trim (Js.trim s) = Js.trim s.
Proof.
  unfold Js.trim.
  set (d := Js.drop_spaces s). set (e := Js.drop_spaces (Js.rev_string "" d)).
  assert (Hhead : Js.drop_spaces (Js.rev_string "" e) = Js.rev_string "" e).
  { destruct (drop_spaces_suffix (Js.rev_string "" d)) as [post Hpost]. fold e in Hpost.
    apply (drop_spaces_prefix _ (Js.rev_string "" post)).
    rewrite <- rev_string_append, <- Hpost, rev_string_involutive.
    apply drop_spaces_idemp. }
  rewrite Hhead, rev_string_involutive. unfold e. by rewrite drop_spaces_idemp.
Qed.

Lemma adjacent_app_l p a b : adjacent p (a +:+ b) = false -> adjacent p a = false.
Proof.
  induction a as [|c a IH]; cbn; [done|]. intros [Hc H]%orb_false_iff.
  rewrite (IH H), orb_false_r. destruct a as [|d a]; cbn in *; [by rewrite andb_false_r|done].
Qed.

Lemma adjacent_app_r p a b : adjacent p (a +:+ b) = false -> adjacent p b = false.
Proof.
  induction a as [|c a IH]; cbn; [done|]. intros [_ H]%orb_false_iff. by apply IH.
Qed.

Lemma adjacent_weaken (p q : ascii -> bool) s :
  (forall c, q c = true -> p c = true) -> adjacent p s = false -> adjacent q s = false.
Proof.
  intros Hqp. induction s as [|a s IH]; cbn; [done|]. intros [Ha H]%orb_false_iff.
  rewrite (IH H), orb_false_r.
  destruct (q a) eqn:Hq; [|done]. rewrite (Hqp a Hq) in Ha. cbn in Ha |- *.
  destruct s as [|b s]; [done|]. destruct (q b) eqn:Hb; [|done]. by rewrite (Hqp b Hb) in Ha.
Qed.

Lemma includes_pair u s :
  Js.includes s (String u (String u "")) = adjacent (Ascii.eqb u) s.
Proof.
  induction s as [|a s IH]; [done|].
  cbn [Js.includes adjacent]. rewrite IH. f_equal.
  rewrite prefix_cons.
  destruct (Ascii.eqb u a); [|done].
  destruct s as [|b s]; [done|]. rewrite prefix_cons.
  destruct (Ascii.eqb u b); [by destruct s|done].
Qed.

Lemma tagless_no_match s : tagless s = true -> matchAll false Rss.tag_re s = [].
Proof.
  intros Hs. unfold matchAll. cbn [scan].
  pose proof (exec_tag s None) as Hexec. apply first_tag_None in Hs. rewrite Hs in Hexec.
  by destruct (exec false Rss.tag_re None s).
Qed.

(** The text [extractText] and [parseHTML] compute, before the trim. *)
Lemma collapsed_text_facts s :
  let text := replaceAll false Rss.spaces_re " " (replaceAll false Rss.tag_re " " s) in
  tagless text = true
  /\ every (fun c => negb (Js.is_space c) || Ascii.eqb " " c) text = true
  /\ adjacent Js.is_space text = false.
Proof.
  intros text. unfold text, Rss.spaces_re, space.
  rewrite (replaceAll_plus_unit false (Cls Js.is_space) Js.is_space)
    by apply one_unit_Cls.
  split; [apply tagless_collapsed, replaceAll_tags_tagless|]. split.
  - apply replace_runs_units; [done|]. intros c Hc. by rewrite Hc.
  - by apply (replace_runs_adjacent Js.is_space " ").
Qed.

Lemma space_is_white : forall c, Ascii.eqb " " c = true -> Js.is_space c = true.
Proof. by_cases_on_unit. Qed.

End TagFacts.

Section ExtractFacts.
Variable P : Platform.t.
Import Re Units Tags.

Lemma extractText_facts html :
  tagless (Util.extractText html) = true
  /\ every (fun c => negb (Js.is_space c) || Ascii.eqb " " c) (Util.extractText html) = true
  /\ adjacent Js.is_space (Util.extractText html) = false.
Proof.
  unfold Util.extractText.
  destruct (collapsed_text_facts
              (replaceAll true (Crawler.element_re "style") ""
                 (replaceAll true (Crawler.element_re "script") "" html)))
    as (Htags & Hunits & Hadj).
  destruct (trim_factor
              (replaceAll false Rss.spaces_re " "
                 (replaceAll false Rss.tag_re " "
                    (replaceAll true (Crawler.element_re "style") ""
                       (replaceAll true (Crawler.element_re "script") "" html)))))
    as (pre & post & Hfactor).
  rewrite Hfactor in Htags, Hunits, Hadj. split; [|split].
  - by apply tagless_app_r, tagless_app_l in Htags.
  - rewrite !every_app in Hunits.
    by apply andb_true_iff in Hunits as [_ [? _]%andb_true_iff].
  - by apply adjacent_app_r, adjacent_app_l in Hadj.
Qed.

Lemma parseHTML_content html :
  Crawler.Parsed.content (Crawler.parseHTML P html)
  = Js.take (Z.to_nat 50000) (Util.extractText html).
Proof. reflexivity. Qed.

(** X18 ([extractText], utils/helpers.js; [parseHTML],
    modules/crawler.js).  The text extracted from HTML has no match of
    the tag pattern left: every less-than sign in it is followed by a
    greater-than sign at once, or by none at all.  The content of
    [parseHTML] is the first 50000 characters of this text, and has no
    match of the tag pattern either. *)
Theorem extracted_text_has_no_tags html :
  matchAll false Rss.tag_re (Util.extractText html) = []
  /\ Crawler.Parsed.content (Crawler.parseHTML P html)
     = Js.take (Z.to_nat 50000) (Util.extractText html)
  /\ matchAll false Rss.tag_re (Crawler.Parsed.content (Crawler.parseHTML P html)) = []
  /\ forall before after,
       Util.extractText html = before +:+ String "<" after ->
       (exists rest, after = String ">" rest)
       \/ Forall (fun c => c <> ">"%char) (String.list_ascii_of_string after).
Proof.
  destruct (extractText_facts html) as (Htags & _ & _).
  split; [by apply tagless_no_match|]. split; [apply parseHTML_content|]. split.
  - rewrite parseHTML_content. apply tagless_no_match.
    destruct (take_prefix (Z.to_nat 50000) (Util.extractText html)) as [rest' Hrest].
    rewrite Hrest in Htags. by apply tagless_app_l in Htags.
  - intros before after Heq. rewrite Heq in Htags. apply tagless_app_r in Htags.
    cbn -[not_gt] in Htags. apply andb_true_iff in Htags as [Hopen _].
    destruct after as [|b s2]; [right; constructor|].
    cbn -[not_gt] in Hopen. destruct (not_gt b) eqn:Hb; cbn -[not_gt] in Hopen.
    + right. cbn. constructor.
      * intros ->. done.
      * apply every_Forall in Hopen. eapply Forall_impl; [exact Hopen|].
        intros c Hc ->. done.
    + left. exists s2. f_equal. unfold not_gt in Hb. cbn in Hb.
      rewrite orb_false_r in Hb. apply negb_false_iff in Hb. by apply Ascii.eqb_eq in Hb.
Qed.

(** X19 ([extractText], [parseHTML]).  In the text extracted from HTML
    the only white space is the space character, no two spaces follow
    each other, and trimming the text changes nothing.  The first two
    hold of the content of [parseHTML] as well. *)
Theorem extracted_text_has_single_spaces html :
  let text := Util.extractText html in
  let content := Crawler.Parsed.content (Crawler.parseHTML P html) in
  Forall (fun c => Js.is_space c = true -> c = " "%char) (String.list_ascii_of_string text)
  /\ Js.includes text "  " = false
  /\ Js.trim text = text
  /\ Forall (fun c => Js.is_space c = true -> c = " "%char)
            (String.list_ascii_of_string content)
  /\ Js.includes content "  " = false.
Proof.
  intros text content.
  destruct (extractText_facts html) as (_ & Hunits & Hadj). fold text in Hunits, Hadj.
  assert (Hforall : forall s,
            every (fun c => negb (Js.is_space c) || Ascii.eqb " " c) s = true ->
            Forall (fun c => Js.is_space c = true -> c = " "%char)
                   (String.list_ascii_of_string s)).
  { intros s Hs. apply every_Forall in Hs. eapply Forall_impl; [exact Hs|].
    intros c Hc Hsp. cbn in Hc. rewrite Hsp in Hc. cbn in Hc.
    symmetry. by apply Ascii.eqb_eq. }
  assert (Hpair : forall s, adjacent Js.is_space s = false -> Js.includes s "  " = false).
  { intros s Hs. rewrite (includes_pair " ").
    apply (adjacent_weaken Js.is_space); [apply space_is_white | exact Hs]. }
  split; [by apply Hforall|]. split; [by apply Hpair|]. split; [apply trim_idemp|].
  unfold content. rewrite parseHTML_content. fold text.
  destruct (take_prefix (Z.to_nat 50000) text) as [rest' Hrest].
  rewrite Hrest in Hunits, Hadj. split.
  - apply Hforall. rewrite every_app in Hunits. by apply andb_true_iff in Hunits as [? _].
  - apply Hpair. by apply adjacent_app_l in Hadj.
Qed.

End ExtractFacts.

Section ScoreFacts.
Import Re Units.

Lemma lower_char_idemp : forall c, Js.lower_char (Js.lower_char c) = Js.lower_char c.
Proof. by_cases_on_unit. Qed.

Lemma toLowerCase_idemp s : Js.toLowerCase (Js.toLowerCase s) = Js.toLowerCase s.
Proof. induction s as [|a s IH]; cbn; [done|]. by rewrite lower_char_idemp, IH. Qed.

Lemma toLowerCase_app a b :
  Js.toLowerCase (a +:+ b) = Js.toLowerCase a +:+ Js.toLowerCase b.
Proof. induction a as [|c a IH]; cbn; [done|]. by rewrite IH. Qed.

Lemma toLowerCase_lowered s : every lowered (Js.toLowerCase s) = true.
Proof.
  induction s as [|a s IH]; cbn; [done|].
  unfold lowered at 1. by rewrite lower_char_idemp, Ascii.eqb_refl, IH.
Qed.

(** The canonical form of an ASCII unit is an ASCII unit, and only ASCII
    units have one: the [i] flag never lets a unit from 128 on match an
    ASCII unit. *)
Lemma canon_of_ascii : forall c, ascii_unit c = true -> ascii_unit (Js.canon_char c) = true.
Proof. by_cases_on_unit. Qed.

Lemma canon_to_ascii : forall a, ascii_unit (Js.canon_char a) = true -> ascii_unit a = true.
Proof. by_cases_on_unit. Qed.

Lemma lower_of_canon_ascii : forall c,
  ascii_unit c = true -> Js.lower_char c = c -> Js.lower_char (Js.canon_char c) = c.
Proof. by_cases_on_unit. Qed.

Lemma lower_ascii : forall c, ascii_unit c = true -> ascii_unit (Js.lower_char c) = true.
Proof. by_cases_on_unit. Qed.

Lemma toLowerCase_ascii s :
  every ascii_unit s = true -> every ascii_unit (Js.toLowerCase s) = true.
Proof.
  induction s as [|a s IH]; cbn; [done|]. intros [Ha Hs]%andb_true_iff.
  by rewrite (lower_ascii a Ha), (IH Hs).
Qed.

(** Under the [i] flag a lowered ASCII unit of the pattern matches a
    lowered unit of the text only when the two are equal. *)
Lemma same_char_ascii c a :
  ascii_unit c = true -> lowered c = true -> lowered a = true ->
  same_char true c a = Ascii.eqb c a.
Proof.
  unfold lowered, same_char. intros Hascii Hc%Ascii.eqb_eq Ha%Ascii.eqb_eq.
  destruct (Ascii.eqb c a) eqn:Hca.
  - apply Ascii.eqb_eq in Hca as ->. apply Ascii.eqb_refl.
  - apply Ascii.eqb_neq. intros Hcanon. apply Ascii.eqb_neq in Hca. apply Hca.
    assert (Hascii' : ascii_unit a = true)
      by (apply canon_to_ascii; rewrite <- Hcanon; by apply canon_of_ascii).
    by rewrite <- (lower_of_canon_ascii c Hascii Hc), <- (lower_of_canon_ascii a Hascii' Ha),
      Hcanon.
Qed.

(** The literal of a keyword matches at the head of a text only when the
    keyword is a prefix of the text. *)
Lemma run_lit_no_prefix kw s prev cap k :
  every ascii_unit kw = true ->
  every lowered kw = true -> every lowered s = true ->
  String.prefix kw s = false ->
  run true (lit kw) prev s cap k = None.
Proof.
  revert s prev k. induction kw as [|c kw IH]; intros s prev k Hascii Hkw Hs Hprefix.
  - by destruct s.
  - cbn [lit].
    change (run true (Seq (Chr c) (lit kw)) prev s cap k)
      with (run true (Chr c) prev s cap (fun p' s' c' => run true (lit kw) p' s' c' k)).
    rewrite (one_unit_Chr true c).
    destruct s as [|a s]; [done|].
    cbn in Hascii, Hkw, Hs. apply andb_true_iff in Hascii as [Hunit Hascii].
    apply andb_true_iff in Hkw as [Hc Hkw]. apply andb_true_iff in Hs as [Ha Hs].
    rewrite (same_char_ascii c a Hunit Hc Ha). rewrite prefix_cons in Hprefix.
    destruct (Ascii.eqb c a); [|done]. by apply IH.
Qed.

Lemma every_suffix q a s : every q (String a s) = true -> every q s = true.
Proof. cbn. by intros [_ ?]%andb_true_iff. Qed.

Lemma keyword_not_found kw s :
  every ascii_unit kw = true ->
  every lowered kw = true -> every lowered s = true ->
  Js.includes s kw = false ->
  matchAll true (Rss.keyword_re kw) s = [].
Proof.
  intros Hascii Hkw Hs Hnone. unfold matchAll. cbn [scan].
  assert (Hexec : forall s prev,
            every lowered s = true -> Js.includes s kw = false ->
            exec true (Rss.keyword_re kw) prev s = None).
  { clear s Hs Hnone. intros s. induction s as [|a s IH]; intros prev Hs Hnone.
    - cbn [exec]. unfold Rss.keyword_re, cat. cbn [foldr].
      change (run true (Seq WordB (Seq (lit kw) (Seq WordB Eps))) prev "" None
                (fun p' s' c' => Some (p', s', c')))
        with (if xorb (is_word prev) (is_word (first_char ""))
              then run true (lit kw) prev "" None
                     (fun p' s' c' => run true (Seq WordB Eps) p' s' c'
                                        (fun p' s' c' => Some (p', s', c')))
              else None).
      cbn [Js.includes] in Hnone. apply orb_false_iff in Hnone as [Hprefix _].
      rewrite run_lit_no_prefix by done. by destruct (xorb _ _).
    - cbn [exec]. unfold Rss.keyword_re, cat. cbn [foldr].
      change (run true (Seq WordB (Seq (lit kw) (Seq WordB Eps))) prev (String a s) None
                (fun p' s' c' => Some (p', s', c')))
        with (if xorb (is_word prev) (is_word (first_char (String a s)))
              then run true (lit kw) prev (String a s) None
                     (fun p' s' c' => run true (Seq WordB Eps) p' s' c'
                                        (fun p' s' c' => Some (p', s', c')))
              else None).
      cbn [Js.includes] in Hnone. apply orb_false_iff in Hnone as [Hprefix Hrest].
      rewrite run_lit_no_prefix by done.
      assert (Hnext : exec true (Rss.keyword_re kw) (Some a) s = None)
        by (apply IH; [by eapply every_suffix|done]).
      unfold Rss.keyword_re, cat in Hnext. cbn [foldr] in Hnext.
      destruct (xorb _ _); by rewrite Hnext. }
  by rewrite Hexec.
Qed.

Lemma prefix_app sub a b : String.prefix sub a = true -> String.prefix sub (a +:+ b) = true.
Proof.
  revert a. induction sub as [|c sub IH]; intros a; [by destruct a, b|].
  destruct a as [|x a]; [done|]. cbn [String.append]. rewrite !prefix_cons.
  destruct (Ascii.eqb c x); [apply IH|done].
Qed.

Lemma includes_app_l a b sub : Js.includes a sub = true -> Js.includes (a +:+ b) sub = true.
Proof.
  induction a as [|x a IH].
  - cbn [Js.includes]. rewrite orb_false_r. intros H.
    destruct sub as [|c sub]; [|done]. by destruct b.
  - cbn [Js.includes String.append]. intros [H|H]%orb_true_iff.
    + change (String x (a +:+ b)) with (String x a +:+ b).
      by rewrite (prefix_app _ _ _ H).
    + by rewrite (IH H), orb_true_r.
Qed.

(** X20 ([calculateProphecyScore], modules/rss_handler.js).  With
    prophecy keywords made of ASCII code units, an entry whose title and
    description, in lower case, contain none of the keywords in lower
    case scores 0, and is not kept at any positive threshold.  The
    pattern of an ASCII keyword matches ASCII units only; a keyword with
    a letter from 128 on can match another letter with the same capital,
    and is left out. *)
Theorem entry_without_keywords_scores_zero cfg item :
  let text := Js.toLowerCase (Item.title item +:+ " " +:+ Item.description item) in
  Forall (fun keyword => every ascii_unit keyword = true)
         (Config.prophecy_keywords (Config.scoring cfg)) ->
  Forall (fun keyword => Js.includes text (Js.toLowerCase keyword) = false)
         (Config.prophecy_keywords (Config.scoring cfg)
            ++ Config.high_priority_keywords (Config.scoring cfg)) ->
  (Rss.calculateProphecyScore cfg item == 0)%Q
  /\ forall threshold,
       (0 < threshold)%Q -> Rss.high_scoring threshold (Rss.score_items cfg [item]) = [].
Proof.
  intros text Hascii Hnone. apply Forall_app in Hnone as [Hkeywords Hpriority].
  assert (Hboth : Forall (fun keyword => every ascii_unit keyword = true
                                        /\ Js.includes text (Js.toLowerCase keyword) = false)
                         (Config.prophecy_keywords (Config.scoring cfg)))
    by (by apply Forall_and).
  assert (Hscore : Rss.calculateProphecyScore cfg item = (0 # 100)%Q).
  { unfold Rss.calculateProphecyScore. fold text.
    assert (Hfirst : fold_left (Rss.add_keyword cfg text)
                       (Config.prophecy_keywords (Config.scoring cfg)) 0%Q = 0%Q).
    { clear Hascii Hkeywords. generalize 0%Q.
      induction Hboth as [|keyword keywords [Hunits Hk] _ IH]; intros score; [done|].
      cbn [fold_left]. rewrite <- (IH score) at 2. f_equal.
      unfold Rss.add_keyword.
      rewrite keyword_not_found;
        [done | by apply toLowerCase_ascii | apply toLowerCase_lowered
         | apply toLowerCase_lowered | exact Hk]. }
    rewrite Hfirst.
    assert (Hsecond : fold_left (Rss.add_title_bonus (Js.toLowerCase (Item.title item)))
                        (Config.high_priority_keywords (Config.scoring cfg)) 0%Q = 0%Q).
    { generalize 0%Q. induction Hpriority as [|keyword keywords Hk _ IH]; intros score;
        [done|].
      cbn [fold_left]. rewrite <- (IH score) at 2. f_equal.
      unfold Rss.add_title_bonus.
      destruct (Js.includes (Js.toLowerCase (Item.title item)) (Js.toLowerCase keyword))
        eqn:Hin; [|done].
      apply (includes_app_l _ (Js.toLowerCase (" " +:+ Item.description item))) in Hin.
      rewrite <- toLowerCase_app in Hin. unfold text in Hk. congruence. }
    rewrite Hsecond. reflexivity. }
  split; [by rewrite Hscore|].
  intros threshold Hpos. unfold Rss.high_scoring, Rss.score_items.
  cbn [fmap list_fmap List.filter Scored.score]. rewrite Hscore.
  destruct (Qle_bool threshold (0 # 100)) eqn:Hle; [|done].
  apply Qle_bool_iff in Hle. exfalso. apply (Qlt_irrefl 0).
  eapply Qlt_le_trans; [exact Hpos|]. eapply Qle_trans; [exact Hle|]. by vm_compute.
Qed.

(** ** Letter case *)

Lemma add_keyword_case cfg cfg' text score keyword keyword' :
  Js.toLowerCase keyword = Js.toLowerCase keyword' ->
  Js.toLowerCase <$> Config.high_priority_keywords (Config.scoring cfg)
    = Js.toLowerCase <$> Config.high_priority_keywords (Config.scoring cfg') ->
  Config.keyword_weights (Config.scoring cfg) = Config.keyword_weights (Config.scoring cfg') ->
  Rss.add_keyword cfg text score keyword = Rss.add_keyword cfg' text score keyword'.
Proof.
  intros Hk Hhp Hw. unfold Rss.add_keyword. rewrite Hk, Hw.
  assert (Hex : forall l,
            existsb (fun hp => String.eqb (Js.toLowerCase hp) (Js.toLowerCase keyword')) l
            = existsb (fun hp => String.eqb hp (Js.toLowerCase keyword')) (Js.toLowerCase <$> l)).
  { intros l. induction l as [|x l IH]; cbn; [done|]. by rewrite IH. }
  by rewrite !Hex, Hhp.
Qed.

Lemma fold_left_pairwise {A B} (f g : A -> B -> A) (l l' : list B) (R : B -> B -> Prop) :
  (forall a b b', R b b' -> f a b = g a b') ->
  Forall2 R l l' -> forall a, fold_left f l a = fold_left g l' a.
Proof.
  intros Hfg Hl. induction Hl as [|b b' l l' Hb _ IH]; intros a; [done|].
  cbn. rewrite (Hfg a b b' Hb). apply IH.
Qed.

Lemma fmap_eq_Forall2 {A B} (f : A -> B) (l l' : list A) :
  f <$> l = f <$> l' -> Forall2 (fun a a' => f a = f a') l l'.
Proof.
  revert l'. induction l as [|a l IH]; intros [|a' l']; cbn; try done.
  intros [= Ha Hl]. constructor; [done|by apply IH].
Qed.

(** X21 ([calculateProphecyScore]).  The score does not depend on letter
    case: when two configurations have the same keywords up to case and
    the same weights, and two entries the same title and description up
    to case, the scores are equal. *)
Theorem score_ignores_letter_case cfg cfg' item item' :
  Js.toLowerCase <$> Config.prophecy_keywords (Config.scoring cfg)
    = Js.toLowerCase <$> Config.prophecy_keywords (Config.scoring cfg') ->
  Js.toLowerCase <$> Config.high_priority_keywords (Config.scoring cfg)
    = Js.toLowerCase <$> Config.high_priority_keywords (Config.scoring cfg') ->
  Config.keyword_weights (Config.scoring cfg) = Config.keyword_weights (Config.scoring cfg') ->
  Js.toLowerCase (Item.title item) = Js.toLowerCase (Item.title item') ->
  Js.toLowerCase (Item.description item) = Js.toLowerCase (Item.description item') ->
  Rss.calculateProphecyScore cfg item = Rss.calculateProphecyScore cfg' item'.
Proof.
  intros Hkw Hhp Hw Htitle Hdesc. unfold Rss.calculateProphecyScore.
  rewrite !toLowerCase_app, Htitle, Hdesc. f_equal.
  rewrite (fold_left_pairwise
             (Rss.add_title_bonus (Js.toLowerCase (Item.title item')))
             (Rss.add_title_bonus (Js.toLowerCase (Item.title item')))
             _ (Config.high_priority_keywords (Config.scoring cfg'))
             (fun k k' => Js.toLowerCase k = Js.toLowerCase k')).
  - f_equal.
    apply (fold_left_pairwise _ _ _ _ (fun k k' => Js.toLowerCase k = Js.toLowerCase k')).
    + intros score k k' Hk. by apply add_keyword_case.
    + by apply fmap_eq_Forall2.
  - intros score k k' Hk. unfold Rss.add_title_bonus. by rewrite Hk.
  - by apply fmap_eq_Forall2.
Qed.

(** ** The text of a feed entry *)

(** X22 ([cleanText], modules/rss_handler.js).  In a cleaned text the
    only white space is the space character, no two spaces follow each
    other, and trimming changes nothing. *)
Theorem clean_text_has_single_spaces text :
  let cleaned := Rss.cleanText text in
  Forall (fun c => Js.is_space c = true -> c = " "%char) (String.list_ascii_of_string cleaned)
  /\ Js.includes cleaned "  " = false
  /\ Js.trim cleaned = cleaned.
Proof.
  intros cleaned. unfold cleaned, Rss.cleanText.
  match goal with
  | |- context [Js.trim (replaceAll false Rss.spaces_re " " ?inner)] => generalize inner
  end.
  intros inner. unfold Rss.spaces_re, space.
  rewrite (replaceAll_plus_unit false (Cls Js.is_space) Js.is_space) by apply one_unit_Cls.
  set (collapsed := replace_runs Js.is_space " " false inner).
  assert (Hunits : every (fun c => negb (Js.is_space c) || Ascii.eqb " " c) collapsed = true).
  { apply replace_runs_units; [done|]. intros c Hc. by rewrite Hc. }
  assert (Hadj : adjacent Js.is_space collapsed = false)
    by by apply (replace_runs_adjacent Js.is_space " ").
  destruct (trim_factor collapsed) as (pre & post & Hfactor).
  rewrite Hfactor in Hunits, Hadj.
  rewrite !every_app in Hunits.
  apply andb_true_iff in Hunits as [_ [Hunits _]%andb_true_iff].
  apply adjacent_app_r, adjacent_app_l in Hadj.
  split; [|split; [|apply trim_idemp]].
  - apply every_Forall in Hunits. eapply Forall_impl; [exact Hunits|].
    intros c Hc Hsp. cbn in Hc. rewrite Hsp in Hc. cbn in Hc.
    symmetry. by apply Ascii.eqb_eq.
  - rewrite (includes_pair " ").
    apply (adjacent_weaken Js.is_space); [apply space_is_white | exact Hadj].
Qed.

End ScoreFacts.

#[local] Arguments String.append s1 s2 : simpl never.

Section SummarizerFacts.
Import Crawler.
Variable P : Platform.t.
Variable ai_summarization : Summarizer.AiConfig.
Variable service : option (string -> M Summarizer.Digest.t).


End SummarizerFacts.

Section YamlFacts.
Import Re Units Yaml.

Lemma escapeYaml_eq text :
  escapeYaml text
  = replace_each (Ascii.eqb line_feed) " "
      (replace_each (Ascii.eqb quote) (String backslash (String quote ""))
         (replace_each (Ascii.eqb backslash) (String backslash (String backslash "")) text)).
Proof.
  unfold escapeYaml.
  by rewrite !(replaceAll_unit false _ _ _ _ (one_unit_Chr false _)).
Qed.

(** Unit by unit: what [escapeYaml] writes for a unit, and what the
    reader makes of it. *)
Lemma escapeYaml_step : forall a s,
  escapeYaml (String a s) =
    (if Ascii.eqb a backslash then String backslash (String backslash "")
     else if Ascii.eqb a quote then String backslash (String quote "")
     else if Ascii.eqb a line_feed then " "
     else String a "") +:+ escapeYaml s.
Proof.
  intros a s. rewrite !escapeYaml_eq. pattern a.
  apply for_all_units. intros [] [] [] [] [] [] [] []; reflexivity.
Qed.

Lemma read_quoted_step : forall a s,
  read_quoted (escapeYaml (String a s))
  = String (if Ascii.eqb a line_feed then " "%char else a) <$> read_quoted (escapeYaml s).
Proof.
  intros a s. rewrite escapeYaml_step. pattern a.
  apply for_all_units. intros [] [] [] [] [] [] [] []; reflexivity.
Qed.

Lemma on_one_line_step a s :
  on_one_line (String a s)
  = String (if Ascii.eqb a line_feed then " "%char else a) (on_one_line s).
Proof.
  unfold on_one_line. cbn [replace_each]. rewrite (Ascii.eqb_sym line_feed a).
  by destruct (Ascii.eqb a line_feed).
Qed.

(** X24 ([escapeYaml], modules/markdown_converter.js).  Between the
    quotes of the front matter the escaped title reads back as the title
    with a space for each line feed: no quote ends the scalar early, and
    every backslash starts the escape of a backslash or of a quote.  The
    escaped title has no line feed, is at least as long as the title, and
    is the title itself when this has no backslash, quote or line feed. *)
Theorem escaped_title_reads_back text :
  read_quoted (escapeYaml text) = Some (on_one_line text)
  /\ every (fun c => negb (Ascii.eqb c line_feed)) (escapeYaml text) = true
  /\ (String.length text <= String.length (escapeYaml text))%nat
  /\ (every (fun c => negb (Ascii.eqb c backslash || Ascii.eqb c quote || Ascii.eqb c line_feed))
        text = true -> escapeYaml text = text).
Proof.
  induction text as [|a text (IHread & IHfeed & IHlen & IHsame)].
  - by vm_compute.
  - split; [|split; [|split]].
    + by rewrite read_quoted_step, IHread, on_one_line_step.
    + rewrite escapeYaml_step. pattern a. apply for_all_units.
      intros [] [] [] [] [] [] [] []; exact IHfeed.
    + rewrite escapeYaml_step. pattern a. apply for_all_units.
      intros [] [] [] [] [] [] [] []; rewrite string_length_app; cbn; lia.
    + rewrite escapeYaml_step. pattern a. apply for_all_units.
      intros [] [] [] [] [] [] [] []; cbn; try done; intros H; by rewrite (IHsame H).
Qed.

End YamlFacts.

(** Witness of X1: three attempts that fail sleep 1000 and 2000
    milliseconds. *)
Lemma retry_gives_up_after_capped_backoff_witness :
  exists w',
    retry (throw (Error "down") : M unit) 3 (Demo.world None) = (w', Throw (Error "down"))
    /\ now w' = 1700000003000.
Proof.
  destruct (retry_gives_up_after_capped_backoff (throw (Error "down") : M unit) 3
              (Demo.world None))
    as (w' & m & Hrun & Hlast & Hnow & _).
  - intros w0. by exists "down".
  - lia.
  - exists w'. injection Hlast as <-. split; [exact Hrun|]. rewrite Hnow. reflexivity.
Defined.

(** Witness of X3: with no retries and an empty cache the scrape fails
    with the error of reading [lastError.message]. *)
Lemma zero_retries_skip_the_fallbacks_witness :
  scrapeSingleUrl Sample.no_retries "https://example.com/" (Demo.world None)
  = (Demo.world None,
     Throw (Error "Cannot read properties of undefined (reading 'message')")).
Proof.
  exact (proj2 (zero_retries_skip_the_fallbacks Sample.no_retries "https://example.com/"
                  (Demo.world None) eq_refl eq_refl)).
Defined.

(** Witness of X7: caching one page leaves the entry of another as it
    was. *)
Lemma cache_entries_are_per_url_witness :
  let d := Demo.doc "https://example.com/a" [] 1699999000000 in
  let w := Demo.world (Some Demo.site_cache) in
  snd (checkCache "https://example.com/b" (fst (cacheResult "https://example.com/a" d w)))
  = snd (checkCache "https://example.com/b" w).
Proof.
  intros d w.
  apply (proj1 (cache_entries_are_per_url "https://example.com/a" "https://example.com/b"
                  d w ltac:(discriminate))).
Defined.

(** Witness of X6: at depth 0 the crawl of the cached site returns the
    start page alone. *)
Lemma shallow_crawl_stops_at_the_start_page_witness :
  exists w' r,
    crawlRecursive Demo.failing "https://example.com/" 0 (Demo.world (Some Demo.site_cache))
      = (w', Return r)
    /\ Doc.url <$> CrawlData.pages (CrawlResult.data r) = ["https://example.com/"].
Proof.
  destruct (shallow_crawl_stops_at_the_start_page Demo.failing "https://example.com/" 0
              (Demo.world (Some Demo.site_cache)))
    as (w' & r & Hrun & Hpages & _); [lia|].
  exists w', r. split; [exact Hrun|]. rewrite Hpages. by vm_compute.
Defined.

(** Witness of X11: the job of a feed entry whose page is not in the
    cache is retried. *)
Lemma feed_job_is_retried_unless_cached_witness :
  exists w',
    Worker.process Demo.failing Sample.job (Demo.world None) = (w', Return Worker.Retry).
Proof.
  destruct (feed_job_is_retried_unless_cached Demo.failing Sample.feed Sample.job
              Sample.scored (Demo.world None))
    as (w' & d & Hrun & Hd & _).
  - by repeat split.
  - exists w'. rewrite Hrun. by rewrite Hd.
Defined.

(** Witness of X13: with a limit of 2 the third request of a window is
    refused. *)
Lemma limiter_allows_limit_requests_per_window_witness :
  RateLimiter.allowed <$>
    RateLimiter.serve (fun _ => false) (Some ∅) "client" 2 60
      [1700000000000; 1700000000001; 1700000000002]
  = [true; true; false].
Proof.
  destruct (limiter_allows_limit_requests_per_window (fun _ => false) ∅ "client" 2 60
              1700000000000 [1700000000001; 1700000000002])
    as (Hallowed & _).
  - done.
  - reflexivity.
  - lia.
  - repeat constructor; lia.
  - rewrite Hallowed. reflexivity.
Defined.

(** Witness of X14. *)
Lemma truncate_fits_the_bound_witness :
  Z.of_nat (String.length (Util.truncate "A long headline" 10)) <= 10.
Proof.
  apply (proj1 (truncate_fits_the_bound "A long headline" 10 ltac:(lia))).
Defined.

(** On the mark of seventy percent the double product decides: with
    [maxLength] 90 the product is just below 63 and the sentence that
    ends at index 63 is the summary; with [maxLength] 91 the mark is
    63.7 and the summary is the first 91 code units and three dots. *)
Lemma summary_keeps_the_sentence_at_the_mark :
  Markdown.generateSummary Sample.sentence_of_64 90 = Js.take 64 Sample.sentence_of_64
  /\ Markdown.generateSummary Sample.sentence_of_64 91
     = Js.take 91 Sample.sentence_of_64 +:+ "...".
Proof. split; by vm_compute. Qed.

(** Witness of X20: an entry with ASCII keywords and nothing of them in
    its text scores 0. *)
Lemma entry_without_keywords_scores_zero_witness :
  (Rss.calculateProphecyScore Demo.config (Sample.entry "Weather report" "Rain at noon.") == 0)%Q.
Proof.
  apply (proj1 (entry_without_keywords_scores_zero Demo.config
                  (Sample.entry "Weather report" "Rain at noon.")
                  ltac:(repeat constructor) ltac:(repeat constructor))).
Defined.

(** Witness of X21: keywords and entry in capitals, same score. *)
Lemma score_ignores_letter_case_witness :
  Rss.calculateProphecyScore Demo.config (Sample.entry "Biblical prophecy" "End times.")
  = Rss.calculateProphecyScore Sample.capitals (Sample.entry "BIBLICAL PROPHECY" "END TIMES.").
Proof.
  apply (score_ignores_letter_case Demo.config Sample.capitals
           (Sample.entry "Biblical prophecy" "End times.")
           (Sample.entry "BIBLICAL PROPHECY" "END TIMES.")); reflexivity.
Defined.

